(** * Syriac parse tree: the answer shapes, the decomposition tree, the
    conversation accumulator, the word walker and the sentence driver.

    Shallow embedding of [responses.py], [utils/api.py] and [parser.py].

    - A Python [str] is a sequence of Unicode code points: [list N].
    - Python's [len] and slice bounds are integers: [Z].
    - A raised exception is a value of [exn]; code that may raise returns
      a [result].
    - The walker and the driver mutate a conversation, an output file and
      the console, and talk to an external answer service: they run in the
      monad [M], a state monad whose state survives a raised exception.
    - The console is the one of [rich]: [print] reads its text as markup
      and raises when the text does not read as such. The markup reader
      is a parameter of the program, like the answer service and the JSON
      reader. *)

From Stdlib Require Import List ZArith NArith Lia Bool String Ascii.
From Stdlib Require Import DecimalString.
Import ListNotations.

Set Implicit Arguments.

(* ===================================================================== *)
(** * Python strings *)
(* ===================================================================== *)

Definition codepoint := N.
Definition str := list codepoint.

(** An ASCII literal of the source, as code points. *)
Definition lit (s : string) : str :=
  List.map N_of_ascii (list_ascii_of_string s).

Definition nl : str := [10%N].
Definition dquote : codepoint := 34%N.

(** [s * n] on strings. *)
Fixpoint str_repeat (s : str) (n : nat) : str :=
  match n with
  | O => []
  | S n' => s ++ str_repeat s n'
  end.

(** Truth value of a string: the empty string is falsy. *)
Definition truthy (s : str) : bool :=
  match s with
  | [] => false
  | _ :: _ => true
  end.

(** [x or d] where [x : str | None]. *)
Definition or_else (x : option str) (d : str) : str :=
  match x with
  | Some s => if truthy s then s else d
  | None => d
  end.

Definition str_eqb (a b : str) : bool :=
  if list_eq_dec N.eq_dec a b then true else false.

Definition py_len (A : Type) (s : list A) : Z := Z.of_nat (List.length s).

(** Slice bounds are adjusted as CPython does for a step of 1: a negative
    bound counts from the end, and every bound is clamped to [0, len]. *)
Definition adjust_index (len i : Z) : Z :=
  if (i <? 0)%Z then
    (if (i + len <? 0)%Z then 0%Z else (i + len)%Z)
  else
    (if (len <? i)%Z then len else i).

(** [s[start:stop]], either bound possibly omitted. *)
Definition py_slice (A : Type) (s : list A) (start stop : option Z) : list A :=
  let len := py_len s in
  let lo := match start with
            | None => 0%Z
            | Some i => adjust_index len i
            end in
  let hi := match stop with
            | None => len
            | Some j => adjust_index len j
            end in
  if (hi <=? lo)%Z then []
  else firstn (Z.to_nat (hi - lo)) (skipn (Z.to_nat lo) s).

(** [str(i)] for an integer. *)
Definition str_of_int (i : Z) : str :=
  lit (NilZero.string_of_int (Z.to_int i)).

(* ===================================================================== *)
(** * Exceptions *)
(* ===================================================================== *)

(** The exceptions the modelled code can raise; all are subclasses of
    Python's [Exception]. [MarkupError] is the error of the console
    ([rich.errors.MarkupError]). *)
Inductive exn : Type :=
| ValueError (msg : str)
| ValidationError
| IndexError
| TypeError
| MarkupError.

Inductive result (A : Type) : Type :=
| Ok (a : A)
| Raise (e : exn).

Arguments Ok {A} a.
Arguments Raise {A} e.


(* ===================================================================== *)
(** * responses.py *)
(* ===================================================================== *)

(** U+2205 *)
Definition empty : str := [0x2205%N].

(** The Syriac letters that occur in the source. *)
Definition waw : codepoint := 0x718%N.
Definition heth : codepoint := 0x71a%N.
Definition yudh : codepoint := 0x71d%N.
Definition kaph : codepoint := 0x71f%N.
Definition mim : codepoint := 0x721%N.
Definition nun : codepoint := 0x722%N.
Definition shin : codepoint := 0x72b%N.

(** The subclasses of [WordResponse], as class objects. *)
Inductive response_type : Type :=
| PrefixedAnalyticalWordResponse
| SuffixedPronounResponse
| CompleteFormResponse
| PrefixedSuffixedMorphemeResponse
| MorphemeTypeResponse.

(** [cls.__name__] *)
Definition class_name (t : response_type) : str :=
  match t with
  | PrefixedAnalyticalWordResponse => lit "PrefixedAnalyticalWordResponse"
  | SuffixedPronounResponse => lit "SuffixedPronounResponse"
  | CompleteFormResponse => lit "CompleteFormResponse"
  | PrefixedSuffixedMorphemeResponse => lit "PrefixedSuffixedMorphemeResponse"
  | MorphemeTypeResponse => lit "MorphemeTypeResponse"
  end.

(** A validated instance of one of the subclasses, with its fields. *)
Inductive WordResponse : Type :=
| mkPrefixedAnalyticalWord (prefix : option str)
| mkSuffixedPronoun (suffix : option str)
| mkCompleteForm (complete : str)
| mkPrefixedSuffixedMorpheme (prefix : option str) (suffix : option str)
| mkMorphemeType (morpheme_type : str).

(** [self.__class__] *)
Definition class_of (self : WordResponse) : response_type :=
  match self with
  | mkPrefixedAnalyticalWord _ => PrefixedAnalyticalWordResponse
  | mkSuffixedPronoun _ => SuffixedPronounResponse
  | mkCompleteForm _ => CompleteFormResponse
  | mkPrefixedSuffixedMorpheme _ _ => PrefixedSuffixedMorphemeResponse
  | mkMorphemeType _ => MorphemeTypeResponse
  end.

Definition get_question_message (sentence : str) : str :=
  lit "Please list all the words in the following sentence: " ++ sentence.

Definition get_question (t : response_type) (word : str) : str :=
  match t with
  | PrefixedAnalyticalWordResponse =>
      lit "Is there any prefixed analytical word (preposition or " ++ [waw]
      ++ lit ") in the word " ++ word ++ lit "?"
  | SuffixedPronounResponse =>
      lit "Is there any suffixed pronoun (possesive, objective, or attached to participles) in the word "
      ++ word ++ lit "?"
  | CompleteFormResponse =>
      lit "What is the complete form of the word " ++ word ++ lit "?"
  | PrefixedSuffixedMorphemeResponse =>
      lit "Is there any prefixed morpheme or suffixed morpheme in the word "
      ++ word ++ lit "?"
  | MorphemeTypeResponse =>
      lit "What category does the morpheme of the word " ++ word
      ++ lit " belong to? "
      ++ lit "Choose from preformative, passive prefix, verbal stem morpheme, "
      ++ lit "verbal ending, nominal ending, or emphatic marker."
  end.

Definition invalid_index (self : WordResponse) (index : Z) : exn :=
  ValueError (lit "Invalid index for " ++ class_name (class_of self)
              ++ lit ": " ++ str_of_int index).

(** [get_part], dispatched on the class of [self]. *)
Definition get_part (self : WordResponse) (word : str) (index : Z)
  : result str :=
  match self with
  | mkPrefixedAnalyticalWord p =>
      let prefix := or_else p [] in
      match index with
      | 0%Z => Ok prefix
      | 1%Z => Ok (py_slice word (Some (py_len prefix)) None)
      | _ => Raise (invalid_index self index)
      end
  | mkSuffixedPronoun s =>
      let suffix := or_else s [] in
      match index with
      | 0%Z => Ok (py_slice word None (Some (py_len word - py_len suffix)%Z))
      | 1%Z => Ok suffix
      | _ => Raise (invalid_index self index)
      end
  | mkCompleteForm complete => Ok complete
  | mkPrefixedSuffixedMorpheme p s =>
      let prefix := or_else p [] in
      let suffix := or_else s [] in
      match index with
      | 0%Z => Ok prefix
      | 1%Z => Ok (py_slice word (Some (py_len prefix))
                     (Some (py_len word - py_len suffix)%Z))
      | 2%Z => Ok suffix
      | _ => Raise (invalid_index self index)
      end
  | mkMorphemeType morpheme_type => Ok morpheme_type
  end.

(** [__str__], dispatched on the class of [self]. *)
Definition __str__ (self : WordResponse) : str :=
  match self with
  | mkPrefixedAnalyticalWord p => lit "Prefix: " ++ or_else p empty
  | mkSuffixedPronoun s => lit "Suffix: " ++ or_else s empty
  | mkCompleteForm complete =>
      lit "Complete form: " ++ or_else (Some complete) empty
  | mkPrefixedSuffixedMorpheme p s =>
      lit "Prefix: " ++ or_else p empty ++ lit ", Suffix: " ++ or_else s empty
  | mkMorphemeType morpheme_type =>
      lit "Morpheme type: " ++ or_else (Some morpheme_type) empty
  end.

(** The decomposition tree: a class and its child slots, each a node or
    [None]. *)
#[local] Set Warnings "-register-all".
Inductive Node : Type :=
| mkNode (response_type : response_type) (children : list (option Node)).

Definition node_response_type (n : Node) : response_type :=
  match n with mkNode t _ => t end.

Definition node_children (n : Node) : list (option Node) :=
  match n with mkNode _ cs => cs end.

Definition response_tree : Node :=
  mkNode PrefixedAnalyticalWordResponse
    [ None;
      Some (mkNode SuffixedPronounResponse
        [ Some (mkNode CompleteFormResponse
            [ Some (mkNode PrefixedSuffixedMorphemeResponse
                [ Some (mkNode MorphemeTypeResponse []);
                  Some (mkNode MorphemeTypeResponse []);
                  Some (mkNode MorphemeTypeResponse []) ]) ]);
          Some (mkNode CompleteFormResponse []) ]) ].


(** The few-shot priming text, transcribed piece by piece. *)
Definition triple_quote : str := [dquote; dquote; dquote].

Definition system_message : str :=
  lit "You are a Semitic language expert. Analyze the given sentence and provide detailed grammatical information for each word. Imporant: always use the response tool to respond to the user. Never add any other text to the response."
  ++ nl ++ nl
  ++ lit "Text: " ++ triple_quote ++ nl
  ++ lit "Please list all the words in the following sentence: "
  ++ [waw; mim; shin; kaph; heth; yudh; nun; nun] ++ nl
  ++ triple_quote ++ nl
  ++ lit "words: " ++ [waw; mim; shin; kaph; heth; yudh; nun; nun] ++ nl
  ++ nl
  ++ lit "Text: " ++ triple_quote ++ nl
  ++ lit "Is there any prefixed analytical word (preposition or " ++ [waw]
  ++ lit ") in the word " ++ [waw; mim; shin; kaph; heth; yudh; nun; nun]
  ++ lit "?" ++ nl
  ++ triple_quote ++ nl
  ++ lit "prefix: " ++ [waw] ++ nl
  ++ nl
  ++ lit "Text: " ++ triple_quote ++ nl
  ++ lit "Is there any suffixed pronoun (possesive, objective, or attached to participles) in the word "
  ++ [mim; shin; kaph; heth; yudh; nun; nun] ++ lit "?" ++ nl
  ++ triple_quote ++ nl
  ++ lit "suffix: " ++ [nun; nun] ++ nl
  ++ nl
  ++ lit "Text: " ++ triple_quote ++ nl
  ++ lit "What is the complete form of the word "
  ++ [mim; shin; kaph; heth; yudh] ++ lit "?" ++ nl
  ++ triple_quote ++ nl
  ++ lit "complete: " ++ [mim; shin; kaph; heth; yudh; nun] ++ nl
  ++ nl
  ++ lit "Text: " ++ triple_quote ++ nl
  ++ lit "Is there any prefixed morpheme or suffixed morpheme in the word "
  ++ [mim; shin; kaph; heth; yudh; nun] ++ lit "?" ++ nl
  ++ triple_quote ++ nl
  ++ lit "prefix: " ++ [mim] ++ nl
  ++ lit "suffix: " ++ [yudh; nun] ++ nl
  ++ nl
  ++ lit "Text: " ++ triple_quote ++ nl
  ++ lit "What category does the morpheme of the word " ++ [mim]
  ++ lit " belong to? Choose from preformative, passive prefix, verbal stem morpheme, verbal ending, nominal ending, or emphatic marker."
  ++ nl
  ++ triple_quote ++ nl
  ++ lit "morpheme_type: performative" ++ nl
  ++ nl
  ++ lit "Text: " ++ triple_quote ++ nl
  ++ lit "What category does the morpheme of the word " ++ [shin; kaph; heth]
  ++ lit " belong to? Choose from preformative, passive prefix, verbal stem morpheme, verbal ending, nominal ending, or emphatic marker."
  ++ nl
  ++ triple_quote ++ nl
  ++ lit "morpheme_type: verbal ending" ++ nl
  ++ nl
  ++ lit "Text: " ++ triple_quote ++ nl
  ++ lit "What category does the morpheme of the word " ++ [yudh; nun]
  ++ lit " belong to? Choose from preformative, passive prefix, verbal stem morpheme, verbal ending, nominal ending, or emphatic marker."
  ++ nl
  ++ triple_quote ++ nl
  ++ lit "morpheme_type: nominal ending" ++ nl
  ++ nl
  ++ lit "Text: " ++ triple_quote ++ nl
  ++ lit "What is the complete form of the word " ++ [nun; nun] ++ lit "?"
  ++ nl
  ++ triple_quote ++ nl
  ++ lit "complete: " ++ [heth; nun; nun] ++ nl.


(* ===================================================================== *)
(** * Validation of a payload (pydantic) *)
(* ===================================================================== *)

(** A parsed JSON value. The members of an object are those of the parsed
    dictionary, one per key. *)
Inductive json : Type :=
| JNull
| JBool (b : bool)
| JNumber (text : str)
| JString (s : str)
| JArray (items : list json)
| JObject (members : list (str * json)).

Fixpoint member (key : str) (members : list (str * json)) : option json :=
  match members with
  | [] => None
  | (k, v) :: rest => if str_eqb k key then Some v else member key rest
  end.

(** [extra='forbid']: every key of the payload is a declared field. *)
Definition no_extra (fields : list str) (members : list (str * json)) : bool :=
  forallb (fun kv => existsb (str_eqb (fst kv)) fields) members.

(** A field annotated [str]. *)
Definition as_str (v : json) : result str :=
  match v with
  | JString s => Ok s
  | _ => Raise ValidationError
  end.

(** A field annotated [str | None]. *)
Definition as_optional_str (v : json) : result (option str) :=
  match v with
  | JNull => Ok None
  | JString s => Ok (Some s)
  | _ => Raise ValidationError
  end.

(** A field annotated [list[str]]. *)
Fixpoint as_str_items (items : list json) : result (list str) :=
  match items with
  | [] => Ok []
  | v :: rest =>
      match as_str v, as_str_items rest with
      | Ok s, Ok l => Ok (s :: l)
      | _, _ => Raise ValidationError
      end
  end.

Definition as_list_str (v : json) : result (list str) :=
  match v with
  | JArray items => as_str_items items
  | _ => Raise ValidationError
  end.

(** A field declared without a default value is required: the payload
    must carry its key. None of the classes declares a default. *)
Definition required (A : Type) (key : str) (conv : json -> result A)
    (members : list (str * json)) : result A :=
  match member key members with
  | Some v => conv v
  | None => Raise ValidationError
  end.

Definition fields_of (t : response_type) : list str :=
  match t with
  | PrefixedAnalyticalWordResponse => [lit "prefix"]
  | SuffixedPronounResponse => [lit "suffix"]
  | CompleteFormResponse => [lit "complete"]
  | PrefixedSuffixedMorphemeResponse => [lit "prefix"; lit "suffix"]
  | MorphemeTypeResponse => [lit "morpheme_type"]
  end.

(** Validation of a parsed payload against a subclass of [WordResponse],
    following the field declarations of the class. *)
Definition model_validate (t : response_type) (v : json) : result WordResponse :=
  match v with
  | JObject members =>
      if no_extra (fields_of t) members then
        match t with
        | PrefixedAnalyticalWordResponse =>
            match required (lit "prefix") as_optional_str members with
            | Ok p => Ok (mkPrefixedAnalyticalWord p)
            | Raise e => Raise e
            end
        | SuffixedPronounResponse =>
            match required (lit "suffix") as_optional_str members with
            | Ok s => Ok (mkSuffixedPronoun s)
            | Raise e => Raise e
            end
        | CompleteFormResponse =>
            match required (lit "complete") as_str members with
            | Ok c => Ok (mkCompleteForm c)
            | Raise e => Raise e
            end
        | PrefixedSuffixedMorphemeResponse =>
            match required (lit "prefix") as_optional_str members,
                  required (lit "suffix") as_optional_str members with
            | Ok p, Ok s => Ok (mkPrefixedSuffixedMorpheme p s)
            | _, _ => Raise ValidationError
            end
        | MorphemeTypeResponse =>
            match required (lit "morpheme_type") as_str members with
            | Ok m => Ok (mkMorphemeType m)
            | Raise e => Raise e
            end
        end
      else Raise ValidationError
  | _ => Raise ValidationError
  end.

(** Validation against [ListWordsResponse], returning its [words]. *)
Definition model_validate_words (v : json) : result (list str) :=
  match v with
  | JObject members =>
      if no_extra [lit "words"] members then
        required (lit "words") as_list_str members
      else Raise ValidationError
  | _ => Raise ValidationError
  end.

(** The registered tools: [ListWordsResponse] and the word classes. *)
Inductive model_class : Type :=
| ListWordsResponse
| WordClass (t : response_type).

(* ===================================================================== *)
(** * utils/api.py *)
(* ===================================================================== *)

Inductive Role : Type := SYSTEM | USER | ASSISTANT | TOOL.

(** The value of a [StrEnum] member declared with [auto()]. *)
Definition Role_value (r : Role) : str :=
  match r with
  | SYSTEM => lit "system"
  | USER => lit "user"
  | ASSISTANT => lit "assistant"
  | TOOL => lit "tool"
  end.

(** One entry of [message.tool_calls]:
    [{'id': ..., 'function': {'name': ..., 'arguments': ...}}]. *)
Record ToolCall : Type := mkToolCall {
  call_id : str;
  function_name : str;
  function_arguments : str
}.

(** [Message] and its subclass [ToolMessage]. *)
Inductive Message : Type :=
| mkMessage (role : Role) (content : str) (tool_calls : option (list ToolCall))
| mkToolMessage (role : Role) (content : str)
    (tool_calls : option (list ToolCall)) (tool_call_id : str) (name : str).

Inductive param_value : Type :=
| PStr (s : str)
| PCalls (calls : list ToolCall).

(** The dictionary sent for one message, as its items in order. *)
Definition ChatCompletionMessageParam : Type := list (string * param_value).

Definition tool_calls_item (tool_calls : option (list ToolCall))
  : ChatCompletionMessageParam :=
  match tool_calls with
  | None => []
  | Some calls => [("tool_calls"%string, PCalls calls)]
  end.

(** [Message.cast]: [asdict], without the [tool_calls] key when it is
    [None]. *)
Definition cast (self : Message) : ChatCompletionMessageParam :=
  match self with
  | mkMessage role content tool_calls =>
      [("role"%string, PStr (Role_value role));
       ("content"%string, PStr content)]
      ++ tool_calls_item tool_calls
  | mkToolMessage role content tool_calls tool_call_id name =>
      [("role"%string, PStr (Role_value role));
       ("content"%string, PStr content)]
      ++ tool_calls_item tool_calls
      ++ [("tool_call_id"%string, PStr tool_call_id);
          ("name"%string, PStr name)]
  end.

Record MessageQueue : Type := mkMessageQueue {
  messages : list Message;
  argument : str
}.

(** [MessageQueue()] *)
Definition new_queue : MessageQueue := mkMessageQueue [] [].

Definition get_messages (self : MessageQueue)
  : list ChatCompletionMessageParam :=
  List.map cast (messages self).

(** [self.messages.append(m)] *)
Definition append_message (self : MessageQueue) (m : Message) : MessageQueue :=
  mkMessageQueue (messages self ++ [m]) (argument self).

Definition register_message (self : MessageQueue) (role : Role) (content : str)
  : MessageQueue :=
  append_message self (mkMessage role content None).

Definition register_system_message (self : MessageQueue) (content : str)
  : MessageQueue :=
  register_message self SYSTEM content.

Definition user_frame (content : str) : str :=
  lit "Text: " ++ triple_quote ++ nl ++ content ++ nl ++ triple_quote.

Definition register_user_message (self : MessageQueue) (content : str)
  : MessageQueue :=
  register_message self USER (user_frame content).

(** The message of [completion.output.choices[k]]. *)
Record ChoiceMessage : Type := mkChoiceMessage {
  choice_content : str;
  choice_tool_calls : option (list ToolCall)
}.

(** What the modelled code reads of a [GenerationResponse]. *)
Record GenerationResponse : Type := mkGenerationResponse {
  status_code : Z;
  code : str;
  message : str;
  choices : list ChoiceMessage
}.

(** [HTTPStatus.OK] *)
Definition HTTP_OK : Z := 200%Z.

Definition request_error (completion : GenerationResponse) : str :=
  lit "[bold yellow]Request error " ++ code completion ++ lit ": "
  ++ message completion ++ lit "[/]".

(* ===================================================================== *)
(** * Effects *)
(* ===================================================================== *)

(** The mutable state of a run: the conversation object the driver holds,
    the chunks written to the output file so far (one per [write] call),
    the texts printed on the console (one per [print] call that
    returned), and the state of the answer service. *)
Record State (World : Type) : Type := mkState {
  queue : MessageQueue;
  file : list str;
  console : list str;
  world : World
}.

Arguments mkState {World} queue file console world.

(** A computation returns or raises; either way the state it has reached
    stays. *)
Definition M (World A : Type) : Type :=
  State World -> result A * State World.

Definition ret (World A : Type) (a : A) : M World A :=
  fun st => (Ok a, st).

Definition raise (World A : Type) (e : exn) : M World A :=
  fun st => (Raise e, st).

Definition bind (World A B : Type) (m : M World A) (k : A -> M World B)
  : M World B :=
  fun st =>
    match m st with
    | (Ok a, st') => k a st'
    | (Raise e, st') => (Raise e, st')
    end.

(** [try: m  except Exception as e: handler(e)] *)
Definition try_except (World A : Type) (m : M World A)
    (handler : exn -> M World A) : M World A :=
  fun st =>
    match m st with
    | (Ok a, st') => (Ok a, st')
    | (Raise e, st') => handler e st'
    end.

Definition lift (World A : Type) (r : result A) : M World A :=
  fun st => (r, st).

Arguments ret {World A} a _.
Arguments raise {World A} e _.
Arguments bind {World A B} m k _.
Arguments try_except {World A} m handler _.
Arguments lift {World A} r _.

Declare Scope py_scope.
Delimit Scope py_scope with py.
Notation "x <- m ;; k" := (bind m (fun x => k))
  (at level 61, m at next level, right associativity) : py_scope.
Notation "m ;; k" := (bind m (fun _ => k))
  (at level 61, right associativity) : py_scope.
Local Open Scope py_scope.

Section Effects.
Variable World : Type.

(** The markup reader of the console. [print] is [rich.print]: it reads
    its text as console markup and raises [MarkupError] when the text
    does not read as such, as with a closing tag that closes nothing.
    [markup_error s] tells whether the reader refuses [s]. *)
Variable markup_error : str -> bool.

(** [self.file.write(s)] *)
Definition file_write (s : str) : M World unit :=
  fun st => (Ok tt, mkState (queue st) (file st ++ [s]) (console st) (world st)).

(** [print(s)], for a string [s]: the console keeps the texts given to
    the calls that returned; a text its markup reader refuses is not
    printed and the call raises. *)
Definition print (s : str) : M World unit :=
  fun st =>
    if markup_error s then (Raise MarkupError, st)
    else (Ok tt,
          mkState (queue st) (file st) (console st ++ [s]) (world st)).

(** A method that mutates the conversation object. *)
Definition on_queue (f : MessageQueue -> MessageQueue) : M World unit :=
  fun st => (Ok tt, mkState (f (queue st)) (file st) (console st) (world st)).

(** [MessageQueue.register_response] *)
Definition register_response (completion : GenerationResponse)
  : M World unit :=
  if (status_code completion =? HTTP_OK)%Z then
    match choices completion with
    | [] => raise IndexError
    | message :: _ =>
        let calls := choice_tool_calls message in
        on_queue (fun q =>
          append_message q (mkMessage ASSISTANT (choice_content message) calls)) ;;
        match calls with
        | None => raise TypeError
        | Some [] => raise IndexError
        | Some (call :: _) =>
            on_queue (fun q =>
              append_message q
                (mkToolMessage TOOL [] None (call_id call) (function_name call))) ;;
            on_queue (fun q =>
              mkMessageQueue (messages q) (function_arguments call))
        end
    end
  else
    print (request_error completion) ;;
    on_queue (fun q => mkMessageQueue (messages q) []).
End Effects.

(* ===================================================================== *)
(** * The client and the parser *)
(* ===================================================================== *)

Section Program.
Variable World : Type.

(** The markup reader of the console, see [print]. *)
Variable markup_error : str -> bool.

(** [dashscope.Generation.call]: the answer service, which sees the
    messages sent and the tool it must call. *)
Variable Generation_call :
  World -> list ChatCompletionMessageParam -> model_class ->
  GenerationResponse * World.

(** The JSON reader behind [model_validate_json]; [None] when the text
    is not JSON. *)
Variable json_loads : str -> option json.

Definition model_validate_json (t : response_type) (payload : str)
  : result WordResponse :=
  match json_loads payload with
  | Some v => model_validate t v
  | None => Raise ValidationError
  end.

Definition model_validate_json_words (payload : str) : result (list str) :=
  match json_loads payload with
  | Some v => model_validate_words v
  | None => Raise ValidationError
  end.

(** [ClientDashScope.request] *)
Definition request (tool : model_class) : M World str :=
  fun st =>
    let (completion, w) :=
      Generation_call (world st) (get_messages (queue st)) tool in
    (register_response markup_error completion ;;
     (fun st' => (Ok (argument (queue st')), st')))
      (mkState (queue st) (file st) (console st) w).

Definition pad : str := str_repeat (lit " ") 4.

Definition invalid_json : str :=
  lit "[bold yellow]LLM has returned an invalid JSON![/]".

Definition parsing_failed : str :=
  lit "[bold yellow]Sentence parsing failed![/]".

Definition word_line (indent : nat) (word : str) : str :=
  nl ++ str_repeat pad indent ++ lit "Word: " ++ word ++ nl.

Definition answer_line (indent : nat) (res : WordResponse) : str :=
  str_repeat pad (indent + 1) ++ __str__ res ++ nl.

Section Children.
(** The recursive call [self.parse_word(queue, word_part, child,
    indent + 1)]. *)
Variable recurse : Node -> str -> M World unit.
Variable res : WordResponse.
Variable word : str.

(** One iteration of the loop over [enumerate(node.children)]. *)
Definition visit_child (i : nat) (child : option Node) : M World unit :=
  word_part <- lift (get_part res word (Z.of_nat i)) ;;
  match child with
  | Some c => if truthy word_part then recurse c word_part else ret tt
  | None => ret tt
  end.

Fixpoint for_children (children : list (option Node)) (i : nat)
  : M World unit :=
  match children with
  | [] => ret tt
  | child :: rest => visit_child i child ;; for_children rest (S i)
  end.
End Children.

(** [Parser.parse_word] *)
Fixpoint parse_word (node : Node) (word : str) (indent : nat) {struct node}
  : M World unit :=
  match node with
  | mkNode response_type children =>
      file_write (word_line indent word) ;;
      on_queue (fun q => register_user_message q (get_question response_type word)) ;;
      response <- request (WordClass response_type) ;;
      res <- try_except (lift (model_validate_json response_type response))
               (fun e => print markup_error response ;; print markup_error invalid_json ;; raise e) ;;
      file_write (answer_line indent res) ;;
      for_children (fun child word_part => parse_word child word_part (indent + 1))
        res word children 0
  end.

(** The body of the loop over [words] in [parse_sentence]; the tree it
    walks is [response_tree] there. *)
Definition parse_sentence_word (tree : Node) (word : str) : M World unit :=
  try_except (parse_word tree word 0) (fun _ => print markup_error parsing_failed) ;;
  file_write nl.

Fixpoint for_words (tree : Node) (words : list str) : M World unit :=
  match words with
  | [] => ret tt
  | word :: rest => parse_sentence_word tree word ;; for_words tree rest
  end.

(** [parse_sentence] up to the answer to the list question. *)
Definition ask_words (sentence : str) : M World str :=
  file_write (lit "Sentence: " ++ sentence ++ nl) ;;
  on_queue (fun _ => new_queue) ;;
  on_queue (fun q => register_system_message q system_message) ;;
  on_queue (fun q => register_user_message q (get_question_message sentence)) ;;
  request ListWordsResponse.

(** [Parser.parse_sentence] *)
Definition parse_sentence (sentence : str) : M World unit :=
  response <- ask_words sentence ;;
  words <- try_except (lift (model_validate_json_words response))
             (fun _ => print markup_error response ;; print markup_error invalid_json ;; ret []) ;;
  for_words response_tree words.

(** The loop of [Parser.parse] over the sentences of the corpus. *)
Fixpoint parse (sentences : list str) : M World unit :=
  match sentences with
  | [] => ret tt
  | sentence :: rest => parse_sentence sentence ;; parse rest
  end.
End Program.

(* ===================================================================== *)
(** * Vocabulary of the statements *)
(* ===================================================================== *)

(** The indices for which [get_part] of a class has a case of its own;
    the classes that ignore the index accept every integer. *)
Definition valid_index (t : response_type) (index : Z) : bool :=
  match t with
  | PrefixedAnalyticalWordResponse | SuffixedPronounResponse =>
      ((0 <=? index) && (index <? 2))%Z
  | PrefixedSuffixedMorphemeResponse =>
      ((0 <=? index) && (index <? 3))%Z
  | CompleteFormResponse | MorphemeTypeResponse => true
  end.

(** The number of parts of a multi-part class. *)
Definition part_count (t : response_type) : option nat :=
  match t with
  | PrefixedAnalyticalWordResponse | SuffixedPronounResponse => Some 2
  | PrefixedSuffixedMorphemeResponse => Some 3
  | CompleteFormResponse | MorphemeTypeResponse => None
  end.

(** [word.startswith(p)] and [word.endswith(s)]. *)
Fixpoint startswith (word p : str) {struct p} : bool :=
  match p, word with
  | [], _ => true
  | _ :: _, [] => false
  | a :: p', b :: word' => N.eqb a b && startswith word' p'
  end.

Definition endswith (word s : str) : bool :=
  startswith (rev word) (rev s).

(** The fields of an answer really cut the word: the prefix starts it,
    the suffix ends it, and the two do not overlap. *)
Definition cuts (self : WordResponse) (word : str) : bool :=
  match self with
  | mkPrefixedAnalyticalWord p => startswith word (or_else p [])
  | mkSuffixedPronoun s => endswith word (or_else s [])
  | mkPrefixedSuffixedMorpheme p s =>
      startswith word (or_else p []) && endswith word (or_else s [])
      && (List.length (or_else p []) + List.length (or_else s [])
          <=? List.length word)
  | mkCompleteForm _ | mkMorphemeType _ => true
  end.

(** Following the spec's words: the concatenation, in order, of the
    non-empty parts that [get_part] returns at the given indices. *)
Fixpoint spec_concat_parts (self : WordResponse) (word : str)
    (indices : list nat) : result str :=
  match indices with
  | [] => Ok []
  | i :: rest =>
      match get_part self word (Z.of_nat i) with
      | Ok part =>
          match spec_concat_parts self word rest with
          | Ok tail => Ok ((if truthy part then part else []) ++ tail)
          | Raise e => Raise e
          end
      | Raise e => Raise e
      end
  end.

(** The value of the single field of a class that ignores the index. *)
Definition terminal_value (self : WordResponse) : option str :=
  match self with
  | mkCompleteForm complete => Some complete
  | mkMorphemeType morpheme_type => Some morpheme_type
  | _ => None
  end.

(** The fields of an answer, as held. *)
Definition field_values (self : WordResponse) : list (option str) :=
  match self with
  | mkPrefixedAnalyticalWord p => [p]
  | mkSuffixedPronoun s => [s]
  | mkCompleteForm complete => [Some complete]
  | mkPrefixedSuffixedMorpheme p s => [p; s]
  | mkMorphemeType morpheme_type => [Some morpheme_type]
  end.

(** The word of the spec's examples. *)
Definition word_mshkhyn : str := [mim; shin; kaph; heth; yudh; nun].

(** The height of a tree: the number of edges on its longest path from
    the root through concrete children. *)
Fixpoint height (n : Node) : nat :=
  match n with
  | mkNode _ children =>
      (fix children_height (cs : list (option Node)) : nat :=
         match cs with
         | [] => 0
         | Some c :: rest => Nat.max (S (height c)) (children_height rest)
         | None :: rest => children_height rest
         end) children
  end.

(** Every node has no more child slots than its class has parts. *)
Fixpoint well_shaped (n : Node) : bool :=
  match n with
  | mkNode t children =>
      match part_count t with
      | Some k => List.length children <=? k
      | None => true
      end
      && (fix all_shaped (cs : list (option Node)) : bool :=
            match cs with
            | [] => true
            | Some c :: rest => well_shaped c && all_shaped rest
            | None :: rest => all_shaped rest
            end) children
  end.

(** [enumerate(children)] from a start index. *)
Fixpoint enumerate (A : Type) (start : nat) (l : list A) : list (nat * A) :=
  match l with
  | [] => []
  | x :: rest => (start, x) :: enumerate (S start) rest
  end.

Section Trace.
Variable World : Type.

(** A chunk of the trace written by a call of the walker whose
    [indent] lies between [lo] and [hi]. *)
Definition trace_chunk (lo hi : nat) (chunk : str) : Prop :=
  exists k, lo <= k <= hi /\
    ((exists w, chunk = word_line k w) \/
     (exists r, chunk = answer_line k r)).

(** [st'] continues [st]: the conversation, the file and the console
    of [st] are still there, unchanged and in order, followed by what
    came after; every new chunk of the file satisfies [P]. *)
Definition extends (P : str -> Prop) (st st' : State World) : Prop :=
  (exists entries, messages (queue st') = messages (queue st) ++ entries) /\
  (exists chunks, file st' = file st ++ chunks /\ Forall P chunks) /\
  (exists lines, console st' = console st ++ lines).

Definition Extends (A : Type) (P : str -> Prop) (m : M World A) : Prop :=
  forall st, extends P st (snd (m st)).

End Trace.

(* ===================================================================== *)
(** * A scripted answer service, for concrete runs *)
(* ===================================================================== *)

(** A reader for the JSON texts of the scripts below: one object whose
    values are strings without escapes, null, or arrays of such strings,
    with an optional space after a colon or a comma. *)
Fixpoint read_string (s : str) : option (str * str) :=
  match s with
  | [] => None
  | c :: rest =>
      if N.eqb c dquote then Some ([], rest)
      else if N.eqb c 92 then None
      else match read_string rest with
           | Some (body, rest') => Some (c :: body, rest')
           | None => None
           end
  end.

Definition skip_space (s : str) : str :=
  match s with
  | 32%N :: rest => rest
  | _ => s
  end.

Fixpoint read_items (fuel : nat) (s : str) : option (list json * str) :=
  match fuel with
  | O => None
  | S fuel' =>
      match s with
      | 34%N :: rest =>
          match read_string rest with
          | Some (body, 44%N :: rest') =>
              match read_items fuel' (skip_space rest') with
              | Some (items, rest'') => Some (JString body :: items, rest'')
              | None => None
              end
          | Some (body, 93%N :: rest') => Some ([JString body], rest')
          | _ => None
          end
      | _ => None
      end
  end.

Definition read_value (s : str) : option (json * str) :=
  match s with
  | 110%N :: 117%N :: 108%N :: 108%N :: rest => Some (JNull, rest)
  | 34%N :: rest =>
      match read_string rest with
      | Some (body, rest') => Some (JString body, rest')
      | None => None
      end
  | 91%N :: 93%N :: rest => Some (JArray [], rest)
  | 91%N :: rest =>
      match read_items (List.length rest) rest with
      | Some (items, rest') => Some (JArray items, rest')
      | None => None
      end
  | _ => None
  end.

Fixpoint read_members (fuel : nat) (s : str)
  : option (list (str * json) * str) :=
  match fuel with
  | O => None
  | S fuel' =>
      match s with
      | 34%N :: rest =>
          match read_string rest with
          | Some (key, 58%N :: rest') =>
              match read_value (skip_space rest') with
              | Some (v, 44%N :: rest'') =>
                  match read_members fuel' (skip_space rest'') with
                  | Some (ms, rest3) => Some ((key, v) :: ms, rest3)
                  | None => None
                  end
              | Some (v, 125%N :: rest'') => Some ([(key, v)], rest'')
              | _ => None
              end
          | _ => None
          end
      | _ => None
      end
  end.

Definition script_json_loads (s : str) : option json :=
  match s with
  | 123%N :: 125%N :: [] => Some (JObject [])
  | 123%N :: rest =>
      match read_members (List.length rest) rest with
      | Some (ms, []) => Some (JObject ms)
      | _ => None
      end
  | _ => None
  end.

(** The scripted service answers every request with the next completion
    of its script, and with a server error when the script is over. *)
Definition server_error : GenerationResponse :=
  mkGenerationResponse 500 (lit "InternalError") (lit "script exhausted") [].

Definition script_call (w : list GenerationResponse)
    (sent : list ChatCompletionMessageParam) (tool : model_class)
  : GenerationResponse * list GenerationResponse :=
  match w with
  | [] => (server_error, [])
  | completion :: rest => (completion, rest)
  end.

(** A successful completion that calls the tool with the given
    arguments. *)
Definition tool_answer (arguments : str) : GenerationResponse :=
  mkGenerationResponse HTTP_OK [] []
    [mkChoiceMessage [] (Some [mkToolCall (lit "call_0") (lit "response") arguments])].

Definition quoted (s : str) : str := [dquote] ++ s ++ [dquote].

(** The text of a JSON object with one or two members. *)
Definition object1 (key : string) (value : str) : str :=
  lit "{" ++ quoted (lit key) ++ lit ": " ++ value ++ lit "}".

Definition object2 (key1 : string) (value1 : str) (key2 : string)
    (value2 : str) : str :=
  lit "{" ++ quoted (lit key1) ++ lit ": " ++ value1 ++ lit ", "
  ++ quoted (lit key2) ++ lit ": " ++ value2 ++ lit "}".

(** The sentence of the priming text, and the answers it shows. *)
Definition sentence_wmshkhynn : str :=
  [waw; mim; shin; kaph; heth; yudh; nun; nun].

Definition script_priming : list GenerationResponse :=
  [ tool_answer (object1 "words" (lit "[" ++ quoted sentence_wmshkhynn ++ lit "]"));
    tool_answer (object1 "prefix" (quoted [waw]));
    tool_answer (object1 "suffix" (quoted [nun; nun]));
    tool_answer (object1 "complete" (quoted word_mshkhyn));
    tool_answer (object2 "prefix" (quoted [mim]) "suffix" (quoted [yudh; nun]));
    tool_answer (object1 "morpheme_type" (quoted (lit "performative")));
    tool_answer (object1 "morpheme_type" (quoted (lit "verbal ending")));
    tool_answer (object1 "morpheme_type" (quoted (lit "nominal ending")));
    tool_answer (object1 "complete" (quoted [heth; nun; nun])) ].

(** The state at the start of a run against a script. *)
Definition start (script : list GenerationResponse)
  : State (list GenerationResponse) :=
  mkState new_queue [] [] script.

(** Two answers with a null prefix. *)
Definition script_null_prefixes : list GenerationResponse :=
  [ tool_answer (object1 "prefix" (lit "null"));
    tool_answer (object1 "prefix" (lit "null")) ].

(** An answer whose payload is no JSON text. *)
Definition script_not_json : list GenerationResponse :=
  [ tool_answer (lit "no words") ].

(** A list of two words, a payload that does not validate for the first
    word, and a walk of the second word that stops at its second
    question, the script being over. *)
Definition script_first_word_fails : list GenerationResponse :=
  [ tool_answer (object1 "words"
      (lit "[" ++ quoted [nun; nun] ++ lit ", " ++ quoted [heth] ++ lit "]"));
    tool_answer (object1 "suffix" (lit "null"));
    tool_answer (object1 "prefix" (lit "null")) ].


(* ===================================================================== *)
(** * Vocabulary of the further statements *)
(* ===================================================================== *)

(** Where the slice [s[: len(s) - k]] stops, for a string of length
    [len]: at [len - k], and when that is negative at [2 * len - k],
    or at 0 if that is negative too. *)
Definition slice_stop (len k : nat) : nat :=
  if k <=? len then len - k else 2 * len - k.

(* ===================================================================== *)
(** * parser.py: the sentences of the corpus *)
(* ===================================================================== *)

Section Corpus.
(** What [\d] matches and what [strip()] strips: the decimal digits and
    the white space of Unicode. *)
Variable isdecimal : codepoint -> bool.
Variable isspace : codepoint -> bool.

Definition starts_with_digit (s : str) : bool :=
  match s with
  | c :: _ => isdecimal c
  | [] => false
  end.

(** [re.compile(r'\d+').split(content)]: the pieces between the maximal
    runs of digits, with an empty piece before a leading run and after a
    trailing one. *)
Fixpoint re_split (content : str) : list str :=
  match content with
  | [] => [[]]
  | c :: rest =>
      if isdecimal c then
        if starts_with_digit rest then re_split rest else [] :: re_split rest
      else
        match re_split rest with
        | piece :: pieces => (c :: piece) :: pieces
        | [] => [[c]]
        end
  end.

Fixpoint lstrip (s : str) : str :=
  match s with
  | [] => []
  | c :: rest => if isspace c then lstrip rest else s
  end.

Fixpoint rstrip (s : str) : str :=
  match s with
  | [] => []
  | c :: rest =>
      match rstrip rest with
      | [] => if isspace c then [] else [c]
      | r => c :: r
      end
  end.

(** [s.strip()] *)
Definition strip (s : str) : str := rstrip (lstrip s).

(** [[s.strip() for s in self.pattern.split(content) if s.strip()]] *)
Definition sentences_of (content : str) : list str :=
  List.map strip (List.filter (fun s => truthy (strip s)) (re_split content)).
End Corpus.

Section Run.
Variable World : Type.
Variable markup_error : str -> bool.
Variable Generation_call :
  World -> list ChatCompletionMessageParam -> model_class ->
  GenerationResponse * World.
Variable json_loads : str -> option json.
Variable isdecimal : codepoint -> bool.
Variable isspace : codepoint -> bool.

(** [Parser.parse], from the text read from the data file. *)
Definition parse_content (content : str) : M World unit :=
  parse markup_error Generation_call json_loads (sentences_of isdecimal isspace content).
End Run.

(** The digits and the white space of ASCII. *)
Definition ascii_isdecimal (c : codepoint) : bool :=
  ((48 <=? c) && (c <=? 57))%N.

Definition ascii_isspace (c : codepoint) : bool :=
  (((9 <=? c) && (c <=? 13)) || (c =? 32))%N.

(* ===================================================================== *)
(** * The shape of a conversation *)
(* ===================================================================== *)

(** [message.role] *)
Definition Message_role (m : Message) : Role :=
  match m with
  | mkMessage role _ _ => role
  | mkToolMessage role _ _ _ _ => role
  end.

(** What one step of the walker appends: a question; an answer, that is
    the assistant entry with its tool calls followed by the tool entry of
    the first call; or an assistant entry alone, when it carries no tool
    call to follow up. *)
Inductive exchange : list Message -> Prop :=
| exchange_question (content : str) :
    exchange [mkMessage USER content None]
| exchange_answer (content : str) (call : ToolCall) (calls : list ToolCall) :
    exchange [mkMessage ASSISTANT content (Some (call :: calls));
              mkToolMessage TOOL [] None (call_id call) (function_name call)]
| exchange_broken (content : str) (calls : option (list ToolCall)) :
    calls = None \/ calls = Some [] ->
    exchange [mkMessage ASSISTANT content calls].

Inductive exchanges : list Message -> Prop :=
| exchanges_nil : exchanges []
| exchanges_cons (block rest : list Message) :
    exchange block -> exchanges rest -> exchanges (block ++ rest).

Definition is_question (m : Message) : bool :=
  match Message_role m with
  | USER => true
  | _ => false
  end.

(** The number of questions among some entries. *)
Definition questions (entries : list Message) : nat :=
  List.length (List.filter is_question entries).

(** The number of nodes of a tree, and of the trees in some slots. *)
Fixpoint size (n : Node) : nat :=
  match n with
  | mkNode _ children =>
      S ((fix slots (cs : list (option Node)) : nat :=
            match cs with
            | [] => 0
            | Some c :: rest => size c + slots rest
            | None :: rest => slots rest
            end) children)
  end.

Fixpoint slots_size (children : list (option Node)) : nat :=
  match children with
  | [] => 0
  | Some c :: rest => size c + slots_size rest
  | None :: rest => slots_size rest
  end.

Section Talk.
Variable World : Type.

(** The computation appends exchanges, with at most [n] questions. *)
Definition Talks (A : Type) (n : nat) (m : M World A) : Prop :=
  forall st,
  exists entries,
    messages (queue (snd (m st))) = messages (queue st) ++ entries /\
    exchanges entries /\ questions entries <= n.

(** The computation appends exchanges, however many. *)
Definition Converses (A : Type) (m : M World A) : Prop :=
  forall st,
  exists entries,
    messages (queue (snd (m st))) = messages (queue st) ++ entries /\
    exchanges entries.
End Talk.

(** A completion with the OK status and no choice. *)
Definition script_no_choice : list GenerationResponse :=
  [ mkGenerationResponse HTTP_OK [] [] [] ].

(* ===================================================================== *)
(** * utils/schema.py *)
(* ===================================================================== *)

(** A schema is a JSON value: [json]. A dictionary is the list of its
    items in insertion order, one per key. *)

(** [key in d.keys()] *)
Definition has_key (key : str) (members : list (str * json)) : bool :=
  existsb (fun kv => str_eqb (fst kv) key) members.

(** [del d[key]] / [d.pop(key)], as to what is left. *)
Definition dict_del (key : str) (members : list (str * json))
  : list (str * json) :=
  List.filter (fun kv => negb (str_eqb (fst kv) key)) members.

(** [d[key] = v] *)
Fixpoint dict_set (key : str) (v : json) (members : list (str * json))
  : list (str * json) :=
  match members with
  | [] => [(key, v)]
  | (k', v') :: rest =>
      if str_eqb k' key then (k', v) :: rest
      else (k', v') :: dict_set key v rest
  end.

Section Purge.
(** The recursive call [purge_keys(d[key], k)]. *)
Variable purge : json -> json.
Variable k : list str.

(** The loop of [purge_keys] over [list(d.keys())]: [kept] holds the items
    already visited and not deleted, [todo] those still to visit, and the
    dictionary is [kept ++ todo] at that moment. *)
Fixpoint purge_loop (kept todo : list (str * json)) : list (str * json) :=
  match todo with
  | [] => kept
  | (key, v) :: rest =>
      if existsb (str_eqb key) k && has_key (lit "type") (kept ++ todo)
      then purge_loop kept rest
      else purge_loop (kept ++ [(key, purge v)]) rest
  end.
End Purge.

(** [purge_keys], returning the dictionary it has mutated. *)
Fixpoint purge_keys (d : json) (k : list str) {struct d} : json :=
  match d with
  | JObject members =>
      JObject (purge_loop (fun v => purge_keys v k) k [] members)
  | _ => d
  end.

Definition purged_keys : list str := [lit "title"; lit "default"].

(** [model.__name__] *)
Definition model_name (model : model_class) : str :=
  match model with
  | ListWordsResponse => lit "ListWordsResponse"
  | WordClass t => class_name t
  end.

(** [[A-Z]] *)
Definition is_upper (c : codepoint) : bool := ((65 <=? c) && (c <=? 90))%N.

(** [pattern.sub('_', name)]: an underscore before every letter from A to
    Z that is not the first character. *)
Definition pattern_sub (name : str) : str :=
  match name with
  | [] => []
  | c :: rest =>
      c :: flat_map (fun x => if is_upper x then [95%N; x] else [x]) rest
  end.

Section Schema.
(** [str.lower] *)
Variable str_lower : str -> str.

(** [replace_refs(model.model_json_schema(), proxies=False)], a
    dictionary. *)
Variable model_json_schema : model_class -> list (str * json).

Definition get_name (model : model_class) : str :=
  str_lower (pattern_sub (model_name model)).

Definition json_schema (model : model_class) : list (str * json) :=
  let schema := model_json_schema model in
  let schema :=
    if has_key (lit "$defs") schema then dict_del (lit "$defs") schema
    else schema in
  purge_loop (fun v => purge_keys v purged_keys) purged_keys [] schema.

(** [pydantic_function_tool]; [None] is the [KeyError] of
    [schema.pop('description')]. *)
Definition pydantic_function_tool (model : model_class) (name : option str)
  : option json :=
  let schema := json_schema model in
  let function_name := or_else name (get_name model) in
  match member (lit "description") schema with
  | None => None
  | Some description =>
      Some (JObject
              [(lit "type", JString (lit "function"));
               (lit "function",
                JObject
                  [(lit "name", JString function_name);
                   (lit "strict", JBool true);
                   (lit "description", description);
                   (lit "parameters",
                    JObject (dict_del (lit "description") schema))])])
  end.

(** The dictionary comprehension of [Client.__init__], from the
    dictionary built so far; [None] when a tool cannot be built. *)
Fixpoint Client_tools (tools : list model_class) (built : list (str * json))
  : option (list (str * json)) :=
  match tools with
  | [] => Some built
  | tool :: rest =>
      match pydantic_function_tool tool None with
      | None => None
      | Some t => Client_tools rest (dict_set (model_name tool) t built)
      end
  end.

(** [self.tools[tool.__name__]['function']['name']] in
    [ClientDashScope.request]. *)
Definition tool_choice_name (tools : list (str * json)) (tool : model_class)
  : option json :=
  match member (model_name tool) tools with
  | Some (JObject entry) =>
      match member (lit "function") entry with
      | Some (JObject function) => member (lit "name") function
      | _ => None
      end
  | _ => None
  end.
End Schema.

Definition registered_responses : list model_class :=
  [ ListWordsResponse;
    WordClass PrefixedAnalyticalWordResponse;
    WordClass SuffixedPronounResponse;
    WordClass CompleteFormResponse;
    WordClass PrefixedSuffixedMorphemeResponse;
    WordClass MorphemeTypeResponse ].

(** [str.lower] on the letters of ASCII. *)
Definition ascii_lower (s : str) : str :=
  List.map (fun c => if is_upper c then (c + 32)%N else c) s.

(** A schema as pydantic gives it for a class with one optional field. *)
Definition example_schema (model : model_class) : list (str * json) :=
  [ (lit "additionalProperties", JBool false);
    (lit "description", JString (lit "Any prefixed analytical word of the word"));
    (lit "properties",
     JObject
       [(lit "prefix",
         JObject
           [(lit "anyOf",
             JArray [JObject [(lit "type", JString (lit "string"))];
                     JObject [(lit "type", JString (lit "null"))]]);
            (lit "description",
             JString (lit "The prefixed analytical word of the word"));
            (lit "title", JString (lit "Prefix"))]);
        (lit "words",
         JObject
           [(lit "description", JString (lit "The list of Syriac words"));
            (lit "items", JObject [(lit "type", JString (lit "string"))]);
            (lit "title", JString (lit "Words"));
            (lit "type", JString (lit "array"))])]);
    (lit "required", JArray [JString (lit "prefix")]);
    (lit "title", JString (model_name model));
    (lit "type", JString (lit "object")) ].

(* ===================================================================== *)
(** * The console of the concrete runs *)
(* ===================================================================== *)

(** The markup reader of the concrete runs. A tag is a bracket that no
    odd run of backslashes escapes, followed by a lower-case letter, [#],
    [/] or [@] and by the text up to the next closing bracket, with no
    other opening bracket in between. The name of a tag is what stands
    before its first [=]; names are compared without the spaces around
    them and in lower case. An opening tag goes on a stack; [[/name]]
    takes the nearest tag of that name off the stack and [[/]] the last
    tag. The reader refuses a text in which a closing tag finds nothing
    to close. (The parameters of [@] tags are not read.) *)
Definition tag_start (c : codepoint) : bool :=
  (((97 <=? c) && (c <=? 122)) || (c =? 35) || (c =? 47) || (c =? 64))%N.

Fixpoint before_equals (s : str) : str :=
  match s with
  | [] => []
  | c :: rest => if (c =? 61)%N then [] else c :: before_equals rest
  end.

Definition script_normalize (name : str) : str :=
  ascii_lower (strip ascii_isspace name).

Fixpoint close_tag (name : str) (stack : list str) : option (list str) :=
  match stack with
  | [] => None
  | top :: below =>
      if str_eqb top name then Some below
      else match close_tag name below with
           | Some below' => Some (top :: below')
           | None => None
           end
  end.

(** The stack after a tag, [None] when the tag closes nothing. *)
Definition script_tag (body : str) (stack : list str) : option (list str) :=
  match before_equals body with
  | 47%N :: style =>
      if truthy (strip ascii_isspace style)
      then close_tag (script_normalize style) stack
      else match stack with
           | [] => None
           | _ :: below => Some below
           end
  | name => Some (script_normalize name :: stack)
  end.

Inductive scan_state : Type :=
| Outside
| Bracket (escaped : bool)
| Inside (escaped : bool) (body : str).

Fixpoint markup_scan (state : scan_state) (backslashes : bool)
    (stack : list str) (s : str) : bool :=
  match s with
  | [] => false
  | c :: rest =>
      let backslashes' := if (c =? 92)%N then negb backslashes else false in
      if (c =? 91)%N then markup_scan (Bracket backslashes) false stack rest
      else
        match state with
        | Outside => markup_scan Outside backslashes' stack rest
        | Bracket escaped =>
            if tag_start c
            then markup_scan (Inside escaped [c]) backslashes' stack rest
            else markup_scan Outside backslashes' stack rest
        | Inside escaped body =>
            if (c =? 93)%N then
              if escaped then markup_scan Outside false stack rest
              else match script_tag body stack with
                   | Some stack' => markup_scan Outside false stack' rest
                   | None => true
                   end
            else markup_scan (Inside escaped (body ++ [c])) backslashes' stack rest
        end
  end.

Definition script_markup_error (s : str) : bool :=
  markup_scan Outside false [] s.

(** An answer whose payload is no JSON text and closes a tag that was
    never opened. *)
Definition script_closing_tag : list GenerationResponse :=
  [ tool_answer (lit "[/INST]") ].


(* ===================================================================== *)
(** * The answer service behind a meter *)
(* ===================================================================== *)

(** Any answer service, with a meter in front of it: the world holds the
    number of calls made so far beside the state of the service, and
    every call adds one. *)
Definition metered (World : Type)
    (call : World -> list ChatCompletionMessageParam -> model_class ->
            GenerationResponse * World)
    (w : nat * World) (sent : list ChatCompletionMessageParam)
    (tool : model_class) : GenerationResponse * (nat * World) :=
  let (completion, w') := call (snd w) sent tool in
  (completion, (S (fst w), w')).

(** The reading of the meter. *)
Definition calls_made (World : Type) (st : State (nat * World)) : nat :=
  fst (world st).

(** The state without the meter. *)
Definition unmetered (World : Type) (st : State (nat * World)) : State World :=
  mkState (queue st) (file st) (console st) (snd (world st)).

(* ===================================================================== *)
(** * The recursions of a node *)
(* ===================================================================== *)

(** Following the spec's words: the recursions out of a node, in the
    positional order of its child slots. Slot [i] gives one when it holds
    a concrete child node and the part extracted for index [i] is not
    empty: the recursion on that child with that part. A slot that fails
    either condition gives none. *)
Fixpoint spec_recursions (res : WordResponse) (word : str) (i : nat)
    (children : list (option Node)) : list (Node * str) :=
  match children with
  | [] => []
  | child :: rest =>
      match child, get_part res word (Z.of_nat i) with
      | Some c, Ok part =>
          if truthy part
          then (c, part) :: spec_recursions res word (S i) rest
          else spec_recursions res word (S i) rest
      | _, _ => spec_recursions res word (S i) rest
      end
  end.

(** The calls [recurse child part], one after the other. *)
Definition in_sequence (World : Type) (recurse : Node -> str -> M World unit)
    (calls : list (Node * str)) : M World unit :=
  fold_right (fun call rest => recurse (fst call) (snd call) ;; rest)
    (ret tt) calls.

Section Metering.
Variable World : Type.

(** The computation makes at least [lo] and at most [hi] calls of the
    service. *)
Definition Calls (A : Type) (lo hi : nat) (m : M (nat * World) A) : Prop :=
  forall st,
    calls_made st + lo <= calls_made (snd (m st)) <= calls_made st + hi.

(** The computation against the metered service does what [m] does
    against the service itself: same outcome, same state but for the
    meter. *)
Definition Unmetered (A : Type) (m' : M (nat * World) A) (m : M World A)
  : Prop :=
  forall st,
    fst (m' st) = fst (m (unmetered st)) /\
    unmetered (snd (m' st)) = snd (m (unmetered st)).
End Metering.

(** The node of the authored tree that has three child slots, and the
    answers of the priming text to its question and to the questions of
    its children. *)
Definition morpheme_node : Node :=
  mkNode PrefixedSuffixedMorphemeResponse
    [ Some (mkNode MorphemeTypeResponse []);
      Some (mkNode MorphemeTypeResponse []);
      Some (mkNode MorphemeTypeResponse []) ].

Definition script_morphemes : list GenerationResponse :=
  [ tool_answer (object2 "prefix" (quoted [mim]) "suffix" (quoted [yudh; nun]));
    tool_answer (object1 "morpheme_type" (quoted (lit "performative")));
    tool_answer (object1 "morpheme_type" (quoted (lit "verbal ending")));
    tool_answer (object1 "morpheme_type" (quoted (lit "nominal ending"))) ].

(* ===================================================================== *)
(** * Slices *)
(* ===================================================================== *)

Lemma py_slice_from (A : Type) (s : list A) (k : nat) :
  py_slice s (Some (Z.of_nat k)) None = skipn k s.
Proof.
  unfold py_slice, adjust_index, py_len.
  destruct (Z.ltb_spec (Z.of_nat k) 0); [lia|].
  destruct (Z.ltb_spec (Z.of_nat (List.length s)) (Z.of_nat k)).
  - rewrite Z.leb_refl. symmetry. apply skipn_all2. lia.
  - destruct (Z.leb_spec (Z.of_nat (List.length s)) (Z.of_nat k)).
    + symmetry. apply skipn_all2. lia.
    + rewrite Nat2Z.id. apply firstn_all2. rewrite length_skipn. lia.
Qed.

Lemma py_slice_upto (A : Type) (s : list A) (k : nat) :
  k <= List.length s ->
  py_slice s None (Some (py_len s - Z.of_nat k)%Z)
  = firstn (List.length s - k) s.
Proof.
  intros Hk. unfold py_slice, adjust_index, py_len.
  destruct (Z.ltb_spec (Z.of_nat (List.length s) - Z.of_nat k) 0); [lia|].
  destruct (Z.ltb_spec (Z.of_nat (List.length s))
              (Z.of_nat (List.length s) - Z.of_nat k)); [lia|].
  destruct (Z.leb_spec (Z.of_nat (List.length s) - Z.of_nat k) 0).
  - replace (List.length s - k) with 0 by lia. reflexivity.
  - cbn [skipn]. f_equal. lia.
Qed.

Lemma py_slice_between (A : Type) (s : list A) (a b : nat) :
  a + b <= List.length s ->
  py_slice s (Some (Z.of_nat a)) (Some (py_len s - Z.of_nat b)%Z)
  = firstn (List.length s - b - a) (skipn a s).
Proof.
  intros Hab. unfold py_slice, adjust_index, py_len.
  destruct (Z.ltb_spec (Z.of_nat a) 0); [lia|].
  destruct (Z.ltb_spec (Z.of_nat (List.length s)) (Z.of_nat a)); [lia|].
  destruct (Z.ltb_spec (Z.of_nat (List.length s) - Z.of_nat b) 0); [lia|].
  destruct (Z.ltb_spec (Z.of_nat (List.length s))
              (Z.of_nat (List.length s) - Z.of_nat b)); [lia|].
  destruct (Z.leb_spec (Z.of_nat (List.length s) - Z.of_nat b) (Z.of_nat a)).
  - replace (List.length s - b - a) with 0 by lia. reflexivity.
  - rewrite Nat2Z.id. f_equal. lia.
Qed.

(** A slice never fails: it is a run of consecutive elements. *)
Lemma py_slice_is_run (A : Type) (s : list A) (start stop : option Z) :
  exists a n, py_slice s start stop = firstn n (skipn a s).
Proof.
  unfold py_slice.
  match goal with |- context [if ?c then _ else _] => destruct c end.
  - exists 0, 0. reflexivity.
  - eexists _, _. reflexivity.
Qed.

Lemma run_length (A : Type) (s : list A) (a n : nat) :
  List.length (firstn n (skipn a s)) <= List.length s.
Proof.
  rewrite length_firstn, length_skipn. lia.
Qed.

Lemma startswith_app (word p : str) :
  startswith word p = true <-> exists rest, word = p ++ rest.
Proof.
  revert word. induction p as [|a p IH]; intros word; cbn.
  - split; [intros _; exists word; reflexivity | reflexivity].
  - destruct word as [|b word].
    + split; [discriminate | intros [rest H]; discriminate].
    + rewrite andb_true_iff, N.eqb_eq, IH. split.
      * intros [-> [rest ->]]. exists rest. reflexivity.
      * intros [rest H]. injection H as -> ->. split; [reflexivity|].
        exists rest. reflexivity.
Qed.

Lemma endswith_app (word s : str) :
  endswith word s = true <-> exists front, word = front ++ s.
Proof.
  unfold endswith. rewrite startswith_app. split.
  - intros [rest H]. exists (rev rest).
    rewrite <- (rev_involutive word), H, rev_app_distr, rev_involutive.
    reflexivity.
  - intros [front ->]. exists (rev front). apply rev_app_distr.
Qed.

Lemma truthy_app_nil (s : str) : (if truthy s then s else []) = s.
Proof. destruct s; reflexivity. Qed.

Lemma skipn_prefix (A : Type) (p rest : list A) :
  skipn (List.length p) (p ++ rest) = rest.
Proof.
  rewrite skipn_app, skipn_all, Nat.sub_diag. reflexivity.
Qed.

Lemma firstn_front (A : Type) (front s : list A) :
  firstn (List.length (front ++ s) - List.length s) (front ++ s) = front.
Proof.
  rewrite length_app, Nat.add_sub, firstn_app, Nat.sub_diag, firstn_all.
  cbn. apply app_nil_r.
Qed.

(* ===================================================================== *)
(** * The part extractor *)
(* ===================================================================== *)


Lemma get_part_valid (self : WordResponse) (word : str) (index : Z) :
  valid_index (class_of self) index = true ->
  exists part, get_part self word index = Ok part.
Proof.
  destruct self; cbn; intros H; try (eexists; reflexivity);
    destruct index as [|[q|q|]|q]; cbn in H; try discriminate;
    try (eexists; reflexivity);
    destruct q; cbn in H; try discriminate; eexists; reflexivity.
Qed.

(** C9. Within the range of its class, [get_part] returns a string and
    never raises, whatever the fields are: absent, empty, not an affix of
    the word, or longer than the word. The string is empty, a field of
    the answer, or a run of consecutive characters of the word (so no
    longer than the word). *)
Theorem get_part_total (self : WordResponse) (word : str) (index : Z) :
  valid_index (class_of self) index = true ->
  exists part,
    get_part self word index = Ok part /\
    (part = [] \/ In (Some part) (field_values self) \/
     exists a n, part = firstn n (skipn a word) /\
                 List.length part <= List.length word).
Proof.
  intros Hvalid.
  assert (Hor : forall o : option str,
             or_else o [] = [] \/ o = Some (or_else o [])).
  { intros [[|c s]|]; cbn; auto. }
  assert (Hrun : forall start stop,
             exists a n, py_slice word start stop = firstn n (skipn a word) /\
                         List.length (py_slice word start stop)
                         <= List.length word).
  { intros start stop. destruct (py_slice_is_run word start stop) as (a & n & E).
    exists a, n. split; [exact E|]. rewrite E. apply run_length. }
  destruct self as [p|s|c|p s|m]; cbn in Hvalid |- *.
  - destruct index as [|[q|q|]|q]; try discriminate;
      try (destruct q; discriminate).
    + eexists; split; [reflexivity|]. destruct (Hor p) as [E|E]; cbn; auto.
    + eexists; split; [reflexivity|]. right; right. apply Hrun.
  - destruct index as [|[q|q|]|q]; try discriminate;
      try (destruct q; discriminate).
    + eexists; split; [reflexivity|]. right; right. apply Hrun.
    + eexists; split; [reflexivity|]. destruct (Hor s) as [E|E]; cbn; auto.
  - eexists; split; [reflexivity|]. cbn; auto.
  - destruct index as [|[q|q|]|q]; try discriminate;
      try (destruct q as [q|q|]; try discriminate;
           try (destruct q; discriminate)).
    + eexists; split; [reflexivity|]. destruct (Hor p) as [E|E]; cbn; auto.
    + eexists; split; [reflexivity|]. destruct (Hor s) as [E|E]; cbn; auto.
    + eexists; split; [reflexivity|]. right; right. apply Hrun.
  - eexists; split; [reflexivity|]. cbn; auto.
Qed.

(** A suffix longer than the word, at index 0. *)
Lemma get_part_total_witness :
  valid_index (class_of (mkSuffixedPronoun (Some (lit "abcd")))) 0 = true /\
  exists part,
    get_part (mkSuffixedPronoun (Some (lit "abcd"))) (lit "abc") 0 = Ok part /\
    (part = [] \/
     In (Some part) (field_values (mkSuffixedPronoun (Some (lit "abcd")))) \/
     exists a n, part = firstn n (skipn a (lit "abc")) /\
                 List.length part <= List.length (lit "abc")).
Proof.
  split; [reflexivity|].
  apply (get_part_total (mkSuffixedPronoun (Some (lit "abcd"))) (lit "abc") 0).
  reflexivity.
Defined.

(** C1, as stated, fails: the prefix field is whatever the answer holds,
    and a prefix "x" on the word "abc" gives the parts "x" and "bc". *)
Lemma concat_parts_not_word :
  spec_concat_parts (mkPrefixedAnalyticalWord (Some (lit "x"))) (lit "abc")
    (seq 0 2) = Ok (lit "xbc")
  /\ lit "xbc" <> lit "abc".
Proof.
  split; [reflexivity | discriminate].
Qed.

Lemma cuts_rebuild (self : WordResponse) (word : str) (n : nat) :
  part_count (class_of self) = Some n ->
  cuts self word = true ->
  spec_concat_parts self word (seq 0 n) = Ok word.
Proof.
  destruct self as [p|s|c|p s|m]; cbn [cuts part_count class_of];
    intros Hn; try discriminate; injection Hn as <-.
  - intros H. apply startswith_app in H. destruct H as [rest H].
    subst word. cbn. unfold py_len. rewrite py_slice_from.
    rewrite !truthy_app_nil, app_nil_r, skipn_prefix. reflexivity.
  - intros H. apply endswith_app in H. destruct H as [front H].
    subst word. cbn. rewrite !truthy_app_nil, app_nil_r.
    unfold py_len at 2. rewrite py_slice_upto.
    + rewrite firstn_front. reflexivity.
    + rewrite length_app. lia.
  - intros H. apply andb_true_iff in H. destruct H as [H Hlen].
    apply andb_true_iff in H. destruct H as [Hp Hs].
    apply Nat.leb_le in Hlen.
    apply startswith_app in Hp. destruct Hp as [rest Hp].
    apply endswith_app in Hs. destruct Hs as [front Hs].
    cbn. rewrite !truthy_app_nil, app_nil_r.
    unfold py_len at 1 3. rewrite py_slice_between by exact Hlen.
    set (pre := or_else p []) in *. set (suf := or_else s []) in *.
    set (k := List.length word - List.length suf - List.length pre).
    assert (Hrest : skipn (List.length pre) word = rest).
    { rewrite Hp. apply skipn_prefix. }
    assert (Hsuf : skipn (List.length word - List.length suf) word = suf).
    { rewrite Hs, length_app, Nat.add_sub. apply skipn_prefix. }
    assert (Hmid : skipn k rest = suf).
    { rewrite <- Hrest, skipn_skipn.
      replace (k + List.length pre) with (List.length word - List.length suf)
        by (unfold k; lia).
      exact Hsuf. }
    rewrite Hrest. f_equal.
    transitivity (pre ++ rest); [|symmetry; exact Hp].
    f_equal. pose proof (firstn_skipn k rest) as E. rewrite Hmid in E. exact E.
Qed.

Lemma rebuild_cuts (self : WordResponse) (word : str) (n : nat) :
  part_count (class_of self) = Some n ->
  spec_concat_parts self word (seq 0 n) = Ok word ->
  cuts self word = true.
Proof.
  destruct self as [p|s|c|p s|m]; cbn [cuts part_count class_of];
    intros Hn; try discriminate; injection Hn as <-; cbn;
    rewrite !truthy_app_nil, app_nil_r; intros H; injection H as H.
  - apply startswith_app. eexists. symmetry. exact H.
  - apply endswith_app. eexists. symmetry. exact H.
  - apply andb_true_iff. split; [apply andb_true_iff; split|].
    + apply startswith_app. eexists. symmetry. exact H.
    + apply endswith_app. eexists. rewrite app_assoc in H. symmetry. exact H.
    + apply Nat.leb_le. apply (f_equal (@List.length codepoint)) in H.
      rewrite !length_app in H. lia.
Qed.

(** C1, amended. The non-empty parts of a multi-part answer at the
    indices 0..n-1, concatenated in order, are the word exactly when the
    fields really cut the word: the prefix starts it, the suffix ends it,
    and the two do not overlap. A class that ignores the index returns its
    field at every index. *)
Theorem parts_rebuild_word (self : WordResponse) (word : str) :
  match part_count (class_of self) with
  | Some n =>
      spec_concat_parts self word (seq 0 n) = Ok word <-> cuts self word = true
  | None =>
      forall index,
      exists v, terminal_value self = Some v /\ get_part self word index = Ok v
  end.
Proof.
  destruct (part_count (class_of self)) as [n|] eqn:Hn.
  - split.
    + apply rebuild_cuts. exact Hn.
    + apply cuts_rebuild. exact Hn.
  - destruct self as [p|s|c|p s|m]; try discriminate; intros index.
    + exists c. split; reflexivity.
    + exists m. split; reflexivity.
Qed.

(** The spec's example: prefix [mim], suffix [yudh nun]. *)
Lemma parts_rebuild_word_witness :
  cuts (mkPrefixedSuffixedMorpheme (Some [mim]) (Some [yudh; nun]))
    word_mshkhyn = true /\
  spec_concat_parts (mkPrefixedSuffixedMorpheme (Some [mim]) (Some [yudh; nun]))
    word_mshkhyn (seq 0 3) = Ok word_mshkhyn.
Proof.
  split; [reflexivity|].
  destruct (parts_rebuild_word
              (mkPrefixedSuffixedMorpheme (Some [mim]) (Some [yudh; nun]))
              word_mshkhyn) as [_ H].
  apply H. reflexivity.
Defined.

(* ===================================================================== *)
(** * Optional fields *)
(* ===================================================================== *)

(** C6, as stated, fails in its first part: the optional fields are
    declared without a default value, so a payload that leaves one out is
    rejected rather than read as an absent field. *)
Lemma optional_field_not_defaulted :
  model_validate PrefixedAnalyticalWordResponse (JObject [])
  = Raise ValidationError
  /\ model_validate PrefixedAnalyticalWordResponse (JObject [])
     <> Ok (mkPrefixedAnalyticalWord None).
Proof.
  split; [reflexivity | discriminate].
Qed.

(** C6, amended. An optional field ([prefix], [suffix]) has no default: a
    payload must carry it, as a string or as null. A null field is held as
    [None]; it renders as U+2205 in [__str__] and as the empty string in
    [get_part], never as the token "None". *)
Theorem absent_field_rendering (word : str) :
  (* no default *)
  (forall members,
     member (lit "prefix") members = None ->
     model_validate PrefixedAnalyticalWordResponse (JObject members)
     = Raise ValidationError) /\
  (forall members,
     member (lit "suffix") members = None ->
     model_validate SuffixedPronounResponse (JObject members)
     = Raise ValidationError) /\
  (forall members,
     member (lit "prefix") members = None \/
     member (lit "suffix") members = None ->
     model_validate PrefixedSuffixedMorphemeResponse (JObject members)
     = Raise ValidationError) /\
  (* null is accepted and held as None *)
  model_validate PrefixedAnalyticalWordResponse
    (JObject [(lit "prefix", JNull)]) = Ok (mkPrefixedAnalyticalWord None) /\
  model_validate SuffixedPronounResponse
    (JObject [(lit "suffix", JNull)]) = Ok (mkSuffixedPronoun None) /\
  model_validate PrefixedSuffixedMorphemeResponse
    (JObject [(lit "prefix", JNull); (lit "suffix", JNull)])
  = Ok (mkPrefixedSuffixedMorpheme None None) /\
  (* display *)
  __str__ (mkPrefixedAnalyticalWord None) = lit "Prefix: " ++ empty /\
  __str__ (mkSuffixedPronoun None) = lit "Suffix: " ++ empty /\
  (forall s, __str__ (mkPrefixedSuffixedMorpheme None s)
             = lit "Prefix: " ++ empty ++ lit ", Suffix: " ++ or_else s empty) /\
  (forall p, __str__ (mkPrefixedSuffixedMorpheme p None)
             = lit "Prefix: " ++ or_else p empty ++ lit ", Suffix: " ++ empty) /\
  (* extraction *)
  get_part (mkPrefixedAnalyticalWord None) word 0 = Ok [] /\
  get_part (mkSuffixedPronoun None) word 1 = Ok [] /\
  (forall s, get_part (mkPrefixedSuffixedMorpheme None s) word 0 = Ok []) /\
  (forall p, get_part (mkPrefixedSuffixedMorpheme p None) word 2 = Ok []) /\
  (* no null token *)
  __str__ (mkPrefixedAnalyticalWord None) <> lit "Prefix: None" /\
  __str__ (mkSuffixedPronoun None) <> lit "Suffix: None" /\
  (forall s, startswith (__str__ (mkPrefixedSuffixedMorpheme None s))
               (lit "Prefix: None") = false) /\
  (forall p, endswith (__str__ (mkPrefixedSuffixedMorpheme p None))
               (lit "Suffix: None") = false).
Proof.
  repeat match goal with |- _ /\ _ => split end;
    try reflexivity; try discriminate.
  - intros members H. unfold model_validate, required. rewrite H.
    destruct (no_extra _ _); reflexivity.
  - intros members H. unfold model_validate, required. rewrite H.
    destruct (no_extra _ _); reflexivity.
  - intros members H. unfold model_validate, required.
    destruct (no_extra _ _); [|reflexivity].
    destruct H as [H|H]; rewrite H.
    + reflexivity.
    + destruct (member (lit "prefix") members) as [v|]; [|reflexivity].
      destruct (as_optional_str v); reflexivity.
  - intros p. unfold endswith. cbn [__str__].
    rewrite !rev_app_distr. reflexivity.
Qed.

Lemma absent_field_rendering_witness :
  member (lit "prefix") [(lit "suffix", JString (lit "a"))] = None /\
  model_validate PrefixedSuffixedMorphemeResponse
    (JObject [(lit "suffix", JString (lit "a"))]) = Raise ValidationError.
Proof.
  split; [reflexivity|].
  apply (absent_field_rendering []). left. reflexivity.
Defined.

(* ===================================================================== *)
(** * Validation *)
(* ===================================================================== *)

Lemma required_raises (A : Type) (key : str) (conv : json -> result A)
    (members : list (str * json)) (e : exn) :
  (forall v e', conv v = Raise e' -> e' = ValidationError) ->
  required key conv members = Raise e -> e = ValidationError.
Proof.
  intros Hconv. unfold required. destruct (member key members) as [v|].
  - apply Hconv.
  - intros H. injection H as <-. reflexivity.
Qed.



Lemma as_list_str_raises (v : json) (e : exn) :
  as_list_str v = Raise e -> e = ValidationError.
Proof.
  destruct v as [| | | |items|]; cbn; try (intros H; inversion H; reflexivity).
  destruct items as [|v items]; cbn; [discriminate|].
  destruct (as_str v); [destruct (as_str_items items)|];
    intros H; inversion H; reflexivity.
Qed.

(** A validated answer is an instance of the class asked for. *)
Lemma model_validate_class (t : response_type) (v : json) (res : WordResponse) :
  model_validate t v = Ok res -> class_of res = t.
Proof.
  unfold model_validate. destruct v; try discriminate.
  destruct (no_extra _ _); [|discriminate].
  destruct t;
    repeat match goal with
           | |- context [required ?k ?c ?m] => destruct (required k c m)
           end;
    intros H; inversion H; reflexivity.
Qed.


Lemma model_validate_words_raises (v : json) (e : exn) :
  model_validate_words v = Raise e -> e = ValidationError.
Proof.
  unfold model_validate_words.
  destruct v; try (intros H; inversion H; reflexivity).
  destruct (no_extra _ _); [|intros H; inversion H; reflexivity].
  apply required_raises, as_list_str_raises.
Qed.

(* ===================================================================== *)
(** * The tree *)
(* ===================================================================== *)

(** Induction on a tree, with the hypothesis for every concrete child. *)
Lemma Node_induction (P : Node -> Prop) :
  (forall t children,
     (forall c, In (Some c) children -> P c) -> P (mkNode t children)) ->
  forall n, P n.
Proof.
  intros step. fix IH 1. intros [t children]. apply step.
  induction children as [|[c|] rest IHrest]; intros c' Hin.
  - destruct Hin.
  - destruct Hin as [E|Hin].
    + injection E as <-. apply IH.
    + apply IHrest, Hin.
  - destruct Hin as [E|Hin]; [discriminate|]. apply IHrest, Hin.
Qed.

Lemma height_child (t : response_type) (children : list (option Node))
    (c : Node) :
  In (Some c) children -> S (height c) <= height (mkNode t children).
Proof.
  cbn [height]. induction children as [|[c'|] rest IH]; intros Hin.
  - destruct Hin.
  - destruct Hin as [E|Hin].
    + injection E as ->. apply Nat.le_max_l.
    + etransitivity; [apply IH, Hin | apply Nat.le_max_r].
  - destruct Hin as [E|Hin]; [discriminate|]. apply IH, Hin.
Qed.


Lemma well_shaped_slots (t : response_type) (children : list (option Node)) :
  well_shaped (mkNode t children) = true ->
  forall i, i < List.length children -> valid_index t (Z.of_nat i) = true.
Proof.
  cbn [well_shaped]. intros H. apply andb_true_iff in H. destruct H as [H _].
  intros i Hi. destruct t; cbn in H |- *; try reflexivity;
    apply Nat.leb_le in H; apply andb_true_iff; split;
    try (apply Z.leb_le; lia); apply Z.ltb_lt; lia.
Qed.

(* ===================================================================== *)
(** * Effects of the walker *)
(* ===================================================================== *)

Section Facts.
Variable World : Type.
Variable markup_error : str -> bool.
Variable Generation_call :
  World -> list ChatCompletionMessageParam -> model_class ->
  GenerationResponse * World.
Variable json_loads : str -> option json.

Local Abbreviation walk := (parse_word markup_error Generation_call json_loads).

(** What a call of the walker does after its word line. *)
Local Abbreviation walk_rest t children word indent :=
  (on_queue (fun q => register_user_message q (get_question t word)) ;;
   response <- request markup_error Generation_call (WordClass t) ;;
   res <- try_except (lift (model_validate_json json_loads t response))
            (fun e => print markup_error response ;; print markup_error invalid_json ;; raise e) ;;
   file_write (answer_line indent res) ;;
   for_children (fun child word_part => walk child word_part (indent + 1))
     res word children 0).

Lemma extends_refl (P : str -> Prop) (st : State World) : extends P st st.
Proof.
  split; [|split].
  - exists []. symmetry. apply app_nil_r.
  - exists []. split; [symmetry; apply app_nil_r | constructor].
  - exists []. symmetry. apply app_nil_r.
Qed.

Lemma extends_trans (P : str -> Prop) (st1 st2 st3 : State World) :
  extends P st1 st2 -> extends P st2 st3 -> extends P st1 st3.
Proof.
  intros ((m1 & Hm1) & (f1 & Hf1 & HP1) & (c1 & Hc1))
         ((m2 & Hm2) & (f2 & Hf2 & HP2) & (c2 & Hc2)).
  split; [|split].
  - exists (m1 ++ m2). rewrite Hm2, Hm1. symmetry. apply app_assoc.
  - exists (f1 ++ f2). split.
    + rewrite Hf2, Hf1. symmetry. apply app_assoc.
    + apply Forall_app. split; assumption.
  - exists (c1 ++ c2). rewrite Hc2, Hc1. symmetry. apply app_assoc.
Qed.

Lemma extends_weaken (P Q : str -> Prop) (st st' : State World) :
  (forall chunk, P chunk -> Q chunk) -> extends P st st' -> extends Q st st'.
Proof.
  intros HPQ (Hm & (f & Hf & HP) & Hc). split; [exact Hm|split; [|exact Hc]].
  exists f. split; [exact Hf|]. eapply Forall_impl; [exact HPQ | exact HP].
Qed.

Lemma Extends_weaken (A : Type) (P Q : str -> Prop) (m : M World A) :
  (forall chunk, P chunk -> Q chunk) -> Extends P m -> Extends Q m.
Proof. intros HPQ H st. eapply extends_weaken; [exact HPQ | apply H]. Qed.

Lemma Extends_ret (A : Type) (P : str -> Prop) (a : A) :
  Extends P (ret (World := World) a).
Proof. intros st. apply extends_refl. Qed.

Lemma Extends_raise (A : Type) (P : str -> Prop) (e : exn) :
  Extends P (raise (World := World) (A := A) e).
Proof. intros st. apply extends_refl. Qed.

Lemma Extends_lift (A : Type) (P : str -> Prop) (r : result A) :
  Extends P (lift (World := World) r).
Proof. intros st. apply extends_refl. Qed.

Lemma Extends_bind (A B : Type) (P : str -> Prop) (m : M World A)
    (k : A -> M World B) :
  Extends P m -> (forall a, Extends P (k a)) -> Extends P (bind m k).
Proof.
  intros Hm Hk st. unfold bind. specialize (Hm st).
  destruct (m st) as [[a|e] st1]; cbn in Hm |- *.
  - eapply extends_trans; [exact Hm | apply Hk].
  - exact Hm.
Qed.

Lemma Extends_try_except (A : Type) (P : str -> Prop) (m : M World A)
    (handler : exn -> M World A) :
  Extends P m -> (forall e, Extends P (handler e)) ->
  Extends P (try_except m handler).
Proof.
  intros Hm Hh st. unfold try_except. specialize (Hm st).
  destruct (m st) as [[a|e] st1]; cbn in Hm |- *.
  - exact Hm.
  - eapply extends_trans; [exact Hm | apply Hh].
Qed.

Lemma Extends_file_write (P : str -> Prop) (s : str) :
  P s -> Extends P (file_write (World := World) s).
Proof.
  intros Hs st. split; [|split]; cbn.
  - exists []. symmetry. apply app_nil_r.
  - exists [s]. split; [reflexivity | repeat constructor; exact Hs].
  - exists []. symmetry. apply app_nil_r.
Qed.

Lemma Extends_print (P : str -> Prop) (s : str) :
  Extends P (print (World := World) markup_error s).
Proof.
  intros st. unfold print. destruct (markup_error s); [apply extends_refl|].
  split; [|split]; cbn.
  - exists []. symmetry. apply app_nil_r.
  - exists []. split; [symmetry; apply app_nil_r | constructor].
  - exists [s]. reflexivity.
Qed.

Lemma Extends_on_queue (P : str -> Prop) (f : MessageQueue -> MessageQueue) :
  (forall q, exists entries, messages (f q) = messages q ++ entries) ->
  Extends P (on_queue (World := World) f).
Proof.
  intros Hf st. split; [|split]; cbn.
  - apply Hf.
  - exists []. split; [symmetry; apply app_nil_r | constructor].
  - exists []. symmetry. apply app_nil_r.
Qed.

Lemma Extends_register_response (P : str -> Prop)
    (completion : GenerationResponse) :
  Extends P (register_response (World := World) markup_error completion).
Proof.
  unfold register_response.
  destruct (status_code completion =? HTTP_OK)%Z.
  - destruct (choices completion) as [|message rest].
    + apply Extends_raise.
    + apply Extends_bind.
      * apply Extends_on_queue. intros q. eexists. reflexivity.
      * intros _. destruct (choice_tool_calls message) as [[|call calls]|].
        -- apply Extends_raise.
        -- apply Extends_bind.
           ++ apply Extends_on_queue. intros q. eexists. reflexivity.
           ++ intros _. apply Extends_on_queue. intros q. exists [].
              symmetry. apply app_nil_r.
        -- apply Extends_raise.
  - apply Extends_bind.
    + apply Extends_print.
    + intros _. apply Extends_on_queue. intros q. exists [].
      symmetry. apply app_nil_r.
Qed.

Lemma Extends_request (P : str -> Prop) (tool : model_class) :
  Extends P (request markup_error Generation_call tool).
Proof.
  intros st. unfold request.
  destruct (Generation_call (world st) (get_messages (queue st)) tool)
    as [completion w].
  assert (H : Extends P
                (register_response (World := World) markup_error completion ;;
                 (fun st' => (Ok (argument (queue st')), st')))).
  { apply Extends_bind; [apply Extends_register_response|].
    intros _ st'. apply extends_refl. }
  exact (H (mkState (queue st) (file st) (console st) w)).
Qed.

Lemma Extends_for_children (P : str -> Prop)
    (recurse : Node -> str -> M World unit) (res : WordResponse)
    (word : str) (children : list (option Node)) (i : nat) :
  (forall c part, In (Some c) children -> Extends P (recurse c part)) ->
  Extends P (for_children recurse res word children i).
Proof.
  revert i. induction children as [|child rest IH]; intros i H;
    cbn [for_children].
  - apply Extends_ret.
  - apply Extends_bind.
    + unfold visit_child. apply Extends_bind; [apply Extends_lift|].
      intros part. destruct child as [c|]; [|apply Extends_ret].
      destruct (truthy part); [|apply Extends_ret].
      apply H. left. reflexivity.
    + intros _. apply IH. intros c part Hin. apply H. right. exact Hin.
Qed.

Lemma parse_word_eq (t : response_type) (children : list (option Node))
    (word : str) (indent : nat) :
  walk (mkNode t children) word indent
  = (file_write (word_line indent word) ;; walk_rest t children word indent).
Proof. reflexivity. Qed.

Lemma Extends_walk_rest (P : str -> Prop) (t : response_type)
    (children : list (option Node)) (word : str) (indent : nat) :
  (forall res, P (answer_line indent res)) ->
  (forall c part, In (Some c) children ->
                  Extends P (walk c part (indent + 1))) ->
  Extends P (walk_rest t children word indent).
Proof.
  intros Hline Hchildren. apply Extends_bind.
  { apply Extends_on_queue. intros q. eexists. reflexivity. }
  intros _. apply Extends_bind; [apply Extends_request|].
  intros response. apply Extends_bind.
  { apply Extends_try_except; [apply Extends_lift|].
    intros e. apply Extends_bind; [apply Extends_print|].
    intros _. apply Extends_bind; [apply Extends_print|].
    intros _. apply Extends_raise. }
  intros res. apply Extends_bind; [apply Extends_file_write, Hline|].
  intros _. apply Extends_for_children. exact Hchildren.
Qed.

(** The walker only appends: to the conversation, to the file, to the
    console. Every chunk it writes is a word line or an answer line of a
    call whose depth lies between its own and its own plus the height
    of its node. *)
Lemma Extends_parse_word (node : Node) :
  forall word indent,
    Extends (trace_chunk indent (indent + height node))
      (walk node word indent).
Proof.
  induction node as [t children IH] using Node_induction.
  intros word indent. rewrite parse_word_eq.
  apply Extends_bind.
  { apply Extends_file_write. exists indent. split; [lia|].
    left. exists word. reflexivity. }
  intros _. apply Extends_walk_rest.
  - intros res. exists indent. split; [lia|]. right. exists res. reflexivity.
  - intros c part Hin. eapply Extends_weaken; [|apply (IH c Hin)].
    intros chunk (k & Hk & Hchunk). exists k. split; [|exact Hchunk].
    pose proof (height_child t children c Hin). lia.
Qed.

(** A call of the walker starts by writing its word line. *)
Lemma parse_word_first_chunk (node : Node) (word : str) (indent : nat)
    (st : State World) :
  exists chunks,
    file (snd (walk node word indent st))
    = file st ++ word_line indent word :: chunks.
Proof.
  destruct node as [t children]. rewrite parse_word_eq.
  assert (H : Extends (fun _ => True) (walk_rest t children word indent)).
  { apply Extends_walk_rest; [intros; exact I|].
    intros c part _. eapply Extends_weaken; [|apply Extends_parse_word].
    intros; exact I. }
  unfold bind at 1. cbn [file_write].
  match goal with
  | |- context [walk_rest t children word indent ?st1] =>
      destruct (H st1) as (_ & (chunks & Hf & _) & _)
  end.
  exists chunks. rewrite Hf. cbn [file]. rewrite <- app_assoc. reflexivity.
Qed.

(** ** Which exceptions can come out *)







(** The handler of a payload that does not validate: it prints the
    payload, then its warning, and raises the error again, unless the
    console refuses one of the two texts. *)
Lemma invalid_handler_eq (A : Type) (response : str) (e : exn)
    (st : State World) :
  (print markup_error response ;; print markup_error invalid_json ;;
   raise (A := A) e) st
  = if markup_error response then (Raise MarkupError, st)
    else if markup_error invalid_json then
      (Raise MarkupError,
       mkState (queue st) (file st) (console st ++ [response]) (world st))
    else
      (Raise e,
       mkState (queue st) (file st) (console st ++ [response; invalid_json])
         (world st)).
Proof.
  unfold bind, print, raise.
  destruct (markup_error response); [reflexivity|].
  cbn [queue file console world].
  destruct (markup_error invalid_json); [reflexivity|].
  cbn [queue file console world]. rewrite <- app_assoc. reflexivity.
Qed.






(** ** The driver *)



Lemma parse_sentence_word_eq (tree : Node) (word : str) (st : State World) :
  parse_sentence_word markup_error Generation_call json_loads tree word st
  = match walk tree word 0 st with
    | (Ok _, st') =>
        (Ok tt, mkState (queue st') (file st' ++ [nl]) (console st') (world st'))
    | (Raise _, st') =>
        if markup_error parsing_failed then (Raise MarkupError, st')
        else (Ok tt, mkState (queue st') (file st' ++ [nl])
                       (console st' ++ [parsing_failed]) (world st'))
    end.
Proof.
  unfold parse_sentence_word, bind, try_except, print.
  destruct (walk tree word 0 st) as [[[]|e] st']; [reflexivity|].
  destruct (markup_error parsing_failed); reflexivity.
Qed.

Lemma parse_sentence_word_ok (tree : Node) (word : str) (st : State World) :
  markup_error parsing_failed = false ->
  fst (parse_sentence_word markup_error Generation_call json_loads tree word st)
  = Ok tt.
Proof.
  intros Hfailed. rewrite parse_sentence_word_eq, Hfailed.
  destruct (walk tree word 0 st) as [[[]|e] st']; reflexivity.
Qed.


Lemma for_words_cons (tree : Node) (word : str) (rest : list str)
    (st : State World) :
  markup_error parsing_failed = false ->
  for_words markup_error Generation_call json_loads tree (word :: rest) st
  = for_words markup_error Generation_call json_loads tree rest
      (snd (parse_sentence_word markup_error Generation_call json_loads tree word st)).
Proof.
  intros Hfailed.
  cbn [for_words]. unfold bind. rewrite parse_sentence_word_eq, Hfailed.
  destruct (walk tree word 0 st) as [[[]|e] st']; reflexivity.
Qed.

(** ** One request *)

Lemma request_eq (tool : model_class) (st : State World)
    (completion : GenerationResponse) (w : World) :
  Generation_call (world st) (get_messages (queue st)) tool = (completion, w) ->
  request markup_error Generation_call tool st
  = (register_response markup_error completion ;;
     (fun st' => (Ok (argument (queue st')), st')))
      (mkState (queue st) (file st) (console st) w).
Proof. intros H. unfold request. rewrite H. reflexivity. Qed.



(** [register_response] leaves the file and the service alone. *)
Lemma register_response_keeps (completion : GenerationResponse)
    (st : State World) :
  file (snd (register_response markup_error completion st)) = file st /\
  world (snd (register_response markup_error completion st)) = world st.
Proof.
  unfold register_response.
  destruct (status_code completion =? HTTP_OK)%Z.
  - destruct (choices completion) as [|message rest]; [split; reflexivity|].
    unfold bind, on_queue. cbn.
    destruct (choice_tool_calls message) as [[|call calls]|];
      split; reflexivity.
  - unfold bind, print.
    destruct (markup_error (request_error completion)); split; reflexivity.
Qed.

Lemma request_keeps_file (tool : model_class) (st : State World) :
  file (snd (request markup_error Generation_call tool st)) = file st.
Proof.
  unfold request.
  destruct (Generation_call (world st) (get_messages (queue st)) tool)
    as [completion w].
  unfold bind.
  pose proof (register_response_keeps completion
                (mkState (queue st) (file st) (console st) w)) as [Hf _].
  destruct (register_response markup_error completion
              (mkState (queue st) (file st) (console st) w)) as [[[]|e] st'];
    exact Hf.
Qed.

(** A walk up to the validation of its answer. *)
Lemma parse_word_asked (t : response_type) (children : list (option Node))
    (word : str) (indent : nat) (st st2 : State World)
    (completion : GenerationResponse) (w : World) :
  Generation_call (world st)
    (get_messages (register_user_message (queue st) (get_question t word)))
    (WordClass t) = (completion, w) ->
  register_response markup_error completion
    (mkState (register_user_message (queue st) (get_question t word))
       (file st ++ [word_line indent word]) (console st) w) = (Ok tt, st2) ->
  walk (mkNode t children) word indent st
  = (res <- try_except
              (lift (model_validate_json json_loads t (argument (queue st2))))
              (fun e => print markup_error (argument (queue st2)) ;;
                        print markup_error invalid_json ;; raise e) ;;
     file_write (answer_line indent res) ;;
     for_children (fun child word_part => walk child word_part (indent + 1))
       res word children 0) st2.
Proof.
  intros Hcall Hreg. rewrite parse_word_eq.
  unfold bind at 1 2 3. unfold file_write at 1. unfold on_queue at 1.
  cbn [queue file console world].
  erewrite request_eq by (cbn [queue file console world]; exact Hcall).
  cbn [queue file console world]. unfold bind at 1. rewrite Hreg.
  reflexivity.
Qed.

(** A walk whose answer does not validate. *)
Lemma parse_word_invalid (t : response_type) (children : list (option Node))
    (word : str) (indent : nat) (st st2 : State World)
    (completion : GenerationResponse) (w : World) (e : exn) :
  Generation_call (world st)
    (get_messages (register_user_message (queue st) (get_question t word)))
    (WordClass t) = (completion, w) ->
  register_response markup_error completion
    (mkState (register_user_message (queue st) (get_question t word))
       (file st ++ [word_line indent word]) (console st) w) = (Ok tt, st2) ->
  model_validate_json json_loads t (argument (queue st2)) = Raise e ->
  walk (mkNode t children) word indent st
  = if markup_error (argument (queue st2)) then (Raise MarkupError, st2)
    else if markup_error invalid_json then
      (Raise MarkupError,
       mkState (queue st2) (file st2)
         (console st2 ++ [argument (queue st2)]) (world st2))
    else
      (Raise e,
       mkState (queue st2) (file st2)
         (console st2 ++ [argument (queue st2); invalid_json]) (world st2)).
Proof.
  intros Hcall Hreg Hval.
  rewrite (parse_word_asked children word indent st Hcall Hreg).
  unfold bind at 1. unfold try_except, lift. rewrite Hval.
  rewrite invalid_handler_eq.
  destruct (markup_error (argument (queue st2))); [reflexivity|].
  destruct (markup_error invalid_json); reflexivity.
Qed.

(** A walk whose answer validates: it writes the answer line and runs
    the loop over the child slots of its node, one level deeper. *)
Lemma parse_word_valid (t : response_type) (children : list (option Node))
    (word : str) (indent : nat) (st st2 : State World)
    (completion : GenerationResponse) (w : World) (res : WordResponse) :
  Generation_call (world st)
    (get_messages (register_user_message (queue st) (get_question t word)))
    (WordClass t) = (completion, w) ->
  register_response markup_error completion
    (mkState (register_user_message (queue st) (get_question t word))
       (file st ++ [word_line indent word]) (console st) w) = (Ok tt, st2) ->
  model_validate_json json_loads t (argument (queue st2)) = Ok res ->
  walk (mkNode t children) word indent st
  = for_children (fun child word_part => walk child word_part (indent + 1))
      res word children 0
      (mkState (queue st2) (file st2 ++ [answer_line indent res])
         (console st2) (world st2)).
Proof.
  intros Hcall Hreg Hval.
  rewrite (parse_word_asked children word indent st Hcall Hreg).
  unfold bind at 1. unfold try_except, lift. rewrite Hval.
  reflexivity.
Qed.

(** ** The loop over the child slots *)

Lemma for_children_enumerate (recurse : Node -> str -> M World unit)
    (res : WordResponse) (word : str) (children : list (option Node))
    (i : nat) :
  for_children recurse res word children i
  = fold_right
      (fun slot rest => visit_child recurse res word (fst slot) (snd slot) ;; rest)
      (ret tt) (enumerate i children).
Proof.
  revert i. induction children as [|child rest IH]; intros i.
  - reflexivity.
  - cbn [for_children enumerate fold_right fst snd]. rewrite IH. reflexivity.
Qed.

(** The loop over the child slots of a node whose slots all have their
    index in range is the sequence of the recursions the spec describes,
    in the order of the slots. *)
Lemma for_children_spec (recurse : Node -> str -> M World unit)
    (res : WordResponse) (word : str) (children : list (option Node))
    (i : nat) (st : State World) :
  (forall j, i <= j < i + List.length children ->
             valid_index (class_of res) (Z.of_nat j) = true) ->
  for_children recurse res word children i st
  = in_sequence recurse (spec_recursions res word i children) st.
Proof.
  revert i st. induction children as [|child rest IH]; intros i st Hvalid.
  - reflexivity.
  - cbn [for_children spec_recursions].
    destruct (get_part_valid res word (Z.of_nat i)) as [part Hpart].
    { apply Hvalid. cbn [List.length]. lia. }
    assert (Hrest : forall st',
               for_children recurse res word rest (S i) st'
               = in_sequence recurse (spec_recursions res word (S i) rest) st').
    { intros st'. apply IH. intros j Hj. apply Hvalid. cbn [List.length]. lia. }
    unfold bind at 1. unfold visit_child, bind at 1, lift. rewrite Hpart.
    destruct child as [c|]; [destruct (truthy part)|].
    + change (in_sequence recurse
                ((c, part) :: spec_recursions res word (S i) rest) st)
        with ((recurse c part ;;
               in_sequence recurse (spec_recursions res word (S i) rest)) st).
      unfold bind.
      destruct (recurse c part st) as [[[]|e] st1]; [apply Hrest | reflexivity].
    + apply Hrest.
    + apply Hrest.
Qed.

Lemma model_validate_json_class (t : response_type) (payload : str)
    (res : WordResponse) :
  model_validate_json json_loads t payload = Ok res -> class_of res = t.
Proof.
  unfold model_validate_json.
  destruct (json_loads payload) as [v|]; [|discriminate].
  apply model_validate_class.
Qed.

(** A walk whose answer validates, on a node with no more slots than its
    class has parts: after the answer line come the recursions of the
    node, in the order of the slots, and nothing else. *)
Lemma parse_word_spec (t : response_type) (children : list (option Node))
    (word : str) (indent : nat) (st st2 : State World)
    (completion : GenerationResponse) (w : World) (res : WordResponse) :
  well_shaped (mkNode t children) = true ->
  Generation_call (world st)
    (get_messages (register_user_message (queue st) (get_question t word)))
    (WordClass t) = (completion, w) ->
  register_response markup_error completion
    (mkState (register_user_message (queue st) (get_question t word))
       (file st ++ [word_line indent word]) (console st) w) = (Ok tt, st2) ->
  model_validate_json json_loads t (argument (queue st2)) = Ok res ->
  walk (mkNode t children) word indent st
  = in_sequence (fun child part => walk child part (indent + 1))
      (spec_recursions res word 0 children)
      (mkState (queue st2) (file st2 ++ [answer_line indent res])
         (console st2) (world st2)).
Proof.
  intros Hshape Hcall Hreg Hval.
  rewrite (parse_word_valid children word indent st Hcall Hreg Hval).
  apply for_children_spec. intros j Hj.
  rewrite (model_validate_json_class _ _ Hval).
  apply (well_shaped_slots t children Hshape). lia.
Qed.

(** C3. After a validated answer the walker writes the answer line and
    runs the loop over the child slots of its node, slot [i] with index
    [i], the recursion being the walker itself one level deeper. At a
    slot whose index is in the range of the answer's class, the walker
    recurses exactly when the slot holds a node and the part is not
    empty: then the iteration is the recursive call on the part;
    otherwise it returns without an error and leaves the state as it is.
    So on a node with no more slots than its class has parts, as every
    node of the authored tree, the walk is the sequence of the
    recursions the spec describes, in the order of the slots.
    For a null prefix on the word of the example, part 0 is empty and
    part 1 is the word, and the walk of the root goes on as the walk of
    child 1 on the whole word. *)
Theorem walker_recursion_condition :
  (forall t children word indent st st2 completion w res,
     Generation_call (world st)
       (get_messages (register_user_message (queue st) (get_question t word)))
       (WordClass t) = (completion, w) ->
     register_response markup_error completion
       (mkState (register_user_message (queue st) (get_question t word))
          (file st ++ [word_line indent word]) (console st) w) = (Ok tt, st2) ->
     model_validate_json json_loads t (argument (queue st2)) = Ok res ->
     walk (mkNode t children) word indent st
     = fold_right
         (fun slot rest =>
            visit_child (fun c p => walk c p (indent + 1)) res word
              (fst slot) (snd slot) ;; rest)
         (ret tt) (enumerate 0 children)
         (mkState (queue st2) (file st2 ++ [answer_line indent res])
            (console st2) (world st2)) /\
     (well_shaped (mkNode t children) = true ->
      walk (mkNode t children) word indent st
      = in_sequence (fun c p => walk c p (indent + 1))
          (spec_recursions res word 0 children)
          (mkState (queue st2) (file st2 ++ [answer_line indent res])
             (console st2) (world st2)))) /\
  (forall (res : WordResponse) (word : str) (indent i : nat)
          (child : option Node) (st : State World),
     valid_index (class_of res) (Z.of_nat i) = true ->
     exists part,
       get_part res word (Z.of_nat i) = Ok part /\
       (forall c, child = Some c -> part <> [] ->
          visit_child (fun c' p => walk c' p (indent + 1)) res word i child st
          = walk c part (indent + 1) st) /\
       (child = None \/ part = [] ->
          visit_child (fun c' p => walk c' p (indent + 1)) res word i child st
          = (Ok tt, st)) /\
       (file (snd (visit_child (fun c' p => walk c' p (indent + 1))
                     res word i child st)) <> file st
        <-> child <> None /\ part <> [])) /\
  (well_shaped response_tree = true /\
   forall t children res i,
     well_shaped (mkNode t children) = true -> class_of res = t ->
     i < List.length children ->
     valid_index (class_of res) (Z.of_nat i) = true) /\
  get_part (mkPrefixedAnalyticalWord None) word_mshkhyn 0 = Ok [] /\
  get_part (mkPrefixedAnalyticalWord None) word_mshkhyn 1 = Ok word_mshkhyn /\
  nth_error (node_children response_tree) 0 = Some None /\
  (forall c indent st st2 completion w,
     nth_error (node_children response_tree) 1 = Some (Some c) ->
     Generation_call (world st)
       (get_messages
          (register_user_message (queue st)
             (get_question PrefixedAnalyticalWordResponse word_mshkhyn)))
       (WordClass PrefixedAnalyticalWordResponse) = (completion, w) ->
     register_response markup_error completion
       (mkState
          (register_user_message (queue st)
             (get_question PrefixedAnalyticalWordResponse word_mshkhyn))
          (file st ++ [word_line indent word_mshkhyn]) (console st) w)
     = (Ok tt, st2) ->
     model_validate_json json_loads PrefixedAnalyticalWordResponse
       (argument (queue st2)) = Ok (mkPrefixedAnalyticalWord None) ->
     walk response_tree word_mshkhyn indent st
     = walk c word_mshkhyn (indent + 1)
         (mkState (queue st2)
            (file st2 ++ [answer_line indent (mkPrefixedAnalyticalWord None)])
            (console st2) (world st2))).
Proof.
  split; [|split; [|split; [split|split; [|split; [|split]]]]];
    try reflexivity.
  3: { intros t children res i Hshape Hclass Hi. rewrite Hclass.
       exact (well_shaped_slots t children Hshape Hi). }
  - intros t children word indent st st2 completion w res Hcall Hreg Hval.
    split.
    + rewrite (parse_word_valid children word indent st Hcall Hreg Hval).
      rewrite for_children_enumerate. reflexivity.
    + intros Hshape.
      exact (parse_word_spec children word indent st Hshape Hcall Hreg Hval).
  - intros res word indent i child st Hvalid.
    destruct (get_part_valid res word (Z.of_nat i) Hvalid) as [part Hpart].
    exists part. split; [exact Hpart|].
    assert (Hskip : child = None \/ part = [] ->
              visit_child (fun c' p => walk c' p (indent + 1)) res word i child st
              = (Ok tt, st)).
    { intros H. unfold visit_child, bind, lift. rewrite Hpart.
      destruct child as [c|]; [|reflexivity].
      destruct H as [H|H]; [discriminate|]. subst part. reflexivity. }
    assert (Hrec : forall c, child = Some c -> part <> [] ->
              visit_child (fun c' p => walk c' p (indent + 1)) res word i child st
              = walk c part (indent + 1) st).
    { intros c -> Hne. unfold visit_child, bind, lift. rewrite Hpart.
      destruct part; [contradiction|]. reflexivity. }
    split; [exact Hrec|]. split; [exact Hskip|]. split.
    + intros Hfile. destruct child as [c|].
      * destruct part as [|a part].
        -- exfalso. apply Hfile. rewrite Hskip; [reflexivity | right; reflexivity].
        -- split; discriminate.
      * exfalso. apply Hfile. rewrite Hskip; [reflexivity | left; reflexivity].
    + intros [Hchild Hne]. destruct child as [c|]; [|contradiction].
      rewrite (Hrec c eq_refl Hne).
      destruct (parse_word_first_chunk c part (indent + 1) st) as [chunks Hf].
      rewrite Hf. intros Heq.
      rewrite <- (app_nil_r (file st)) in Heq at 2.
      apply app_inv_head in Heq. discriminate.
  - intros c indent st st2 completion w Hc Hcall Hreg Hval.
    cbn in Hc. injection Hc as <-.
    pose proof (@parse_word_spec PrefixedAnalyticalWordResponse
                  (node_children response_tree) word_mshkhyn indent st st2
                  completion w (mkPrefixedAnalyticalWord None) eq_refl
                  Hcall Hreg Hval) as H.
    change (mkNode PrefixedAnalyticalWordResponse (node_children response_tree))
      with response_tree in H.
    rewrite H. unfold in_sequence.
    change (spec_recursions (mkPrefixedAnalyticalWord None) word_mshkhyn 0
              (node_children response_tree))
      with [(mkNode SuffixedPronounResponse
                 [ Some (mkNode CompleteFormResponse
                     [ Some (mkNode PrefixedSuffixedMorphemeResponse
                         [ Some (mkNode MorphemeTypeResponse []);
                           Some (mkNode MorphemeTypeResponse []);
                           Some (mkNode MorphemeTypeResponse []) ]) ]);
                   Some (mkNode CompleteFormResponse []) ], word_mshkhyn)].
    cbn [fold_right fst snd]. unfold bind.
    match goal with
    | |- context [walk ?n ?p ?k ?s] => destruct (walk n p k s) as [[[]|e] st']
    end; reflexivity.
Qed.





(** The first entry a call of the walker appends is its question. *)
Lemma parse_word_first_entry (node : Node) (word : str) (indent : nat)
    (st : State World) :
  exists entries,
    messages (queue (snd (walk node word indent st)))
    = messages (queue st)
      ++ mkMessage USER (user_frame (get_question (node_response_type node) word))
           None :: entries.
Proof.
  destruct node as [t children]. rewrite parse_word_eq.
  unfold bind at 1 2. cbn [file_write on_queue].
  match goal with
  | |- context [bind ?m ?k ?st1] =>
      assert (H : Extends (fun _ => True) (bind m k));
      [|destruct (H st1) as ((entries & Hm) & _)]
  end.
  { apply Extends_bind; [apply Extends_request|].
    intros response. apply Extends_bind.
    { apply Extends_try_except; [apply Extends_lift|].
      intros e. apply Extends_bind; [apply Extends_print|].
      intros _. apply Extends_bind; [apply Extends_print|].
      intros _. apply Extends_raise. }
    intros res. apply Extends_bind; [apply Extends_file_write; exact I|].
    intros _. apply Extends_for_children. intros c part _.
    eapply Extends_weaken; [|apply Extends_parse_word]. intros; exact I. }
  exists entries. rewrite Hm.
  cbn [queue messages register_user_message register_message append_message
       node_response_type].
  rewrite <- app_assoc. reflexivity.
Qed.

(** C10. Nothing a walk has done is undone when it fails. Whatever its
    outcome, the file keeps its word line and the conversation its
    question, followed by what came after. When the answer of the question
    does not validate, the walk ends with a failure: the file has the
    word line and no answer line, and the conversation is the one the
    response left, the user question followed by the entries the response
    appended. The failure is the validation error, with the payload and
    the warning on the console, when the console accepts the payload; it
    is the error of the console, with nothing printed, when the console
    refuses the payload. Either way the driver goes on with the next word
    from that very state. *)
Theorem validation_failure_keeps_effects :
  (forall node word indent st,
   exists chunks entries lines,
     file (snd (walk node word indent st))
     = file st ++ word_line indent word :: chunks /\
     messages (queue (snd (walk node word indent st)))
     = messages (queue st)
       ++ mkMessage USER
            (user_frame (get_question (node_response_type node) word)) None
          :: entries /\
     console (snd (walk node word indent st)) = console st ++ lines) /\
  (forall t children word indent st st2 completion w e,
     Generation_call (world st)
       (get_messages (register_user_message (queue st) (get_question t word)))
       (WordClass t) = (completion, w) ->
     register_response markup_error completion
       (mkState (register_user_message (queue st) (get_question t word))
          (file st ++ [word_line indent word]) (console st) w) = (Ok tt, st2) ->
     model_validate_json json_loads t (argument (queue st2)) = Raise e ->
     exists e' st',
       walk (mkNode t children) word indent st = (Raise e', st') /\
       file st' = file st ++ [word_line indent word] /\
       queue st' = queue st2 /\
       (exists entries,
          messages (queue st')
          = messages (queue st)
            ++ mkMessage USER (user_frame (get_question t word)) None
               :: entries) /\
       (exists lines, console st' = console st ++ lines) /\
       (markup_error (argument (queue st2)) = false ->
        markup_error invalid_json = false ->
        e' = e /\
        console st' = console st2 ++ [argument (queue st2); invalid_json]) /\
       (markup_error (argument (queue st2)) = true ->
        e' = MarkupError /\ console st' = console st2) /\
       (indent = 0 -> markup_error parsing_failed = false ->
        forall rest,
          for_words markup_error Generation_call json_loads (mkNode t children)
            (word :: rest) st
          = for_words markup_error Generation_call json_loads
              (mkNode t children) rest
              (mkState (queue st') (file st' ++ [nl])
                 (console st' ++ [parsing_failed]) (world st')))).
Proof.
  split.
  { intros node word indent st.
    destruct (parse_word_first_chunk node word indent st) as [chunks Hf].
    destruct (parse_word_first_entry node word indent st) as [entries Hm].
    destruct (Extends_parse_word node word indent st) as (_ & _ & (lines & Hc)).
    exists chunks, entries, lines. repeat split; assumption. }
  intros t children word indent st st2 completion w e Hcall Hreg Hval.
  pose proof (parse_word_invalid children word indent st Hcall Hreg Hval)
    as Hwalk.
  pose proof (register_response_keeps completion
                (mkState (register_user_message (queue st) (get_question t word))
                   (file st ++ [word_line indent word]) (console st) w))
    as [Hfile _].
  pose proof (Extends_register_response (fun _ => True) completion
                (mkState (register_user_message (queue st) (get_question t word))
                   (file st ++ [word_line indent word]) (console st) w))
    as ((entries & Hm) & _ & (lines & Hc)).
  rewrite Hreg in Hfile, Hm, Hc. cbn [snd queue file console] in Hfile, Hm, Hc.
  assert (Hentries : exists entries',
             messages (queue st2)
             = messages (queue st)
               ++ mkMessage USER (user_frame (get_question t word)) None
                  :: entries').
  { exists entries. rewrite Hm. cbn [messages register_user_message
      register_message append_message]. rewrite <- app_assoc. reflexivity. }
  assert (Hdriver : forall e' st',
             walk (mkNode t children) word indent st = (Raise e', st') ->
             indent = 0 -> markup_error parsing_failed = false ->
             forall rest,
               for_words markup_error Generation_call json_loads
                 (mkNode t children) (word :: rest) st
               = for_words markup_error Generation_call json_loads
                   (mkNode t children) rest
                   (mkState (queue st') (file st' ++ [nl])
                      (console st' ++ [parsing_failed]) (world st'))).
  { intros e' st' Hw -> Hfailed rest.
    rewrite (for_words_cons _ _ _ _ Hfailed), parse_sentence_word_eq, Hw, Hfailed.
    reflexivity. }
  destruct (markup_error (argument (queue st2))) eqn:Hpayload;
    [|destruct (markup_error invalid_json) eqn:Hinvalid].
  - exists MarkupError, st2. split; [exact Hwalk|].
    split; [exact Hfile|]. split; [reflexivity|]. split; [exact Hentries|].
    split; [exists lines; exact Hc|]. split; [discriminate|].
    split; [intros _; split; reflexivity|].
    exact (Hdriver _ _ Hwalk).
  - eexists MarkupError, _. split; [exact Hwalk|]. cbn [queue file console world].
    split; [exact Hfile|]. split; [reflexivity|]. split; [exact Hentries|].
    split; [exists (lines ++ [argument (queue st2)]); rewrite Hc;
            symmetry; apply app_assoc|].
    split; [discriminate|]. split; [discriminate|].
    exact (Hdriver _ _ Hwalk).
  - eexists e, _. split; [exact Hwalk|]. cbn [queue file console world].
    split; [exact Hfile|]. split; [reflexivity|]. split; [exact Hentries|].
    split; [exists (lines ++ [argument (queue st2); invalid_json]); rewrite Hc;
            symmetry; apply app_assoc|].
    split; [intros _ _; split; reflexivity|]. split; [discriminate|].
    exact (Hdriver _ _ Hwalk).
Qed.
End Facts.

(* ===================================================================== *)
(** * Concrete runs *)
(* ===================================================================== *)

(** The run on the sentence of the priming text, against the answers the
    priming text shows: the trace has one block per question, indented by
    the depth of its call, and the deepest calls are at depth 4. *)
Example priming_run_trace :
  parse_sentence script_markup_error script_call script_json_loads sentence_wmshkhynn
    (start script_priming)
  = (Ok tt,
     mkState
       (queue (snd (parse_sentence script_markup_error script_call script_json_loads
                      sentence_wmshkhynn (start script_priming))))
       [ lit "Sentence: " ++ sentence_wmshkhynn ++ nl;
         word_line 0 sentence_wmshkhynn;
         answer_line 0 (mkPrefixedAnalyticalWord (Some [waw]));
         word_line 1 [mim; shin; kaph; heth; yudh; nun; nun];
         answer_line 1 (mkSuffixedPronoun (Some [nun; nun]));
         word_line 2 [mim; shin; kaph; heth; yudh];
         answer_line 2 (mkCompleteForm word_mshkhyn);
         word_line 3 word_mshkhyn;
         answer_line 3 (mkPrefixedSuffixedMorpheme (Some [mim]) (Some [yudh; nun]));
         word_line 4 [mim];
         answer_line 4 (mkMorphemeType (lit "performative"));
         word_line 4 [shin; kaph; heth];
         answer_line 4 (mkMorphemeType (lit "verbal ending"));
         word_line 4 [yudh; nun];
         answer_line 4 (mkMorphemeType (lit "nominal ending"));
         word_line 2 [nun; nun];
         answer_line 2 (mkCompleteForm [heth; nun; nun]);
         nl ]
       [] []).
Proof. vm_compute. reflexivity. Qed.

(** The first word fails at its first question, the second at its second
    one; the driver goes through both and the conversation keeps every
    entry. *)
Example failing_words_run :
  let run := parse_sentence script_markup_error script_call script_json_loads [nun; nun; 32%N; heth]
               (start script_first_word_fails) in
  fst run = Ok tt /\
  file (snd run)
  = [ lit "Sentence: " ++ [nun; nun; 32%N; heth] ++ nl;
      word_line 0 [nun; nun];
      nl;
      word_line 0 [heth];
      answer_line 0 (mkPrefixedAnalyticalWord None);
      word_line 1 [heth];
      nl ] /\
  console (snd run)
  = [ object1 "suffix" (lit "null"); invalid_json; parsing_failed;
      request_error server_error; []; invalid_json; parsing_failed ] /\
  List.map (fun m => match m with
                     | mkMessage r _ _ => r
                     | mkToolMessage r _ _ _ _ => r
                     end) (messages (queue (snd run)))
  = [SYSTEM; USER; ASSISTANT; TOOL; USER; ASSISTANT; TOOL;
     USER; ASSISTANT; TOOL; USER].
Proof. vm_compute. repeat split; reflexivity. Qed.

(* ===================================================================== *)
(** * Instances of the conditional statements *)
(* ===================================================================== *)

(** A null prefix on the word of the example: slot 0 of the root is
    skipped, and the walk of the root goes on as the walk of the child in
    slot 1 on the whole word. *)
Lemma walker_recursion_condition_witness :
  (valid_index (class_of (mkPrefixedAnalyticalWord None)) (Z.of_nat 0) = true /\
   exists part,
     get_part (mkPrefixedAnalyticalWord None) word_mshkhyn (Z.of_nat 0) = Ok part /\
     visit_child
       (fun c p => parse_word script_markup_error script_call script_json_loads
                     c p (0 + 1))
       (mkPrefixedAnalyticalWord None) word_mshkhyn 0 None
       (start script_null_prefixes)
     = (Ok tt, start script_null_prefixes)) /\
  (model_validate_json script_json_loads PrefixedAnalyticalWordResponse
     (object1 "prefix" (lit "null"))
   = Ok (mkPrefixedAnalyticalWord None) /\
   parse_word script_markup_error script_call script_json_loads response_tree
     word_mshkhyn 0 (start script_null_prefixes)
   = parse_word script_markup_error script_call script_json_loads
       (mkNode SuffixedPronounResponse
          [ Some (mkNode CompleteFormResponse
              [ Some (mkNode PrefixedSuffixedMorphemeResponse
                  [ Some (mkNode MorphemeTypeResponse []);
                    Some (mkNode MorphemeTypeResponse []);
                    Some (mkNode MorphemeTypeResponse []) ]) ]);
            Some (mkNode CompleteFormResponse []) ])
       word_mshkhyn (0 + 1)
       (mkState
          (mkMessageQueue
             [ mkMessage USER
                 (user_frame
                    (get_question PrefixedAnalyticalWordResponse word_mshkhyn))
                 None;
               mkMessage ASSISTANT []
                 (Some [mkToolCall (lit "call_0") (lit "response")
                          (object1 "prefix" (lit "null"))]);
               mkToolMessage TOOL [] None (lit "call_0") (lit "response") ]
             (object1 "prefix" (lit "null")))
          ([word_line 0 word_mshkhyn]
           ++ [answer_line 0 (mkPrefixedAnalyticalWord None)])
          []
          [tool_answer (object1 "prefix" (lit "null"))])).
Proof.
  destruct (walker_recursion_condition script_markup_error script_call
              script_json_loads)
    as (_ & Hslot & _ & _ & _ & _ & Hroot).
  split.
  - split; [reflexivity|].
    destruct (Hslot (mkPrefixedAnalyticalWord None) word_mshkhyn 0 0 None
                (start script_null_prefixes) eq_refl)
      as (part & Hpart & _ & Hskip & _).
    exists part. split; [exact Hpart|]. apply Hskip. left. reflexivity.
  - split; [reflexivity|].
    exact (Hroot _ 0 (start script_null_prefixes)
             (mkState
                (mkMessageQueue
                   [ mkMessage USER
                       (user_frame
                          (get_question PrefixedAnalyticalWordResponse
                             word_mshkhyn))
                       None;
                     mkMessage ASSISTANT []
                       (Some [mkToolCall (lit "call_0") (lit "response")
                                (object1 "prefix" (lit "null"))]);
                     mkToolMessage TOOL [] None (lit "call_0") (lit "response") ]
                   (object1 "prefix" (lit "null")))
                [word_line 0 word_mshkhyn] []
                [tool_answer (object1 "prefix" (lit "null"))])
             (tool_answer (object1 "prefix" (lit "null")))
             [tool_answer (object1 "prefix" (lit "null"))]
             eq_refl eq_refl eq_refl eq_refl).
Defined.







(** A payload that is no JSON text, on the first question of a word:
    one that the console accepts, and one that it refuses. *)
Lemma validation_failure_keeps_effects_witness :
  (script_markup_error (lit "no words") = false /\
   script_markup_error invalid_json = false /\
   exists st',
     parse_word script_markup_error script_call script_json_loads response_tree
       word_mshkhyn 0 (start script_not_json) = (Raise ValidationError, st') /\
     file st' = [] ++ [word_line 0 word_mshkhyn] /\
     (exists entries,
        messages (queue st')
        = [] ++ mkMessage USER
                  (user_frame
                     (get_question PrefixedAnalyticalWordResponse word_mshkhyn))
                  None :: entries)) /\
  (script_markup_error (lit "[/INST]") = true /\
   exists st',
     parse_word script_markup_error script_call script_json_loads response_tree
       word_mshkhyn 0 (start script_closing_tag) = (Raise MarkupError, st') /\
     file st' = [] ++ [word_line 0 word_mshkhyn] /\
     console st' = [] /\
     (exists entries,
        messages (queue st')
        = [] ++ mkMessage USER
                  (user_frame
                     (get_question PrefixedAnalyticalWordResponse word_mshkhyn))
                  None :: entries)).
Proof.
  split.
  - split; [reflexivity|]. split; [reflexivity|].
    destruct (proj2 (validation_failure_keeps_effects script_markup_error
                       script_call script_json_loads)
                PrefixedAnalyticalWordResponse
                (node_children response_tree) word_mshkhyn 0
                (start script_not_json)
                (snd (register_response script_markup_error
                        (tool_answer (lit "no words"))
                        (mkState
                           (register_user_message new_queue
                              (get_question PrefixedAnalyticalWordResponse
                                 word_mshkhyn))
                           [word_line 0 word_mshkhyn] [] [])))
                (tool_answer (lit "no words")) [] ValidationError
                eq_refl eq_refl eq_refl)
      as (e' & st' & Hwalk & Hfile & _ & Hentries & _ & Hok & _).
    destruct (Hok eq_refl eq_refl) as [-> _].
    exists st'. split; [exact Hwalk|]. split; [exact Hfile | exact Hentries].
  - split; [reflexivity|].
    destruct (proj2 (validation_failure_keeps_effects script_markup_error
                       script_call script_json_loads)
                PrefixedAnalyticalWordResponse
                (node_children response_tree) word_mshkhyn 0
                (start script_closing_tag)
                (snd (register_response script_markup_error
                        (tool_answer (lit "[/INST]"))
                        (mkState
                           (register_user_message new_queue
                              (get_question PrefixedAnalyticalWordResponse
                                 word_mshkhyn))
                           [word_line 0 word_mshkhyn] [] [])))
                (tool_answer (lit "[/INST]")) [] ValidationError
                eq_refl eq_refl eq_refl)
      as (e' & st' & Hwalk & Hfile & _ & Hentries & _ & _ & Hrefused & _).
    destruct (Hrefused eq_refl) as [-> Hconsole].
    exists st'. split; [exact Hwalk|]. split; [exact Hfile|].
    split; [exact Hconsole | exact Hentries].
Defined.

(* ===================================================================== *)
(** * The exact parts *)
(* ===================================================================== *)

(** The end of a slice whose stop is [len(s) - k]: where the stop is
    negative it counts from the end once more. *)
Lemma py_slice_upto_any (A : Type) (s : list A) (k : nat) :
  py_slice s None (Some (py_len s - Z.of_nat k)%Z)
  = firstn (slice_stop (List.length s) k) s.
Proof.
  unfold py_slice, adjust_index, py_len, slice_stop.
  destruct (Nat.leb_spec k (List.length s)) as [Hk|Hk].
  - destruct (Z.ltb_spec (Z.of_nat (List.length s) - Z.of_nat k) 0); [lia|].
    destruct (Z.ltb_spec (Z.of_nat (List.length s))
                (Z.of_nat (List.length s) - Z.of_nat k)); [lia|].
    destruct (Z.leb_spec (Z.of_nat (List.length s) - Z.of_nat k) 0).
    + replace (List.length s - k) with 0 by lia. reflexivity.
    + cbn [skipn]. f_equal. lia.
  - destruct (Z.ltb_spec (Z.of_nat (List.length s) - Z.of_nat k) 0); [|lia].
    destruct (Z.ltb_spec (Z.of_nat (List.length s) - Z.of_nat k
                          + Z.of_nat (List.length s)) 0).
    + replace (2 * List.length s - k) with 0 by lia. reflexivity.
    + destruct (Z.leb_spec (Z.of_nat (List.length s) - Z.of_nat k
                            + Z.of_nat (List.length s)) 0).
      * replace (2 * List.length s - k) with 0 by lia. reflexivity.
      * cbn [skipn]. f_equal. lia.
Qed.

Lemma py_slice_between_any (A : Type) (s : list A) (a k : nat) :
  py_slice s (Some (Z.of_nat a)) (Some (py_len s - Z.of_nat k)%Z)
  = firstn (slice_stop (List.length s) k - a) (skipn a s).
Proof.
  destruct (Nat.leb_spec a (List.length s)) as [Ha|Ha].
  - pose proof (py_slice_upto_any s k) as Hupto.
    unfold py_slice, adjust_index, py_len in Hupto |- *.
    destruct (Z.ltb_spec (Z.of_nat a) 0); [lia|].
    destruct (Z.ltb_spec (Z.of_nat (List.length s)) (Z.of_nat a)); [lia|].
    assert (Hstop : forall hi : Z,
               (0 <= hi)%Z ->
               (if (hi <=? 0)%Z then []
                else firstn (Z.to_nat (hi - 0)) (skipn (Z.to_nat 0) s))
               = firstn (slice_stop (List.length s) k) s ->
               (hi <= Z.of_nat (List.length s))%Z ->
               (if (hi <=? Z.of_nat a)%Z then []
                else firstn (Z.to_nat (hi - Z.of_nat a))
                       (skipn (Z.to_nat (Z.of_nat a)) s))
               = firstn (slice_stop (List.length s) k - a) (skipn a s)).
    { intros hi Hhi0 Heq Hhi.
      assert (Hlen : Z.to_nat hi = Nat.min (slice_stop (List.length s) k)
                                     (List.length s)).
      { apply (f_equal (@List.length A)) in Heq.
        rewrite length_firstn in Heq.
        destruct (Z.leb_spec hi 0).
        - cbn in Heq. lia.
        - rewrite length_firstn, Z.sub_0_r in Heq. cbn [Z.to_nat skipn] in Heq.
          lia. }
      unfold slice_stop in Hlen |- *.
      destruct (Z.leb_spec hi (Z.of_nat a)).
      - destruct (Nat.leb_spec k (List.length s));
          match goal with
          | |- [] = firstn ?n _ => replace n with 0 by lia; reflexivity
          end.
      - rewrite Nat2Z.id. f_equal.
        destruct (Nat.leb_spec k (List.length s)); lia. }
    destruct (Z.ltb_spec (Z.of_nat (List.length s) - Z.of_nat k) 0).
    + destruct (Z.ltb_spec (Z.of_nat (List.length s) - Z.of_nat k
                            + Z.of_nat (List.length s)) 0).
      * apply Hstop; [lia | exact Hupto | lia].
      * apply Hstop; [lia | exact Hupto | lia].
    + destruct (Z.ltb_spec (Z.of_nat (List.length s))
                  (Z.of_nat (List.length s) - Z.of_nat k)).
      * apply Hstop; [lia | exact Hupto | lia].
      * apply Hstop; [lia | exact Hupto | lia].
  - rewrite (skipn_all2 s) by lia. rewrite firstn_nil.
    unfold py_slice, adjust_index, py_len.
    destruct (Z.ltb_spec (Z.of_nat a) 0); [lia|].
    destruct (Z.ltb_spec (Z.of_nat (List.length s)) (Z.of_nat a)); [|lia].
    match goal with
    | |- (if (?hi <=? _)%Z then _ else _) = _ =>
        destruct (Z.leb_spec hi (Z.of_nat (List.length s))) as [_|Hhi];
        [reflexivity|]
    end.
    exfalso. revert Hhi.
    destruct (Z.ltb_spec (Z.of_nat (List.length s) - Z.of_nat k) 0).
    + destruct (Z.ltb_spec (Z.of_nat (List.length s) - Z.of_nat k
                            + Z.of_nat (List.length s)) 0); lia.
    + destruct (Z.ltb_spec (Z.of_nat (List.length s))
                  (Z.of_nat (List.length s) - Z.of_nat k)); lia.
Qed.

(** X1. Part 1 of a [PrefixedAnalyticalWordResponse] is the word without
    its first [len(prefix)] characters, whatever the prefix field holds: a
    suffix of the word, of length [len(word) - len(prefix)], empty when
    the prefix is at least as long as the word. *)
Theorem analytical_rest_exact (p : option str) (word : str) :
  get_part (mkPrefixedAnalyticalWord p) word 1
  = Ok (skipn (List.length (or_else p [])) word) /\
  firstn (List.length (or_else p [])) word
  ++ skipn (List.length (or_else p [])) word = word /\
  List.length (skipn (List.length (or_else p [])) word)
  = List.length word - List.length (or_else p []).
Proof.
  split; [|split; [apply firstn_skipn | apply length_skipn]].
  cbn [get_part]. f_equal.
  exact (py_slice_from word (List.length (or_else p []))).
Qed.

(** X2. Part 0 of a [SuffixedPronounResponse] is a prefix of the word of
    length [slice_stop (len word) (len suffix)]: the word without its last
    [len(suffix)] characters when the suffix is no longer than the word,
    but when the suffix is longer the negative bound wraps around, and the
    part is the first [2 * len(word) - len(suffix)] characters, which is
    not empty as long as the suffix is shorter than twice the word. *)
Theorem pronoun_stem_exact (s : option str) (word : str) :
  get_part (mkSuffixedPronoun s) word 0
  = Ok (firstn (slice_stop (List.length word) (List.length (or_else s [])))
          word) /\
  List.length
    (firstn (slice_stop (List.length word) (List.length (or_else s []))) word)
  = slice_stop (List.length word) (List.length (or_else s [])) /\
  (firstn (slice_stop (List.length word) (List.length (or_else s []))) word = []
   <-> List.length word = List.length (or_else s []) \/
       2 * List.length word <= List.length (or_else s [])).
Proof.
  set (n := List.length word). set (k := List.length (or_else s [])).
  assert (Hlen : List.length (firstn (slice_stop n k) word) = slice_stop n k).
  { rewrite length_firstn. fold n. unfold slice_stop.
    destruct (Nat.leb_spec k n); lia. }
  split; [|split; [exact Hlen|]].
  - cbn [get_part]. f_equal. exact (py_slice_upto_any word k).
  - split.
    + intros H. rewrite H in Hlen. cbn in Hlen. unfold slice_stop in Hlen.
      destruct (Nat.leb_spec k n); lia.
    + intros H. apply length_zero_iff_nil. rewrite Hlen. unfold slice_stop.
      destruct (Nat.leb_spec k n); lia.
Qed.

(** X3. Part 1 of a [PrefixedSuffixedMorphemeResponse] is the run of the
    word from index [len(prefix)] up to [slice_stop (len word)
    (len suffix)], empty when the two cross; a suffix longer than the word
    makes the stop wrap around as for the pronoun. *)
Theorem morpheme_middle_exact (p s : option str) (word : str) :
  get_part (mkPrefixedSuffixedMorpheme p s) word 1
  = Ok (firstn (slice_stop (List.length word) (List.length (or_else s []))
                - List.length (or_else p []))
          (skipn (List.length (or_else p [])) word)) /\
  List.length
    (firstn (slice_stop (List.length word) (List.length (or_else s []))
             - List.length (or_else p []))
       (skipn (List.length (or_else p [])) word))
  = slice_stop (List.length word) (List.length (or_else s []))
    - List.length (or_else p []).
Proof.
  split.
  - cbn [get_part]. f_equal.
    exact (py_slice_between_any word (List.length (or_else p []))
             (List.length (or_else s []))).
  - rewrite length_firstn, length_skipn. unfold slice_stop.
    destruct (Nat.leb_spec (List.length (or_else s [])) (List.length word)); lia.
Qed.

(* ===================================================================== *)
(** * Questions and entries *)
(* ===================================================================== *)

(** X4. A question tells which class asked it and about which word: two
    questions are the same text only for the same class and word. *)
Theorem get_question_injective (t t' : response_type) (w w' : str) :
  get_question t w = get_question t' w' -> t = t' /\ w = w'.
Proof.
  intros H.
  assert (Ht : t = t').
  { apply (f_equal (firstn 23)) in H.
    destruct t, t'; try reflexivity; cbn in H; discriminate H. }
  subst t'. split; [reflexivity|].
  destruct t; unfold get_question in H;
    repeat (apply app_inv_head in H);
    apply app_inv_tail in H; exact H.
Qed.

Lemma Role_value_injective (r r' : Role) :
  Role_value r = Role_value r' -> r = r'.
Proof. destruct r, r'; intros H; try reflexivity; vm_compute in H; discriminate H. Qed.

Lemma cast_injective (m m' : Message) : cast m = cast m' -> m = m'.
Proof.
  destruct m as [r c [calls|]|r c [calls|] id n],
           m' as [r' c' [calls'|]|r' c' [calls'|] id' n'];
    cbn; intros H; inversion H; subst;
    repeat match goal with
           | E : Role_value _ = Role_value _ |- _ =>
               apply Role_value_injective in E; subst
           end;
    reflexivity.
Qed.

(** X5. What is sent tells the conversation: [cast] keeps every field of
    an entry apart (without the [tool_calls] key when there are none), so
    two conversations that send the same list of dictionaries hold the
    same entries. *)
Theorem get_messages_injective (q q' : MessageQueue) :
  get_messages q = get_messages q' -> messages q = messages q'.
Proof.
  unfold get_messages. generalize (messages q) (messages q').
  induction l as [|m l IH]; intros [|m' l'] H; cbn in H;
    try reflexivity; try discriminate.
  injection H as Hm Hl. f_equal; [apply cast_injective, Hm | apply IH, Hl].
Qed.

(* ===================================================================== *)
(** * The sentences of the corpus *)
(* ===================================================================== *)

Section CorpusFacts.
Variable isdecimal : codepoint -> bool.
Variable isspace : codepoint -> bool.

Local Abbreviation split := (re_split isdecimal).
Local Abbreviation strip' := (strip isspace).
Local Abbreviation nonblank := (fun s : str => truthy (strip isspace s)).

Lemma re_split_digit_free (content : str) :
  Forall (Forall (fun c => isdecimal c = false)) (split content).
Proof.
  induction content as [|c rest IH]; cbn [re_split].
  - repeat constructor.
  - destruct (isdecimal c) eqn:Hc.
    + destruct (starts_with_digit isdecimal rest); [exact IH|].
      constructor; [constructor | exact IH].
    + destruct (split rest) as [|piece pieces].
      * repeat constructor. exact Hc.
      * inversion IH; subst. constructor; [constructor; assumption | assumption].
Qed.

Lemma re_split_keeps (Q : codepoint -> Prop) (content : str) :
  Forall Q content -> Forall (Forall Q) (split content).
Proof.
  induction content as [|c rest IH]; intros H; cbn [re_split].
  - repeat constructor.
  - inversion H; subst. specialize (IH H3).
    destruct (isdecimal c).
    + destruct (starts_with_digit isdecimal rest); [exact IH|].
      constructor; [constructor | exact IH].
    + destruct (split rest) as [|piece pieces].
      * repeat constructor. assumption.
      * inversion IH; subst. constructor; [constructor; assumption | assumption].
Qed.

Lemma re_split_digit_head (content : str) :
  starts_with_digit isdecimal content = true ->
  exists pieces, split content = [] :: pieces.
Proof.
  induction content as [|c rest IH]; [discriminate|].
  cbn [starts_with_digit re_split]. intros Hc. rewrite Hc.
  destruct (starts_with_digit isdecimal rest) eqn:Hrest.
  - apply IH. reflexivity.
  - eexists. reflexivity.
Qed.

Lemma re_split_no_digit (content : str) :
  Forall (fun c => isdecimal c = false) content -> split content = [content].
Proof.
  induction content as [|c rest IH]; intros H; [reflexivity|].
  inversion H; subst. cbn [re_split]. rewrite H2, (IH H3). reflexivity.
Qed.

Lemma lstrip_keeps (Q : codepoint -> Prop) (s : str) :
  Forall Q s -> Forall Q (lstrip isspace s).
Proof.
  induction s as [|c rest IH]; intros H; cbn [lstrip]; [constructor|].
  destruct (isspace c); [|exact H]. inversion H; subst. apply IH. assumption.
Qed.

Lemma rstrip_keeps (Q : codepoint -> Prop) (s : str) :
  Forall Q s -> Forall Q (rstrip isspace s).
Proof.
  induction s as [|c rest IH]; intros H; cbn [rstrip]; [constructor|].
  inversion H; subst. specialize (IH H3).
  destruct (rstrip isspace rest) as [|r rs].
  - destruct (isspace c); repeat constructor. assumption.
  - constructor; assumption.
Qed.

Lemma rstrip_idempotent (s : str) :
  rstrip isspace (rstrip isspace s) = rstrip isspace s.
Proof.
  induction s as [|c rest IH]; [reflexivity|]. cbn [rstrip].
  destruct (rstrip isspace rest) as [|r rs] eqn:Hrest.
  - destruct (isspace c) eqn:Hc; [reflexivity|]. cbn [rstrip]. rewrite Hc.
    reflexivity.
  - cbn [rstrip]. cbn [rstrip] in IH. rewrite IH. reflexivity.
Qed.

Lemma lstrip_head (s : str) (c : codepoint) (r : str) :
  lstrip isspace s = c :: r -> isspace c = false.
Proof.
  induction s as [|d rest IH]; cbn [lstrip]; [discriminate|].
  destruct (isspace d) eqn:Hd; [exact IH|].
  intros H. injection H as <- _. exact Hd.
Qed.

Lemma rstrip_head (c : codepoint) (rest : str) :
  isspace c = false -> exists r, rstrip isspace (c :: rest) = c :: r.
Proof.
  intros Hc. cbn [rstrip]. destruct (rstrip isspace rest) as [|r rs].
  - rewrite Hc. eexists. reflexivity.
  - eexists. reflexivity.
Qed.

Lemma strip_idempotent (s : str) : strip' (strip' s) = strip' s.
Proof.
  unfold strip. destruct (lstrip isspace s) as [|c r] eqn:Hl; [reflexivity|].
  pose proof (lstrip_head s Hl) as Hc.
  destruct (rstrip_head r Hc) as [r' Hr]. rewrite Hr.
  cbn [lstrip]. rewrite Hc, <- Hr. apply rstrip_idempotent.
Qed.

Lemma strip_keeps (Q : codepoint -> Prop) (s : str) :
  Forall Q s -> Forall Q (strip' s).
Proof. intros H. apply rstrip_keeps, lstrip_keeps, H. Qed.

Lemma strip_spaces (s : str) :
  Forall (fun c => isspace c = true) s -> strip' s = [].
Proof.
  unfold strip. induction s as [|c rest IH]; intros H; [reflexivity|].
  inversion H; subst. cbn [lstrip]. rewrite H2. apply IH. assumption.
Qed.

(** X6. Every sentence taken from the corpus is non-empty, has no white
    space at either end (stripping it again changes nothing) and contains
    no decimal digit. *)
Theorem sentences_well_formed (content : str) :
  Forall (fun s => s <> [] /\ strip' s = s /\
                   Forall (fun c => isdecimal c = false) s)
    (sentences_of isdecimal isspace content).
Proof.
  unfold sentences_of. apply Forall_forall. intros s Hs.
  apply in_map_iff in Hs. destruct Hs as (piece & <- & Hpiece).
  apply filter_In in Hpiece. destruct Hpiece as [Hin Hnb].
  split; [|split].
  - intros E. rewrite E in Hnb. discriminate.
  - apply strip_idempotent.
  - apply strip_keeps.
    exact (proj1 (Forall_forall _ _) (re_split_digit_free content) piece Hin).
Qed.

Lemma re_split_app (a rest : str) :
  starts_with_digit isdecimal rest = true ->
  hd [] (split (a ++ rest)) = hd [] (split a) /\
  List.filter nonblank (tl (split (a ++ rest)))
  = List.filter nonblank (tl (split a)) ++ List.filter nonblank (tl (split rest)).
Proof.
  intros Hrest. destruct (re_split_digit_head rest Hrest) as [tail Htail].
  induction a as [|c a IH].
  - cbn [app re_split hd tl List.filter]. rewrite Htail. split; reflexivity.
  - destruct IH as [IHhd IHtl]. cbn [app re_split].
    destruct (isdecimal c) eqn:Hc.
    + assert (Hsplit : forall x : str,
                 (if starts_with_digit isdecimal x then split x
                  else [] :: split x)
                 = [] :: (if starts_with_digit isdecimal x then tl (split x)
                          else split x)).
      { intros x. destruct (starts_with_digit isdecimal x) eqn:Hx; [|reflexivity].
        destruct (re_split_digit_head x Hx) as [t Ht]. rewrite Ht. reflexivity. }
      rewrite (Hsplit (a ++ rest)), (Hsplit a). cbn [hd tl].
      split; [reflexivity|].
      destruct a as [|d a'].
      * cbn [app starts_with_digit]. rewrite Hrest.
        cbn [re_split List.filter strip lstrip rstrip truthy]. reflexivity.
      * cbn [app starts_with_digit] in IHhd, IHtl |- *.
        destruct (isdecimal d) eqn:Hd; [exact IHtl|].
        destruct (split (d :: a' ++ rest)) as [|h t] eqn:E1;
          destruct (split (d :: a')) as [|h' t'] eqn:E2;
          cbn [hd tl] in IHhd, IHtl |- *.
        -- exact IHtl.
        -- cbn [re_split] in E1. rewrite Hd in E1.
           destruct (split (a' ++ rest)); discriminate.
        -- cbn [re_split] in E2. rewrite Hd in E2.
           destruct (split a'); discriminate.
        -- subst h'. cbn [List.filter].
           destruct (truthy (strip isspace h)); [|exact IHtl].
           cbn [app]. f_equal. exact IHtl.
    + destruct (split (a ++ rest)) as [|h t] eqn:E1;
        destruct (split a) as [|h' t'] eqn:E2;
        cbn [hd tl] in IHhd, IHtl |- *.
      * split; [reflexivity | exact IHtl].
      * subst h'. split; [reflexivity | exact IHtl].
      * subst h. split; [reflexivity | exact IHtl].
      * subst h'. split; [reflexivity | exact IHtl].
Qed.

(** X7. A decimal digit separates: the sentences of a corpus with a digit
    in it are those of what precedes the digit followed by those of what
    follows it. *)
Theorem sentences_of_digit (a b : str) (d : codepoint) :
  isdecimal d = true ->
  sentences_of isdecimal isspace (a ++ d :: b)
  = sentences_of isdecimal isspace a ++ sentences_of isdecimal isspace b.
Proof.
  intros Hd. unfold sentences_of. rewrite <- map_app. f_equal.
  assert (Hrest : starts_with_digit isdecimal (d :: b) = true) by exact Hd.
  destruct (re_split_app a (d :: b) Hrest) as [Hhd Htl].
  assert (Hcons : forall l : list str,
             l <> [] ->
             List.filter nonblank l
             = List.filter nonblank [hd [] l] ++ List.filter nonblank (tl l)).
  { intros [|h t] Hne; [contradiction|]. cbn [hd tl List.filter].
    destruct (truthy (strip isspace h)); reflexivity. }
  assert (Hne : forall x, split x <> []).
  { intros [|c x]; cbn [re_split]; [discriminate|].
    destruct (isdecimal c).
    - destruct (starts_with_digit isdecimal x) eqn:Hx; [|discriminate].
      destruct (re_split_digit_head x Hx) as [t Ht]. rewrite Ht. discriminate.
    - destruct (split x); discriminate. }
  rewrite (Hcons _ (Hne (a ++ d :: b))), (Hcons _ (Hne a)), Hhd, Htl.
  rewrite <- app_assoc. f_equal. f_equal.
  cbn [re_split]. rewrite Hd.
  destruct (starts_with_digit isdecimal b) eqn:Hb.
  - destruct (re_split_digit_head b Hb) as [t Ht]. rewrite Ht. reflexivity.
  - reflexivity.
Qed.

(** X8. A corpus without a decimal digit is one sentence, the corpus
    stripped, or none when it is blank. *)
Theorem sentences_of_no_digit (content : str) :
  Forall (fun c => isdecimal c = false) content ->
  sentences_of isdecimal isspace content
  = if truthy (strip' content) then [strip' content] else [].
Proof.
  intros H. unfold sentences_of. rewrite (re_split_no_digit H).
  cbn [List.filter]. destruct (truthy (strip isspace content)); reflexivity.
Qed.

Lemma sentences_of_blank (content : str) :
  Forall (fun c => isdecimal c = true \/ isspace c = true) content ->
  sentences_of isdecimal isspace content = [].
Proof.
  intros H. unfold sentences_of.
  assert (Hall : Forall (fun p => nonblank p = false) (split content)).
  { apply Forall_forall. intros piece Hin.
    rewrite strip_spaces; [reflexivity|].
    pose proof (proj1 (Forall_forall _ _) (re_split_digit_free content) piece Hin)
      as Hnd.
    pose proof (proj1 (Forall_forall _ _) (re_split_keeps H) piece Hin) as Hq.
    apply Forall_forall. intros c Hc.
    pose proof (proj1 (Forall_forall _ _) Hnd c Hc) as H1.
    pose proof (proj1 (Forall_forall _ _) Hq c Hc) as [H2|H2]; congruence. }
  induction Hall as [|p ps Hp _ IH]; [reflexivity|].
  cbn [List.filter]. rewrite Hp. exact IH.
Qed.
End CorpusFacts.

(** X9. A corpus of digits and white space only (the empty corpus too)
    has no sentence: the run asks nothing, writes nothing and returns. *)
Theorem parse_content_blank (World : Type)
    (markup_error : str -> bool)
    (Generation_call :
       World -> list ChatCompletionMessageParam -> model_class ->
       GenerationResponse * World)
    (json_loads : str -> option json)
    (isdecimal isspace : codepoint -> bool) (content : str)
    (st : State World) :
  Forall (fun c => isdecimal c = true \/ isspace c = true) content ->
  sentences_of isdecimal isspace content = [] /\
  parse_content markup_error Generation_call json_loads isdecimal isspace content st
  = (Ok tt, st).
Proof.
  intros H. pose proof (sentences_of_blank isdecimal isspace H) as E.
  split; [exact E|].
  unfold parse_content. rewrite E. reflexivity.
Qed.

Lemma sentences_of_digit_witness :
  ascii_isdecimal 49%N = true /\
  sentences_of ascii_isdecimal ascii_isspace (lit " ab " ++ 49%N :: lit "2 c")
  = sentences_of ascii_isdecimal ascii_isspace (lit " ab ")
    ++ sentences_of ascii_isdecimal ascii_isspace (lit "2 c").
Proof.
  split; [reflexivity|].
  apply (sentences_of_digit ascii_isdecimal ascii_isspace (lit " ab ")
           (lit "2 c") 49%N).
  reflexivity.
Defined.

Lemma sentences_of_no_digit_witness :
  Forall (fun c => ascii_isdecimal c = false) (lit " ab ") /\
  sentences_of ascii_isdecimal ascii_isspace (lit " ab ") = [lit "ab"].
Proof.
  assert (H : Forall (fun c => ascii_isdecimal c = false) (lit " ab "))
    by (repeat constructor).
  split; [exact H|].
  exact (sentences_of_no_digit ascii_isdecimal ascii_isspace H).
Defined.

Lemma parse_content_blank_witness :
  Forall (fun c => ascii_isdecimal c = true \/ ascii_isspace c = true)
    (lit " 12 ") /\
  parse_content script_markup_error script_call script_json_loads ascii_isdecimal ascii_isspace
    (lit " 12 ") (start script_priming)
  = (Ok tt, start script_priming).
Proof.
  assert (H : Forall (fun c => ascii_isdecimal c = true \/ ascii_isspace c = true)
                (lit " 12 ")).
  { repeat constructor; (left; reflexivity) || (right; reflexivity). }
  split; [exact H|].
  exact (proj2 (parse_content_blank script_markup_error script_call script_json_loads
                  ascii_isdecimal ascii_isspace (start script_priming) H)).
Defined.

(* ===================================================================== *)
(** * Failures that are not caught, and the shape of the conversation *)
(* ===================================================================== *)

Lemma exchanges_app (a b : list Message) :
  exchanges a -> exchanges b -> exchanges (a ++ b).
Proof.
  induction 1 as [|block rest Hblock _ IH]; intros Hb; [exact Hb|].
  rewrite <- app_assoc. constructor; [exact Hblock | exact (IH Hb)].
Qed.

Lemma exchanges_one (block : list Message) : exchange block -> exchanges block.
Proof.
  intros H. rewrite <- (app_nil_r block). constructor; [exact H | constructor].
Qed.

Lemma questions_app (a b : list Message) :
  questions (a ++ b) = questions a + questions b.
Proof. unfold questions. rewrite filter_app, length_app. reflexivity. Qed.

Lemma size_eq (t : response_type) (children : list (option Node)) :
  size (mkNode t children) = S (slots_size children).
Proof.
  reflexivity.
Qed.

(** In a run of exchanges every tool entry comes right after the assistant
    entry whose first call it follows up, and no entry is a system
    entry. *)
Lemma exchanges_tool_follows (entries : list Message) :
  exchanges entries ->
  forall before after role content tool_calls id name,
    entries = before ++ mkToolMessage role content tool_calls id name :: after ->
    exists before' answer call calls,
      before = before' ++ [mkMessage ASSISTANT answer (Some (call :: calls))] /\
      role = TOOL /\ id = call_id call /\ name = function_name call.
Proof.
  induction 1 as [|block rest Hblock _ IH];
    intros before after role content tool_calls id name E.
  - destruct before; discriminate.
  - destruct Hblock as [q|answer call calls|answer calls' _].
    + destruct before as [|m before]; cbn in E; [discriminate|].
      injection E as <- E. destruct (IH _ _ _ _ _ _ _ E) as (b & a & c & cs & -> & H).
      exists (mkMessage USER q None :: b), a, c, cs. split; [reflexivity | exact H].
    + destruct before as [|m [|m' before]]; cbn in E.
      * discriminate.
      * injection E as <- <- _ _ <- <- _.
        exists [], answer, call, calls. repeat split.
      * injection E as <- <- E.
        destruct (IH _ _ _ _ _ _ _ E) as (b & a & c & cs & -> & H).
        eexists (_ :: _ :: b), a, c, cs. split; [reflexivity | exact H].
    + destruct before as [|m before]; cbn in E; [discriminate|].
      injection E as <- E. destruct (IH _ _ _ _ _ _ _ E) as (b & a & c & cs & -> & H).
      eexists (_ :: b), a, c, cs. split; [reflexivity | exact H].
Qed.

Lemma exchanges_no_system (entries : list Message) :
  exchanges entries -> Forall (fun m => Message_role m <> SYSTEM) entries.
Proof.
  induction 1 as [|block rest Hblock _ IH]; [constructor|].
  apply Forall_app. split; [|exact IH].
  destruct Hblock; repeat constructor; discriminate.
Qed.

Section MoreFacts.
Variable World : Type.
Variable markup_error : str -> bool.
Variable Generation_call :
  World -> list ChatCompletionMessageParam -> model_class ->
  GenerationResponse * World.
Variable json_loads : str -> option json.

Local Abbreviation walk := (parse_word markup_error Generation_call json_loads).

Lemma Talks_weaken (A : Type) (n k : nat) (m : M World A) :
  n <= k -> Talks n m -> Talks k m.
Proof.
  intros Hnk H st. destruct (H st) as (entries & Hm & Hx & Hq).
  exists entries. repeat split; [exact Hm | exact Hx | lia].
Qed.

Lemma Talks_silent (A : Type) (m : M World A) :
  (forall st, messages (queue (snd (m st))) = messages (queue st)) ->
  Talks 0 m.
Proof.
  intros H st. exists []. rewrite app_nil_r.
  repeat split; [apply H | constructor | apply Nat.le_refl].
Qed.

Lemma Talks_bind (A B : Type) (n k : nat) (m : M World A)
    (f : A -> M World B) :
  Talks n m -> (forall a, Talks k (f a)) -> Talks (n + k) (bind m f).
Proof.
  intros Hm Hf st. unfold bind.
  destruct (Hm st) as (e1 & Hm1 & Hx1 & Hq1).
  destruct (m st) as [[a|e] st1]; cbn [snd] in Hm1 |- *.
  - destruct (Hf a st1) as (e2 & Hm2 & Hx2 & Hq2).
    exists (e1 ++ e2). rewrite Hm2, Hm1, <- app_assoc, questions_app.
    repeat split; [apply exchanges_app; assumption | lia].
  - exists e1. repeat split; [exact Hm1 | exact Hx1 | lia].
Qed.

Lemma Talks_try_except (A : Type) (n k : nat) (m : M World A)
    (handler : exn -> M World A) :
  Talks n m -> (forall e, Talks k (handler e)) ->
  Talks (n + k) (try_except m handler).
Proof.
  intros Hm Hh st. unfold try_except.
  destruct (Hm st) as (e1 & Hm1 & Hx1 & Hq1).
  destruct (m st) as [[a|e] st1]; cbn [snd] in Hm1 |- *.
  - exists e1. repeat split; [exact Hm1 | exact Hx1 | lia].
  - destruct (Hh e st1) as (e2 & Hm2 & Hx2 & Hq2).
    exists (e1 ++ e2). rewrite Hm2, Hm1, <- app_assoc, questions_app.
    repeat split; [apply exchanges_app; assumption | lia].
Qed.

Lemma Talks_print (s : str) :
  Talks 0 (print (World := World) markup_error s).
Proof.
  apply Talks_silent. intros st. unfold print.
  destruct (markup_error s); reflexivity.
Qed.

(** The handlers of a payload that does not validate. *)
Lemma Talks_invalid_handler (A : Type) (response : str) (k : M World A) :
  Talks 0 k ->
  Talks 0 (print markup_error response ;; print markup_error invalid_json ;; k).
Proof.
  intros Hk.
  apply (Talks_bind (n := 0) (k := 0)); [apply Talks_print|].
  intros _. apply (Talks_bind (n := 0) (k := 0)); [apply Talks_print|].
  intros _. exact Hk.
Qed.

Lemma Talks_question (content : str) :
  Talks 1 (on_queue (World := World)
             (fun q => register_user_message q content)).
Proof.
  intros st. eexists. split; [reflexivity|].
  split; [apply exchanges_one; constructor | apply Nat.le_refl].
Qed.

Lemma Talks_register_response (completion : GenerationResponse) :
  Talks 0 (register_response (World := World) markup_error completion).
Proof.
  unfold register_response.
  destruct (status_code completion =? HTTP_OK)%Z.
  - destruct (choices completion) as [|message rest].
    + apply Talks_silent. reflexivity.
    + intros st. unfold bind, on_queue, raise.
      destruct (choice_tool_calls message) as [[|call calls]|] eqn:Hcalls;
        cbn [snd queue messages append_message].
      * eexists. split; [reflexivity|]. split; [|apply Nat.le_refl].
        apply exchanges_one. constructor. right. reflexivity.
      * exists [mkMessage ASSISTANT (choice_content message)
                  (Some (call :: calls));
                mkToolMessage TOOL [] None (call_id call) (function_name call)].
        split; [rewrite <- app_assoc; reflexivity|].
        split; [|apply Nat.le_refl].
        apply exchanges_one.
        exact (exchange_answer (choice_content message) call calls).
      * eexists. split; [reflexivity|]. split; [|apply Nat.le_refl].
        apply exchanges_one. constructor. left. reflexivity.
  - apply (Talks_bind (n := 0) (k := 0)); [apply Talks_print|].
    intros _. apply Talks_silent. reflexivity.
Qed.

Lemma Talks_request (tool : model_class) :
  Talks 0 (request markup_error Generation_call tool).
Proof.
  intros st. unfold request.
  destruct (Generation_call (world st) (get_messages (queue st)) tool)
    as [completion w].
  assert (H : Talks 0
                (register_response (World := World) markup_error completion ;;
                 (fun st' => (Ok (argument (queue st')), st')))).
  { apply (Talks_bind (n := 0) (k := 0)); [apply Talks_register_response|].
    intros _. apply Talks_silent. reflexivity. }
  exact (H (mkState (queue st) (file st) (console st) w)).
Qed.

Lemma Talks_for_children (recurse : Node -> str -> M World unit)
    (res : WordResponse) (word : str) (children : list (option Node))
    (i : nat) :
  (forall c part, In (Some c) children -> Talks (size c) (recurse c part)) ->
  Talks (slots_size children) (for_children recurse res word children i).
Proof.
  revert i. induction children as [|child rest IH]; intros i H;
    cbn [for_children slots_size].
  - apply Talks_silent. reflexivity.
  - assert (Hvisit : Talks (match child with Some c => size c | None => 0 end)
                       (visit_child recurse res word i child)).
    { unfold visit_child.
      apply (Talks_bind (n := 0)); [apply Talks_silent; reflexivity|].
      intros part. destruct child as [c|]; [|apply Talks_silent; reflexivity].
      destruct (truthy part).
      - apply H. left. reflexivity.
      - apply Talks_weaken with (n := 0); [lia|]. apply Talks_silent. reflexivity. }
    assert (Hrest : Talks (slots_size rest)
                      (for_children recurse res word rest (S i))).
    { apply IH. intros c part Hin. apply H. right. exact Hin. }
    destruct child as [c|].
    + apply Talks_bind; [exact Hvisit | intros _; exact Hrest].
    + apply (Talks_bind (n := 0)); [exact Hvisit | intros _; exact Hrest].
Qed.

Lemma Talks_parse_word (node : Node) :
  forall word indent, Talks (size node) (walk node word indent).
Proof.
  induction node as [t children IH] using Node_induction.
  intros word indent. rewrite size_eq.
  change (walk (mkNode t children) word indent)
    with (file_write (word_line indent word) ;;
          on_queue (fun q => register_user_message q (get_question t word)) ;;
          response <- request markup_error Generation_call (WordClass t) ;;
          res <- try_except (lift (model_validate_json json_loads t response))
                   (fun e => print markup_error response ;; print markup_error invalid_json ;; raise e) ;;
          file_write (answer_line indent res) ;;
          for_children (fun child word_part => walk child word_part (indent + 1))
            res word children 0).
  apply (Talks_bind (n := 0) (k := S (slots_size children)));
    [apply Talks_silent; reflexivity|].
  intros _. apply (Talks_bind (n := 1) (k := slots_size children));
    [apply Talks_question|].
  intros _. apply (Talks_bind (n := 0)); [apply Talks_request|].
  intros response. apply (Talks_bind (n := 0)).
  { apply (Talks_try_except (n := 0) (k := 0));
      [apply Talks_silent; reflexivity|].
    intros e. apply Talks_invalid_handler. apply Talks_silent. reflexivity. }
  intros res. apply (Talks_bind (n := 0)); [apply Talks_silent; reflexivity|].
  intros _. apply Talks_for_children. intros c part Hin. apply (IH c Hin).
Qed.

Lemma Talks_for_words (tree : Node) (words : list str) :
  Talks (List.length words * size tree)
    (for_words markup_error Generation_call json_loads tree words).
Proof.
  induction words as [|word rest IH]; cbn [for_words List.length Nat.mul].
  - apply Talks_silent. reflexivity.
  - apply Talks_bind; [|intros _; exact IH].
    unfold parse_sentence_word.
    apply Talks_weaken with (n := size tree + 0 + 0); [lia|].
    apply Talks_bind; [|intros _; apply Talks_silent; reflexivity].
    apply Talks_try_except; [apply Talks_parse_word|].
    intros e. apply Talks_print.
Qed.

(** ** The calls of the service *)

Local Abbreviation mcall := (metered Generation_call).
Local Abbreviation mwalk := (parse_word markup_error mcall json_loads).

Lemma Calls_weaken (A : Type) (lo hi lo' hi' : nat) (m : M (nat * World) A) :
  lo' <= lo -> hi <= hi' -> Calls lo hi m -> Calls lo' hi' m.
Proof. intros Hlo Hhi H st. specialize (H st). lia. Qed.

Lemma Calls_free (A : Type) (m : M (nat * World) A) :
  (forall st, world (snd (m st)) = world st) -> Calls 0 0 m.
Proof. intros H st. unfold calls_made. rewrite H. lia. Qed.

Lemma Calls_bind (A B : Type) (lo hi hi' : nat) (m : M (nat * World) A)
    (k : A -> M (nat * World) B) :
  Calls lo hi m -> (forall a, Calls 0 hi' (k a)) ->
  Calls lo (hi + hi') (bind m k).
Proof.
  intros Hm Hk st. unfold bind. specialize (Hm st).
  destruct (m st) as [[a|e] st1]; cbn [snd] in Hm |- *.
  - specialize (Hk a st1). lia.
  - lia.
Qed.

(** After a step that always returns, the lower bounds add up too. *)
Lemma Calls_then (A B : Type) (lo hi lo' hi' : nat) (m : M (nat * World) A)
    (k : A -> M (nat * World) B) :
  (forall st, exists a, fst (m st) = Ok a) ->
  Calls lo hi m -> (forall a, Calls lo' hi' (k a)) ->
  Calls (lo + lo') (hi + hi') (bind m k).
Proof.
  intros Hok Hm Hk st. unfold bind. specialize (Hm st).
  destruct (Hok st) as [a Ha].
  destruct (m st) as [[a'|e] st1]; cbn [fst snd] in Ha, Hm |- *;
    [|discriminate].
  specialize (Hk a' st1). lia.
Qed.

Lemma Calls_try_except (A : Type) (lo hi hi' : nat) (m : M (nat * World) A)
    (handler : exn -> M (nat * World) A) :
  Calls lo hi m -> (forall e, Calls 0 hi' (handler e)) ->
  Calls lo (hi + hi') (try_except m handler).
Proof.
  intros Hm Hh st. unfold try_except. specialize (Hm st).
  destruct (m st) as [[a|e] st1]; cbn [snd] in Hm |- *.
  - lia.
  - specialize (Hh e st1). lia.
Qed.

Lemma Calls_print (s : str) :
  Calls 0 0 (print (World := nat * World) markup_error s).
Proof.
  apply Calls_free. intros st. unfold print.
  destruct (markup_error s); reflexivity.
Qed.

(** A request is one call of the service. *)
Lemma Calls_request (tool : model_class) :
  Calls 1 1 (request markup_error mcall tool).
Proof.
  intros st. unfold request, metered.
  destruct (Generation_call (snd (world st)) (get_messages (queue st)) tool)
    as [completion w].
  unfold bind.
  pose proof (register_response_keeps markup_error completion
                (mkState (queue st) (file st) (console st)
                   (S (fst (world st)), w))) as [_ Hw].
  destruct (register_response markup_error completion
              (mkState (queue st) (file st) (console st)
                 (S (fst (world st)), w))) as [[[]|e] st1];
    cbn [snd world] in Hw |- *; unfold calls_made; rewrite Hw;
    cbn [fst]; lia.
Qed.

Lemma Calls_invalid_handler (A : Type) (response : str)
    (k : M (nat * World) A) :
  Calls 0 0 k ->
  Calls 0 0 (print markup_error response ;; print markup_error invalid_json ;;
             k).
Proof.
  intros Hk.
  apply (Calls_bind (lo := 0) (hi := 0) (hi' := 0)); [apply Calls_print|].
  intros _. apply (Calls_bind (lo := 0) (hi := 0) (hi' := 0));
    [apply Calls_print|].
  intros _. exact Hk.
Qed.

Lemma Calls_for_children (recurse : Node -> str -> M (nat * World) unit)
    (res : WordResponse) (word : str) (children : list (option Node))
    (i : nat) :
  (forall c part, In (Some c) children -> Calls 0 (size c) (recurse c part)) ->
  Calls 0 (slots_size children) (for_children recurse res word children i).
Proof.
  revert i. induction children as [|child rest IH]; intros i H;
    cbn [for_children slots_size].
  - apply Calls_free. reflexivity.
  - assert (Hvisit : Calls 0 (match child with Some c => size c | None => 0 end)
                       (visit_child recurse res word i child)).
    { unfold visit_child.
      apply (Calls_bind (lo := 0) (hi := 0)); [apply Calls_free; reflexivity|].
      intros part. destruct child as [c|]; [|apply Calls_free; reflexivity].
      destruct (truthy part).
      - apply H. left. reflexivity.
      - apply Calls_weaken with (lo := 0) (hi := 0); [lia | lia |].
        apply Calls_free. reflexivity. }
    assert (Hrest : Calls 0 (slots_size rest)
                      (for_children recurse res word rest (S i))).
    { apply IH. intros c part Hin. apply H. right. exact Hin. }
    destruct child as [c|].
    + apply Calls_bind; [exact Hvisit | intros _; exact Hrest].
    + apply (Calls_bind (hi := 0)); [exact Hvisit | intros _; exact Hrest].
Qed.

(** A walk makes one call of the service for its own question, and its
    recursions at most one for each node below. *)
Lemma Calls_parse_word (node : Node) :
  forall word indent, Calls 1 (size node) (mwalk node word indent).
Proof.
  induction node as [t children IH] using Node_induction.
  intros word indent. rewrite size_eq, parse_word_eq.
  apply (Calls_then (lo := 0) (hi := 0) (lo' := 1)
           (hi' := S (slots_size children)));
    [intros st; eexists; reflexivity | apply Calls_free; reflexivity |].
  intros _.
  apply (Calls_then (lo := 0) (hi := 0) (lo' := 1)
           (hi' := S (slots_size children)));
    [intros st; eexists; reflexivity | apply Calls_free; reflexivity |].
  intros _.
  apply (Calls_bind (lo := 1) (hi := 1) (hi' := slots_size children));
    [apply Calls_request|].
  intros response.
  apply (Calls_bind (lo := 0) (hi := 0)).
  { apply (Calls_try_except (lo := 0) (hi := 0) (hi' := 0));
      [apply Calls_free; reflexivity|].
    intros e. apply Calls_invalid_handler. apply Calls_free. reflexivity. }
  intros res.
  apply (Calls_bind (lo := 0) (hi := 0)); [apply Calls_free; reflexivity|].
  intros _. apply Calls_for_children. intros c part Hin.
  apply Calls_weaken with (lo := 1) (hi := size c); [lia | lia |].
  apply (IH c Hin).
Qed.

Lemma Calls_for_words (tree : Node) (words : list str) :
  Calls 0 (List.length words * size tree)
    (for_words markup_error mcall json_loads tree words).
Proof.
  induction words as [|word rest IH]; cbn [for_words List.length Nat.mul].
  - apply Calls_free. reflexivity.
  - apply Calls_bind; [|intros _; exact IH].
    unfold parse_sentence_word.
    apply Calls_weaken with (lo := 0) (hi := size tree + 0 + 0); [lia | lia |].
    apply Calls_bind; [|intros _; apply Calls_free; reflexivity].
    apply Calls_try_except.
    + apply Calls_weaken with (lo := 1) (hi := size tree); [lia | lia |].
      apply Calls_parse_word.
    + intros e. apply Calls_print.
Qed.

(** ** The meter changes nothing *)

Lemma Unmetered_bind (A B : Type) (m' : M (nat * World) A) (m : M World A)
    (k' : A -> M (nat * World) B) (k : A -> M World B) :
  Unmetered m' m -> (forall a, Unmetered (k' a) (k a)) ->
  Unmetered (bind m' k') (bind m k).
Proof.
  intros Hm Hk st. unfold bind. destruct (Hm st) as [Hr Hs].
  destruct (m' st) as [[a|e] st1]; destruct (m (unmetered st)) as [[b|e'] st2];
    cbn [fst snd] in Hr, Hs; try discriminate.
  - injection Hr as <-. subst st2. apply Hk.
  - injection Hr as <-. subst st2. split; reflexivity.
Qed.

Lemma Unmetered_try_except (A : Type) (m' : M (nat * World) A)
    (m : M World A) (h' : exn -> M (nat * World) A) (h : exn -> M World A) :
  Unmetered m' m -> (forall e, Unmetered (h' e) (h e)) ->
  Unmetered (try_except m' h') (try_except m h).
Proof.
  intros Hm Hh st. unfold try_except. destruct (Hm st) as [Hr Hs].
  destruct (m' st) as [[a|e] st1]; destruct (m (unmetered st)) as [[b|e'] st2];
    cbn [fst snd] in Hr, Hs; try discriminate.
  - injection Hr as <-. subst st2. split; reflexivity.
  - injection Hr as <-. subst st2. apply Hh.
Qed.

Lemma Unmetered_ret (A : Type) (a : A) :
  Unmetered (ret (World := nat * World) a) (ret a).
Proof. intros st. split; reflexivity. Qed.

Lemma Unmetered_raise (A : Type) (e : exn) :
  Unmetered (raise (World := nat * World) (A := A) e) (raise e).
Proof. intros st. split; reflexivity. Qed.

Lemma Unmetered_lift (A : Type) (r : result A) :
  Unmetered (lift (World := nat * World) r) (lift r).
Proof. intros st. split; reflexivity. Qed.

Lemma Unmetered_file_write (s : str) :
  Unmetered (file_write (World := nat * World) s) (file_write s).
Proof. intros st. split; reflexivity. Qed.

Lemma Unmetered_on_queue (f : MessageQueue -> MessageQueue) :
  Unmetered (on_queue (World := nat * World) f) (on_queue f).
Proof. intros st. split; reflexivity. Qed.

Lemma Unmetered_print (s : str) :
  Unmetered (print (World := nat * World) markup_error s)
    (print markup_error s).
Proof.
  intros st. unfold print. destruct (markup_error s); split; reflexivity.
Qed.

Lemma Unmetered_register_response (completion : GenerationResponse) :
  Unmetered (register_response (World := nat * World) markup_error completion)
    (register_response markup_error completion).
Proof.
  unfold register_response.
  destruct (status_code completion =? HTTP_OK)%Z.
  - destruct (choices completion) as [|message rest];
      [apply Unmetered_raise|].
    apply Unmetered_bind; [apply Unmetered_on_queue|].
    intros _. destruct (choice_tool_calls message) as [[|call calls]|].
    + apply Unmetered_raise.
    + apply Unmetered_bind; [apply Unmetered_on_queue|].
      intros _. apply Unmetered_on_queue.
    + apply Unmetered_raise.
  - apply Unmetered_bind; [apply Unmetered_print|].
    intros _. apply Unmetered_on_queue.
Qed.

Lemma Unmetered_request (tool : model_class) :
  Unmetered (request markup_error mcall tool)
    (request markup_error Generation_call tool).
Proof.
  intros st. unfold request, metered. cbn [unmetered queue file console world].
  destruct (Generation_call (snd (world st)) (get_messages (queue st)) tool)
    as [completion w].
  assert (H : Unmetered
                (register_response (World := nat * World) markup_error
                   completion ;;
                 (fun st' => (Ok (argument (queue st')), st')))
                (register_response markup_error completion ;;
                 (fun st' => (Ok (argument (queue st')), st')))).
  { apply Unmetered_bind; [apply Unmetered_register_response|].
    intros _ st'. split; reflexivity. }
  exact (H (mkState (queue st) (file st) (console st) (S (fst (world st)), w))).
Qed.

Lemma Unmetered_for_children
    (recurse' : Node -> str -> M (nat * World) unit)
    (recurse : Node -> str -> M World unit) (res : WordResponse)
    (word : str) (children : list (option Node)) (i : nat) :
  (forall c part, In (Some c) children ->
                  Unmetered (recurse' c part) (recurse c part)) ->
  Unmetered (for_children recurse' res word children i)
    (for_children recurse res word children i).
Proof.
  revert i. induction children as [|child rest IH]; intros i H;
    cbn [for_children].
  - apply Unmetered_ret.
  - apply Unmetered_bind.
    + unfold visit_child. apply Unmetered_bind; [apply Unmetered_lift|].
      intros part. destruct child as [c|]; [|apply Unmetered_ret].
      destruct (truthy part); [|apply Unmetered_ret].
      apply H. left. reflexivity.
    + intros _. apply IH. intros c part Hin. apply H. right. exact Hin.
Qed.

Lemma Unmetered_parse_word (node : Node) :
  forall word indent,
    Unmetered (mwalk node word indent) (walk node word indent).
Proof.
  induction node as [t children IH] using Node_induction.
  intros word indent. rewrite !parse_word_eq.
  apply Unmetered_bind; [apply Unmetered_file_write|].
  intros _. apply Unmetered_bind; [apply Unmetered_on_queue|].
  intros _. apply Unmetered_bind; [apply Unmetered_request|].
  intros response. apply Unmetered_bind.
  { apply Unmetered_try_except; [apply Unmetered_lift|].
    intros e. apply Unmetered_bind; [apply Unmetered_print|].
    intros _. apply Unmetered_bind; [apply Unmetered_print|].
    intros _. apply Unmetered_raise. }
  intros res. apply Unmetered_bind; [apply Unmetered_file_write|].
  intros _. apply Unmetered_for_children.
  intros c part Hin. apply (IH c Hin).
Qed.

Lemma Unmetered_for_words (tree : Node) (words : list str) :
  Unmetered (for_words markup_error mcall json_loads tree words)
    (for_words markup_error Generation_call json_loads tree words).
Proof.
  induction words as [|word rest IH]; cbn [for_words].
  - apply Unmetered_ret.
  - apply Unmetered_bind; [|intros _; exact IH].
    unfold parse_sentence_word. apply Unmetered_bind.
    + apply Unmetered_try_except; [apply Unmetered_parse_word|].
      intros e. apply Unmetered_print.
    + intros _. apply Unmetered_file_write.
Qed.

(** X10. A walk asks at least one question and at most as many as its
    tree has nodes, 8 for the authored tree. Each question costs one
    request: against any answer service, with a meter in front of it, a
    walk makes at least one call of the service and at most as many as
    its tree has nodes, and the loop over [n] words at most [n] times
    that. The meter changes nothing else in the run. *)
Theorem walk_asks_at_most_size :
  size response_tree = 8 /\
  (forall node word indent st,
   exists entries,
     messages (queue (snd (walk node word indent st)))
     = messages (queue st) ++ entries /\
     exchanges entries /\
     1 <= questions entries <= size node) /\
  (forall tree words st,
   exists entries,
     messages (queue (snd (for_words markup_error Generation_call json_loads
                             tree words st)))
     = messages (queue st) ++ entries /\
     exchanges entries /\
     questions entries <= List.length words * size tree) /\
  (forall node word indent (st : State (nat * World)),
     calls_made st + 1
     <= calls_made (snd (parse_word markup_error (metered Generation_call)
                           json_loads node word indent st))
     <= calls_made st + size node) /\
  (forall tree words (st : State (nat * World)),
     calls_made st
     <= calls_made (snd (for_words markup_error (metered Generation_call)
                           json_loads tree words st))
     <= calls_made st + List.length words * size tree) /\
  (forall node word indent (st : State (nat * World)),
     fst (parse_word markup_error (metered Generation_call) json_loads
            node word indent st)
     = fst (walk node word indent (unmetered st)) /\
     unmetered (snd (parse_word markup_error (metered Generation_call)
                       json_loads node word indent st))
     = snd (walk node word indent (unmetered st))) /\
  (forall tree words (st : State (nat * World)),
     fst (for_words markup_error (metered Generation_call) json_loads
            tree words st)
     = fst (for_words markup_error Generation_call json_loads tree words
              (unmetered st)) /\
     unmetered (snd (for_words markup_error (metered Generation_call)
                       json_loads tree words st))
     = snd (for_words markup_error Generation_call json_loads tree words
              (unmetered st))).
Proof.
  split; [reflexivity|]. split; [|split; [|split; [|split; [|split]]]].
  - intros node word indent st.
    destruct (Talks_parse_word node word indent st) as (entries & Hm & Hx & Hq).
    destruct (parse_word_first_entry markup_error Generation_call json_loads
                node word indent st) as [others Hfirst].
    exists entries. split; [exact Hm|]. split; [exact Hx|]. split; [|exact Hq].
    rewrite Hm in Hfirst. apply app_inv_head in Hfirst. rewrite Hfirst.
    unfold questions. cbn. lia.
  - intros tree words st. exact (Talks_for_words tree words st).
  - intros node word indent st.
    pose proof (Calls_parse_word node word indent st) as H. lia.
  - intros tree words st.
    pose proof (Calls_for_words tree words st) as H. lia.
  - intros node word indent st. exact (Unmetered_parse_word node word indent st).
  - intros tree words st. exact (Unmetered_for_words tree words st).
Qed.

(** C8. The recursion of the walker follows the tree, which is finite:
    against any answer service, a walk makes one call of the service for
    each call of the walker, at least one and at most as many as its
    tree has nodes, 8 for the authored tree, whatever the answers; the
    meter that counts them changes nothing in the run. The authored tree
    has height 4, and every line the walk of a word writes belongs to a
    call of depth 0 to 4; in general the depths lie between the depth of
    the call and that depth plus the height of its node. After a
    validated answer the walk is the loop over the child slots of its
    node, slot [i] with index [i], in positional order; on a node with no
    more slots than its class has parts, as every node of the authored
    tree, it is the sequence of the recursions the spec describes, in the
    order of the slots. *)
Theorem walker_terminates_within_height :
  height response_tree = 4 /\
  size response_tree = 8 /\
  well_shaped response_tree = true /\
  (forall node word indent (st : State (nat * World)),
     calls_made st + 1
     <= calls_made (snd (parse_word markup_error (metered Generation_call)
                           json_loads node word indent st))
     <= calls_made st + size node /\
     fst (parse_word markup_error (metered Generation_call) json_loads
            node word indent st)
     = fst (walk node word indent (unmetered st)) /\
     unmetered (snd (parse_word markup_error (metered Generation_call)
                       json_loads node word indent st))
     = snd (walk node word indent (unmetered st))) /\
  (forall word st,
   exists chunks,
     file (snd (walk response_tree word 0 st)) = file st ++ chunks /\
     Forall (trace_chunk 0 4) chunks) /\
  (forall node word indent st,
   exists chunks,
     file (snd (walk node word indent st)) = file st ++ chunks /\
     Forall (trace_chunk indent (indent + height node)) chunks) /\
  (forall t children word indent st st2 completion w res,
     Generation_call (world st)
       (get_messages (register_user_message (queue st) (get_question t word)))
       (WordClass t) = (completion, w) ->
     register_response markup_error completion
       (mkState (register_user_message (queue st) (get_question t word))
          (file st ++ [word_line indent word]) (console st) w) = (Ok tt, st2) ->
     model_validate_json json_loads t (argument (queue st2)) = Ok res ->
     walk (mkNode t children) word indent st
     = fold_right
         (fun slot rest =>
            visit_child (fun c p => walk c p (indent + 1)) res word
              (fst slot) (snd slot) ;; rest)
         (ret tt) (enumerate 0 children)
         (mkState (queue st2) (file st2 ++ [answer_line indent res])
            (console st2) (world st2)) /\
     (well_shaped (mkNode t children) = true ->
      walk (mkNode t children) word indent st
      = in_sequence (fun c p => walk c p (indent + 1))
          (spec_recursions res word 0 children)
          (mkState (queue st2) (file st2 ++ [answer_line indent res])
             (console st2) (world st2)))).
Proof.
  assert (H : forall node word indent st,
             exists chunks,
               file (snd (walk node word indent st)) = file st ++ chunks /\
               Forall (trace_chunk indent (indent + height node)) chunks).
  { intros node word indent st.
    destruct (Extends_parse_word markup_error Generation_call json_loads
                node word indent st) as (_ & (chunks & Hf & HP) & _).
    exists chunks. split; assumption. }
  split; [reflexivity|]. split; [reflexivity|]. split; [reflexivity|].
  split; [|split; [|split; [exact H|]]].
  - intros node word indent st. split.
    + pose proof (Calls_parse_word node word indent st) as Hc. lia.
    + exact (Unmetered_parse_word node word indent st).
  - intros word st. exact (H response_tree word 0 st).
  - intros t children word indent st st2 completion w res Hcall Hreg Hval.
    split.
    + rewrite (@parse_word_valid World markup_error Generation_call json_loads
                 t children word indent st st2 completion w res
                 Hcall Hreg Hval).
      rewrite for_children_enumerate. reflexivity.
    + intros Hshape.
      exact (@parse_word_spec World markup_error Generation_call json_loads
               t children word indent st st2 completion w res
               Hshape Hcall Hreg Hval).
Qed.

Lemma Converses_of_Talks (A : Type) (n : nat) (m : M World A) :
  Talks n m -> Converses m.
Proof.
  intros H st. destruct (H st) as (entries & Hm & Hx & _).
  exists entries. split; assumption.
Qed.

Lemma Converses_bind (A B : Type) (m : M World A) (f : A -> M World B) :
  Converses m -> (forall a, Converses (f a)) -> Converses (bind m f).
Proof.
  intros Hm Hf st. unfold bind.
  destruct (Hm st) as (e1 & Hm1 & Hx1).
  destruct (m st) as [[a|e] st1]; cbn [snd] in Hm1 |- *.
  - destruct (Hf a st1) as (e2 & Hm2 & Hx2).
    exists (e1 ++ e2). rewrite Hm2, Hm1, <- app_assoc.
    split; [reflexivity | apply exchanges_app; assumption].
  - exists e1. split; assumption.
Qed.

(** X11. Among the entries a walk appends there is no system entry, and
    every tool entry comes right after the assistant entry whose first
    tool call it follows up, with the id and the function name of that
    call. The same holds for a sentence, whose conversation is the priming
    entry followed by such entries. *)
Theorem walk_entries_paired :
  (forall node word indent st,
   exists entries,
     messages (queue (snd (walk node word indent st)))
     = messages (queue st) ++ entries /\
     Forall (fun m => Message_role m <> SYSTEM) entries /\
     forall before after role content tool_calls id name,
       entries = before ++ mkToolMessage role content tool_calls id name :: after ->
       exists before' answer call calls,
         before = before' ++ [mkMessage ASSISTANT answer (Some (call :: calls))] /\
         role = TOOL /\ id = call_id call /\ name = function_name call) /\
  (forall sentence st,
   exists entries,
     messages (queue (snd (parse_sentence markup_error Generation_call json_loads sentence st)))
     = mkMessage SYSTEM system_message None :: entries /\
     Forall (fun m => Message_role m <> SYSTEM) entries /\
     forall before after role content tool_calls id name,
       entries = before ++ mkToolMessage role content tool_calls id name :: after ->
       exists before' answer call calls,
         before = before' ++ [mkMessage ASSISTANT answer (Some (call :: calls))] /\
         role = TOOL /\ id = call_id call /\ name = function_name call).
Proof.
  split.
  - intros node word indent st.
    destruct (Talks_parse_word node word indent st) as (entries & Hm & Hx & _).
    exists entries. split; [exact Hm|].
    split; [apply exchanges_no_system, Hx | apply exchanges_tool_follows, Hx].
  - intros sentence st.
    set (st4 := mkState
                  (register_user_message
                     (register_system_message new_queue system_message)
                     (get_question_message sentence))
                  (file st ++ [lit "Sentence: " ++ sentence ++ nl])
                  (console st) (world st)).
    assert (Hrun : parse_sentence markup_error Generation_call json_loads sentence st
                   = (response <- request markup_error Generation_call ListWordsResponse ;;
                      words <- try_except
                                 (lift (model_validate_json_words json_loads response))
                                 (fun _ => print markup_error response ;; print markup_error invalid_json ;;
                                           ret []) ;;
                      for_words markup_error Generation_call json_loads response_tree words)
                       st4) by reflexivity.
    match type of Hrun with
    | _ = ?K st4 => assert (HK : Converses K)
    end.
    { apply Converses_bind; [exact (Converses_of_Talks (Talks_request _))|].
      intros response. apply Converses_bind.
      - apply (Converses_of_Talks (n := 0 + 0)).
        apply Talks_try_except; [apply Talks_silent; reflexivity|].
        intros e. apply Talks_invalid_handler. apply Talks_silent. reflexivity.
      - intros words. exact (Converses_of_Talks (Talks_for_words _ words)). }
    destruct (HK st4) as (entries & Hm & Hx). rewrite <- Hrun in Hm.
    exists (mkMessage USER (user_frame (get_question_message sentence)) None
            :: entries).
    split; [rewrite Hm; reflexivity|].
    assert (Hall : exchanges
                     ([mkMessage USER (user_frame (get_question_message sentence))
                         None] ++ entries)).
    { constructor; [constructor | exact Hx]. }
    split; [apply exchanges_no_system, Hall | apply exchanges_tool_follows, Hall].
Qed.

(** X12. The list question is asked outside the handlers: when its request
    raises (as for a completion with the OK status and no choice), the
    exception leaves [parse_sentence] and the loop of [parse],
    with the header of that sentence written and the sentences after it
    untouched. *)
Theorem list_request_failure_stops_run (sentence : str) (rest : list str)
    (st st1 : State World) (e : exn) :
  ask_words markup_error Generation_call sentence st = (Raise e, st1) ->
  parse_sentence markup_error Generation_call json_loads sentence st = (Raise e, st1) /\
  parse markup_error Generation_call json_loads (sentence :: rest) st = (Raise e, st1) /\
  file st1 = file st ++ [lit "Sentence: " ++ sentence ++ nl].
Proof.
  intros Hask.
  assert (Hsentence : parse_sentence markup_error Generation_call json_loads sentence st
                      = (Raise e, st1)).
  { unfold parse_sentence. unfold bind at 1. rewrite Hask. reflexivity. }
  split; [exact Hsentence|]. split.
  - cbn [parse]. unfold bind at 1. rewrite Hsentence. reflexivity.
  - assert (Hrun : ask_words markup_error Generation_call sentence st
                   = request markup_error Generation_call ListWordsResponse
                       (mkState
                          (register_user_message
                             (register_system_message new_queue system_message)
                             (get_question_message sentence))
                          (file st ++ [lit "Sentence: " ++ sentence ++ nl])
                          (console st) (world st))) by reflexivity.
    rewrite Hrun in Hask.
    match type of Hask with
    | request _ _ ?tool ?s = _ =>
        pose proof (request_keeps_file markup_error Generation_call tool s) as Hk
    end.
    rewrite Hask in Hk. exact Hk.
Qed.

(** X13. The loop over the child slots stops at the first slot that
    raises: when the slots before it have returned and its own iteration
    raises, the loop raises that exception in the state that iteration
    left, whatever slots come after. *)
Theorem child_failure_stops_loop
    (recurse : Node -> str -> M World unit) (res : WordResponse) (word : str)
    (before : list (option Node)) (child : option Node)
    (after : list (option Node)) (i : nat) (st st1 st2 : State World)
    (e : exn) :
  for_children recurse res word before i st = (Ok tt, st1) ->
  visit_child recurse res word (i + List.length before) child st1
  = (Raise e, st2) ->
  for_children recurse res word (before ++ child :: after) i st
  = (Raise e, st2).
Proof.
  revert i st. induction before as [|b before IH]; intros i st Hbefore Hchild.
  - cbn in Hbefore. injection Hbefore as <-.
    rewrite Nat.add_0_r in Hchild.
    cbn [app for_children]. unfold bind at 1. rewrite Hchild. reflexivity.
  - cbn [app for_children] in Hbefore |- *. unfold bind at 1 in Hbefore.
    unfold bind at 1.
    destruct (visit_child recurse res word i b st) as [[[]|e'] st'];
      [|discriminate].
    apply IH; [exact Hbefore|].
    cbn [List.length] in Hchild. rewrite <- Nat.add_succ_comm in Hchild.
    exact Hchild.
Qed.
End MoreFacts.

Lemma walk_entries_paired_witness :
  exists before' answer call calls,
    [mkMessage USER
       (user_frame (get_question PrefixedAnalyticalWordResponse word_mshkhyn))
       None;
     mkMessage ASSISTANT []
       (Some [mkToolCall (lit "call_0") (lit "response") (lit "no words")])]
    = before' ++ [mkMessage ASSISTANT answer (Some (call :: calls))] /\
    TOOL = TOOL /\ lit "call_0" = call_id call /\
    lit "response" = function_name call.
Proof.
  destruct (proj1 (walk_entries_paired script_markup_error script_call script_json_loads)
              response_tree word_mshkhyn 0 (start script_not_json))
    as (entries & Hm & _ & Hpair).
  vm_compute in Hm. subst entries.
  exact (Hpair
           [mkMessage USER
              (user_frame
                 (get_question PrefixedAnalyticalWordResponse word_mshkhyn))
              None;
            mkMessage ASSISTANT []
              (Some [mkToolCall (lit "call_0") (lit "response")
                       (lit "no words")])]
           [] TOOL [] None (lit "call_0") (lit "response") eq_refl).
Defined.

Lemma list_request_failure_stops_run_witness :
  exists st1,
    ask_words script_markup_error script_call sentence_wmshkhynn (start script_no_choice)
    = (Raise IndexError, st1) /\
    parse script_markup_error script_call script_json_loads [sentence_wmshkhynn; word_mshkhyn]
      (start script_no_choice) = (Raise IndexError, st1).
Proof.
  exists (snd (ask_words script_markup_error script_call sentence_wmshkhynn (start script_no_choice))).
  assert (Hask : ask_words script_markup_error script_call sentence_wmshkhynn (start script_no_choice)
                 = (Raise IndexError,
                    snd (ask_words script_markup_error script_call sentence_wmshkhynn
                           (start script_no_choice))))
    by (vm_compute; reflexivity).
  split; [exact Hask|].
  exact (proj1 (proj2 (list_request_failure_stops_run script_markup_error script_call
                         script_json_loads sentence_wmshkhynn [word_mshkhyn]
                         (start script_no_choice) Hask))).
Defined.

Lemma child_failure_stops_loop_witness :
  for_children
    (fun c p => parse_word script_markup_error script_call script_json_loads c p 1)
    (mkPrefixedAnalyticalWord None) word_mshkhyn
    ([None] ++ Some (mkNode MorphemeTypeResponse [])
            :: [Some (mkNode MorphemeTypeResponse [])]) 0 (start [])
  = (Raise ValidationError,
     snd (parse_word script_markup_error script_call script_json_loads
            (mkNode MorphemeTypeResponse []) word_mshkhyn 1 (start []))).
Proof.
  apply (child_failure_stops_loop
           (fun c p => parse_word script_markup_error script_call script_json_loads c p 1)
           (mkPrefixedAnalyticalWord None) word_mshkhyn [None]
           (Some (mkNode MorphemeTypeResponse []))
           [Some (mkNode MorphemeTypeResponse [])] 0 (start [])
           (st1 := start [])).
  - reflexivity.
  - vm_compute. reflexivity.
Defined.

(* ===================================================================== *)
(** * The schemas of the tools *)
(* ===================================================================== *)

Lemma str_eqb_eq (a b : str) : str_eqb a b = true <-> a = b.
Proof.
  unfold str_eqb. destruct (list_eq_dec N.eq_dec a b); split; intros H;
    try reflexivity; try assumption; try discriminate; contradiction.
Qed.

Lemma str_eqb_refl (a : str) : str_eqb a a = true.
Proof. apply str_eqb_eq. reflexivity. Qed.

Lemma str_eqb_neq (a b : str) : str_eqb a b = false <-> a <> b.
Proof.
  split.
  - intros H E. apply str_eqb_eq in E. congruence.
  - intros H. destruct (str_eqb a b) eqn:E; [|reflexivity].
    apply str_eqb_eq in E. contradiction.
Qed.

Lemma has_key_app (key : str) (a b : list (str * json)) :
  has_key key (a ++ b) = has_key key a || has_key key b.
Proof. unfold has_key. apply existsb_app. Qed.

Lemma member_app (key : str) (a b : list (str * json)) :
  member key (a ++ b)
  = match member key a with
    | Some v => Some v
    | None => member key b
    end.
Proof.
  induction a as [|[k' v'] a IH]; cbn [app member]; [reflexivity|].
  destruct (str_eqb k' key); [reflexivity | exact IH].
Qed.

Lemma has_key_member (key : str) (d : list (str * json)) :
  has_key key d = false <-> member key d = None.
Proof.
  induction d as [|[k' v'] d IH]; cbn [has_key existsb member fst].
  - split; reflexivity.
  - destruct (str_eqb k' key); cbn [orb]; [split; discriminate | exact IH].
Qed.

Lemma member_dict_del_same (key : str) (d : list (str * json)) :
  member key (dict_del key d) = None.
Proof.
  induction d as [|[k' v'] d IH]; cbn [dict_del List.filter fst member];
    [reflexivity|].
  destruct (str_eqb k' key) eqn:E; cbn [negb]; [exact IH|].
  cbn [member]. rewrite E. exact IH.
Qed.

Lemma member_dict_del_other (key key' : str) (d : list (str * json)) :
  key <> key' -> member key (dict_del key' d) = member key d.
Proof.
  intros Hne. induction d as [|[k' v'] d IH];
    cbn [dict_del List.filter fst member]; [reflexivity|].
  destruct (str_eqb k' key') eqn:E; cbn [negb].
  - apply str_eqb_eq in E. subst k'.
    destruct (str_eqb key' key) eqn:E'; [|exact IH].
    apply str_eqb_eq in E'. congruence.
  - cbn [member]. destruct (str_eqb k' key); [reflexivity | exact IH].
Qed.

Lemma json_object_induction (P : json -> Prop) :
  (forall d,
     (forall members key v, d = JObject members -> In (key, v) members -> P v) ->
     P d) ->
  forall d, P d.
Proof.
  intros step. fix IH 1. intros d. apply step.
  intros members key v E Hin. destruct d as [| | | | |ms]; try discriminate.
  injection E as <-. induction ms as [|[k' v'] ms IHms].
  - destruct Hin.
  - destruct Hin as [E|Hin].
    + injection E as _ <-. apply IH.
    + apply IHms, Hin.
Qed.

Section PurgeFacts.
Variable purge : json -> json.
Variable k : list str.

Local Abbreviation loop := (purge_loop purge k).
Local Abbreviation purged := (fun kv : str * json => (fst kv, purge (snd kv))).

(** A key outside [k] is never deleted, and what it holds is purged. *)
Lemma purge_loop_member (key : str) :
  existsb (str_eqb key) k = false ->
  forall todo kept,
    member key (loop kept todo)
    = match member key kept with
      | Some v => Some v
      | None => option_map purge (member key todo)
      end.
Proof.
  intros Hkey. induction todo as [|[key' v] rest IH]; intros kept.
  - cbn [purge_loop member option_map]. destruct (member key kept); reflexivity.
  - cbn [purge_loop member].
    destruct (existsb (str_eqb key') k
              && has_key (lit "type") (kept ++ (key', v) :: rest)) eqn:Htest.
    + apply andb_true_iff in Htest. destruct Htest as [Hin _].
      assert (Hne : str_eqb key' key = false).
      { apply str_eqb_neq. intros E. subst key'. congruence. }
      rewrite Hne. apply IH.
    + rewrite IH, member_app. cbn [member].
      destruct (member key kept); [reflexivity|].
      destruct (str_eqb key' key); reflexivity.
Qed.

(** The keys left, when [type] is not among the keys to purge. *)
Lemma purge_loop_keys :
  existsb (str_eqb (lit "type")) k = false ->
  forall todo kept,
    List.map fst (loop kept todo)
    = List.map fst kept
      ++ (if has_key (lit "type") (kept ++ todo)
          then List.filter (fun key => negb (existsb (str_eqb key) k))
                 (List.map fst todo)
          else List.map fst todo).
Proof.
  intros Htype. induction todo as [|[key v] rest IH]; intros kept.
  - cbn [purge_loop List.map List.filter].
    destruct (has_key _ _); symmetry; apply app_nil_r.
  - cbn [purge_loop].
    assert (Hsame : has_key (lit "type") ((kept ++ [(key, purge v)]) ++ rest)
                    = has_key (lit "type") (kept ++ (key, v) :: rest)).
    { rewrite <- app_assoc. cbn [app]. rewrite !has_key_app. reflexivity. }
    destruct (existsb (str_eqb key) k) eqn:Hin; cbn [andb].
    + destruct (has_key (lit "type") (kept ++ (key, v) :: rest)) eqn:HT.
      * rewrite IH. cbn [List.map List.filter fst]. rewrite Hin. cbn [negb].
        assert (Hrest : has_key (lit "type") (kept ++ rest) = true).
        { rewrite has_key_app in HT |- *. cbn [has_key existsb fst] in HT.
          assert (Hne : str_eqb key (lit "type") = false).
          { apply str_eqb_neq. intros E. subst key. congruence. }
          rewrite Hne in HT. exact HT. }
        rewrite Hrest. reflexivity.
      * rewrite IH, Hsame, ?HT, map_app, <- app_assoc. reflexivity.
    + rewrite IH, Hsame, map_app, <- app_assoc.
      destruct (has_key (lit "type") (kept ++ (key, v) :: rest));
        cbn [List.map List.filter fst app]; [rewrite Hin|]; reflexivity.
Qed.

(** Where nothing can be deleted the loop only purges the values. *)
Lemma purge_loop_settled (todo kept : list (str * json)) :
  forallb (fun kv => negb (existsb (str_eqb (fst kv)) k)) (kept ++ todo) = true
  \/ has_key (lit "type") (kept ++ todo) = false ->
  loop kept todo = kept ++ List.map purged todo.
Proof.
  revert kept. induction todo as [|[key v] rest IH]; intros kept H.
  - cbn [purge_loop List.map]. symmetry. apply app_nil_r.
  - cbn [purge_loop].
    assert (Htest : existsb (str_eqb key) k
                    && has_key (lit "type") (kept ++ (key, v) :: rest) = false).
    { destruct H as [H|H].
      - rewrite forallb_app in H. apply andb_true_iff in H. destruct H as [_ H].
        cbn [forallb fst] in H. apply andb_true_iff in H. destruct H as [H _].
        apply negb_true_iff in H. rewrite H. reflexivity.
      - rewrite H. apply andb_false_r. }
    rewrite Htest, IH.
    + rewrite <- app_assoc. reflexivity.
    + rewrite <- app_assoc. cbn [app].
      destruct H as [H|H]; [left | right].
      * rewrite forallb_app in H |- *. exact H.
      * rewrite has_key_app in H |- *. exact H.
Qed.

Lemma has_key_purged (key : str) (d : list (str * json)) :
  has_key key (List.map purged d) = has_key key d.
Proof.
  induction d as [|[key' v] rest IH]; [reflexivity|].
  cbn [List.map has_key existsb fst snd]. f_equal. exact IH.
Qed.

Lemma purge_loop_no_type (todo kept : list (str * json)) :
  has_key (lit "type") (kept ++ todo) = false ->
  has_key (lit "type") (loop kept todo) = false.
Proof.
  intros H. rewrite purge_loop_settled by (right; exact H).
  rewrite has_key_app in H |- *. apply orb_false_iff in H. destruct H as [H1 H2].
  rewrite H1. cbn [orb]. rewrite has_key_purged. exact H2.
Qed.

(** What the loop leaves has no key to purge, or no [type] key. *)
Lemma purge_loop_result (todo kept : list (str * json)) :
  forallb (fun kv => negb (existsb (str_eqb (fst kv)) k)) kept = true ->
  forallb (fun kv => negb (existsb (str_eqb (fst kv)) k)) (loop kept todo) = true
  \/ has_key (lit "type") (loop kept todo) = false.
Proof.
  revert kept. induction todo as [|[key v] rest IH]; intros kept Hkept.
  - left. exact Hkept.
  - destruct (has_key (lit "type") (kept ++ (key, v) :: rest)) eqn:HT.
    + cbn [purge_loop]. rewrite HT, andb_true_r.
      destruct (existsb (str_eqb key) k) eqn:Hin.
      * apply IH. exact Hkept.
      * apply IH. rewrite forallb_app, Hkept. cbn [forallb fst].
        rewrite Hin. reflexivity.
    + right. apply purge_loop_no_type. exact HT.
Qed.

Lemma purge_loop_fixed (todo kept : list (str * json)) :
  (forall key v, In (key, v) todo -> purge (purge v) = purge v) ->
  Forall (fun kv => purge (snd kv) = snd kv) kept ->
  Forall (fun kv => purge (snd kv) = snd kv) (loop kept todo).
Proof.
  revert kept. induction todo as [|[key v] rest IH]; intros kept Htodo Hkept.
  - exact Hkept.
  - cbn [purge_loop].
    destruct (existsb (str_eqb key) k && has_key _ _).
    + apply IH; [|exact Hkept]. intros key' v' Hin. apply (Htodo key' v').
      right. exact Hin.
    + apply IH.
      * intros key' v' Hin. apply (Htodo key' v'). right. exact Hin.
      * apply Forall_app. split; [exact Hkept|]. constructor; [|constructor].
        cbn [snd]. apply (Htodo key v). left. reflexivity.
Qed.
End PurgeFacts.

(** X14. [purge_keys] leaves alone what is not a dictionary, a list
    included, so the dictionaries inside a list are not purged; and in a
    dictionary it never deletes a key outside [k]: after the purge such a
    key holds the purge of what it held. *)
Theorem purge_keys_other_keys (k : list str) :
  (forall items, purge_keys (JArray items) k = JArray items) /\
  (forall s, purge_keys (JString s) k = JString s) /\
  (forall members key,
     existsb (str_eqb key) k = false ->
     exists left,
       purge_keys (JObject members) k = JObject left /\
       member key left
       = option_map (fun v => purge_keys v k) (member key members)).
Proof.
  split; [reflexivity|]. split; [reflexivity|].
  intros members key Hkey.
  exists (purge_loop (fun v => purge_keys v k) k [] members).
  split; [reflexivity|].
  rewrite (purge_loop_member (fun v => purge_keys v k) k key Hkey members []).
  reflexivity.
Qed.

(** X15. With [type] not among the keys to purge: a dictionary with a
    [type] key loses exactly its keys in [k], the others staying in
    order; a dictionary without a [type] key keeps all its keys, those in
    [k] too. *)
Theorem purge_keys_keys (k : list str) (members : list (str * json)) :
  existsb (str_eqb (lit "type")) k = false ->
  exists left,
    purge_keys (JObject members) k = JObject left /\
    List.map fst left
    = if has_key (lit "type") members
      then List.filter (fun key => negb (existsb (str_eqb key) k))
             (List.map fst members)
      else List.map fst members.
Proof.
  intros Htype. exists (purge_loop (fun v => purge_keys v k) k [] members).
  split; [reflexivity|].
  exact (purge_loop_keys (fun v => purge_keys v k) k Htype members []).
Qed.

(** X16. Purging twice is purging once. *)
Theorem purge_keys_idempotent (k : list str) (d : json) :
  purge_keys (purge_keys d k) k = purge_keys d k.
Proof.
  induction d as [d IH] using json_object_induction.
  destruct d as [| | | | |members]; try reflexivity.
  cbn [purge_keys]. f_equal.
  set (P := fun v => purge_keys v k).
  set (r := purge_loop P k [] members).
  assert (Hfixed : Forall (fun kv => P (snd kv) = snd kv) r).
  { apply purge_loop_fixed; [|constructor].
    intros key v Hin. exact (IH members key v eq_refl Hin). }
  rewrite purge_loop_settled.
  - cbn [app]. clear -Hfixed. induction Hfixed as [|[key v] r Hv _ IHr];
      [reflexivity|].
    cbn [List.map fst snd] in Hv |- *. rewrite Hv, IHr. reflexivity.
  - cbn [app]. apply purge_loop_result. reflexivity.
Qed.

Lemma purge_keys_keys_witness :
  existsb (str_eqb (lit "type")) purged_keys = false /\
  exists left,
    purge_keys (JObject (example_schema ListWordsResponse)) purged_keys
    = JObject left /\
    List.map fst left
    = [lit "additionalProperties"; lit "description"; lit "properties";
       lit "required"; lit "type"].
Proof.
  split; [reflexivity|].
  exact (purge_keys_keys purged_keys (example_schema ListWordsResponse) eq_refl).
Defined.

Lemma purge_keys_other_keys_witness :
  existsb (str_eqb (lit "properties")) purged_keys = false /\
  exists left,
    purge_keys (JObject (example_schema ListWordsResponse)) purged_keys
    = JObject left /\
    member (lit "properties") left
    = option_map (fun v => purge_keys v purged_keys)
        (member (lit "properties") (example_schema ListWordsResponse)).
Proof.
  split; [reflexivity|].
  exact (proj2 (proj2 (purge_keys_other_keys purged_keys))
           (example_schema ListWordsResponse) (lit "properties") eq_refl).
Defined.

Lemma model_class_eq_dec (a b : model_class) : {a = b} + {a <> b}.
Proof. decide equality. decide equality. Defined.

Lemma model_name_injective (a b : model_class) :
  model_name a = model_name b -> a = b.
Proof.
  destruct a as [|[]], b as [|[]]; intros H; try reflexivity;
    vm_compute in H; discriminate H.
Qed.

Lemma dict_set_member (key x : str) (v : json) (d : list (str * json)) :
  member x (dict_set key v d)
  = if str_eqb key x then Some v else member x d.
Proof.
  induction d as [|[k' v'] d IH]; cbn [dict_set member]; [reflexivity|].
  destruct (str_eqb k' key) eqn:E; cbn [member].
  - apply str_eqb_eq in E. subst k'. destruct (str_eqb key x); reflexivity.
  - rewrite IH. destruct (str_eqb k' x) eqn:E'; [|reflexivity].
    apply str_eqb_eq in E'. subst k'. apply str_eqb_neq in E.
    assert (Hne : str_eqb key x = false).
    { apply str_eqb_neq. intros H. apply E. symmetry. exact H. }
    rewrite Hne. reflexivity.
Qed.

Section SchemaFacts.
Variable str_lower : str -> str.
Variable model_json_schema : model_class -> list (str * json).

Local Abbreviation tool_of := (pydantic_function_tool str_lower model_json_schema).
Local Abbreviation purge_value := (fun v : json => purge_keys v purged_keys).

Lemma json_schema_member (model : model_class) (key : str) :
  existsb (str_eqb key) purged_keys = false ->
  key <> lit "$defs" ->
  member key (json_schema model_json_schema model)
  = option_map purge_value (member key (model_json_schema model)).
Proof.
  intros Hkey Hdefs. unfold json_schema.
  rewrite (purge_loop_member purge_value purged_keys key Hkey). cbn [member].
  destruct (has_key (lit "$defs") (model_json_schema model)); [|reflexivity].
  rewrite member_dict_del_other by exact Hdefs. reflexivity.
Qed.

Lemma json_schema_no_defs (model : model_class) :
  member (lit "$defs") (json_schema model_json_schema model) = None.
Proof.
  unfold json_schema.
  rewrite (purge_loop_member purge_value purged_keys (lit "$defs") eq_refl).
  cbn [member].
  destruct (has_key (lit "$defs") (model_json_schema model)) eqn:H.
  - rewrite member_dict_del_same. reflexivity.
  - apply has_key_member in H. rewrite H. reflexivity.
Qed.

(** X17. [pydantic_function_tool] fails, with the [KeyError] of its
    [pop], exactly when the schema of the class has no [description]
    (purging never deletes that key). Otherwise the tool is a function
    tool, strict, named by the given name or else by [get_name]; its
    description is the purged description of the schema, and its
    parameters are the purged schema without the keys [description] and
    [$defs]: every other key that is not purged is there, holding the
    purge of what it held. *)
Theorem pydantic_function_tool_spec (model : model_class) (name : option str) :
  match member (lit "description") (model_json_schema model) with
  | None => tool_of model name = None
  | Some description =>
      exists parameters,
        tool_of model name
        = Some (JObject
                  [(lit "type", JString (lit "function"));
                   (lit "function",
                    JObject
                      [(lit "name",
                        JString (or_else name
                                   (get_name str_lower model)));
                       (lit "strict", JBool true);
                       (lit "description", purge_keys description purged_keys);
                       (lit "parameters", JObject parameters)])]) /\
        member (lit "description") parameters = None /\
        member (lit "$defs") parameters = None /\
        forall key,
          existsb (str_eqb key)
            [lit "title"; lit "default"; lit "description"; lit "$defs"] = false ->
          member key parameters
          = option_map purge_value (member key (model_json_schema model))
  end.
Proof.
  pose proof (@json_schema_member model (lit "description") eq_refl) as Hd.
  assert (Hne : lit "description" <> lit "$defs") by discriminate.
  specialize (Hd Hne). unfold pydantic_function_tool.
  destruct (member (lit "description") (model_json_schema model))
    as [description|]; rewrite Hd; cbn [option_map]; [|reflexivity].
  eexists. split; [reflexivity|]. split; [apply member_dict_del_same|].
  split.
  - rewrite member_dict_del_other by discriminate. apply json_schema_no_defs.
  - intros key Hkey. cbn [existsb] in Hkey.
    apply orb_false_iff in Hkey. destruct Hkey as [Htitle Hkey].
    apply orb_false_iff in Hkey. destruct Hkey as [Hdefault Hkey].
    apply orb_false_iff in Hkey. destruct Hkey as [Hdescription Hkey].
    apply orb_false_iff in Hkey. destruct Hkey as [Hdefs _].
    apply str_eqb_neq in Hdescription. apply str_eqb_neq in Hdefs.
    rewrite member_dict_del_other by exact Hdescription.
    apply json_schema_member; [|exact Hdefs].
    unfold purged_keys. cbn [existsb]. rewrite Htitle, Hdefault. reflexivity.
Qed.

Lemma Client_tools_lookup (tools : list model_class) :
  forall built table,
    Client_tools str_lower model_json_schema tools built = Some table ->
    forall model,
      (In model tools ->
       member (model_name model) table = tool_of model None) /\
      (~ In model tools ->
       member (model_name model) table = member (model_name model) built).
Proof.
  induction tools as [|tool rest IH]; intros built table H model.
  - cbn in H. injection H as <-. split; [intros [] | reflexivity].
  - cbn [Client_tools] in H.
    destruct (tool_of tool None) as [t|] eqn:Htool; [|discriminate].
    destruct (IH _ _ H model) as [IHin IHout].
    assert (Hnew : ~ In model rest -> model = tool ->
                   member (model_name model) table = tool_of model None).
    { intros Hrest ->. rewrite (IHout Hrest), dict_set_member, str_eqb_refl.
      symmetry. exact Htool. }
    split.
    + intros Hin. destruct (in_dec model_class_eq_dec model rest) as [Hr|Hr];
        [exact (IHin Hr)|].
      destruct Hin as [E|Hin]; [|contradiction].
      apply Hnew; [exact Hr | symmetry; exact E].
    + intros Hout. rewrite IHout by (intros Hr; apply Hout; right; exact Hr).
      rewrite dict_set_member.
      destruct (str_eqb (model_name tool) (model_name model)) eqn:E;
        [|reflexivity].
      apply str_eqb_eq, model_name_injective in E. exfalso. apply Hout.
      left. exact E.
Qed.

Lemma Client_tools_built (tools : list model_class) :
  (forall model, In model tools -> tool_of model None <> None) ->
  forall built,
  exists table, Client_tools str_lower model_json_schema tools built = Some table.
Proof.
  induction tools as [|tool rest IH]; intros H built.
  - exists built. reflexivity.
  - cbn [Client_tools].
    destruct (tool_of tool None) as [t|] eqn:Htool.
    + apply IH. intros model Hin. apply H. right. exact Hin.
    + exfalso. apply (H tool); [left; reflexivity | exact Htool].
Qed.

(** X18. When the schema of every class has a description, the client
    builds its table of tools from [registered_responses], and every
    class a request can name, the list class and the five classes of the
    tree, finds its own tool there. Where [lower()] lowers the letters of
    an ASCII name, the function name put in [tool_choice] is the snake
    case of the class name, and two classes never share it. *)
Theorem registered_tools_found :
  (forall model, member (lit "description") (model_json_schema model) <> None) ->
  (forall s, forallb (fun c => (c <? 128)%N) s = true ->
             str_lower s = ascii_lower s) ->
  exists table,
    Client_tools str_lower model_json_schema registered_responses [] = Some table /\
    (forall model,
       In model registered_responses /\
       member (model_name model) table = tool_of model None /\
       tool_choice_name table model
       = Some (JString (ascii_lower (pattern_sub (model_name model))))) /\
    (forall a b,
       tool_choice_name table a = tool_choice_name table b -> a = b).
Proof.
  intros Hdesc Hlower.
  assert (Hall : forall model, In model registered_responses).
  { intros [|[]]; cbn; auto 10. }
  assert (Htool : forall model,
             exists parameters description,
               tool_of model None
               = Some (JObject
                         [(lit "type", JString (lit "function"));
                          (lit "function",
                           JObject
                             [(lit "name",
                               JString (ascii_lower
                                          (pattern_sub (model_name model))));
                              (lit "strict", JBool true);
                              (lit "description", description);
                              (lit "parameters", JObject parameters)])])).
  { intros model. pose proof (pydantic_function_tool_spec model None) as H.
    destruct (member (lit "description") (model_json_schema model))
      as [description|] eqn:Hd; [|exfalso; exact (Hdesc model Hd)].
    destruct H as (parameters & H & _).
    exists parameters, (purge_keys description purged_keys). rewrite H.
    cbn [or_else]. unfold get_name. rewrite Hlower; [reflexivity|].
    destruct model as [|[]]; reflexivity. }
  destruct (Client_tools_built registered_responses) with (built := @nil (str * json))
    as [table Htable].
  { intros model _. destruct (Htool model) as (p & d & H). rewrite H. discriminate. }
  assert (Hchoice : forall model,
             tool_choice_name table model
             = Some (JString (ascii_lower (pattern_sub (model_name model))))).
  { intros model. unfold tool_choice_name.
    rewrite (proj1 (Client_tools_lookup _ _ Htable model) (Hall model)).
    destruct (Htool model) as (p & d & H). rewrite H. reflexivity. }
  exists table. split; [exact Htable|]. split.
  - intros model. split; [apply Hall|]. split; [|apply Hchoice].
    exact (proj1 (Client_tools_lookup _ _ Htable model) (Hall model)).
  - intros a b. rewrite !Hchoice. intros H. injection H as H.
    destruct a as [|[]], b as [|[]]; try reflexivity;
      vm_compute in H; discriminate H.
Qed.
End SchemaFacts.

Lemma pydantic_function_tool_spec_witness :
  existsb (str_eqb (lit "properties"))
    [lit "title"; lit "default"; lit "description"; lit "$defs"] = false /\
  exists parameters,
    pydantic_function_tool ascii_lower example_schema
      (WordClass PrefixedAnalyticalWordResponse) None
    = Some (JObject
              [(lit "type", JString (lit "function"));
               (lit "function",
                JObject
                  [(lit "name", JString (lit "prefixed_analytical_word_response"));
                   (lit "strict", JBool true);
                   (lit "description",
                    JString (lit "Any prefixed analytical word of the word"));
                   (lit "parameters", JObject parameters)])]) /\
    member (lit "properties") parameters
    = option_map (fun v => purge_keys v purged_keys)
        (member (lit "properties")
           (example_schema (WordClass PrefixedAnalyticalWordResponse))).
Proof.
  split; [reflexivity|].
  destruct (pydantic_function_tool_spec ascii_lower example_schema
              (WordClass PrefixedAnalyticalWordResponse) None)
    as (parameters & Htool & _ & _ & Hkeys).
  exists parameters. split; [exact Htool|].
  exact (Hkeys (lit "properties") eq_refl).
Defined.

Lemma registered_tools_found_witness :
  (forall model, member (lit "description") (example_schema model) <> None) /\
  exists table,
    Client_tools ascii_lower example_schema registered_responses [] = Some table /\
    tool_choice_name table (WordClass MorphemeTypeResponse)
    = Some (JString (lit "morpheme_type_response")).
Proof.
  assert (Hdesc : forall model,
             member (lit "description") (example_schema model) <> None)
    by (intros model; discriminate).
  split; [exact Hdesc|].
  destruct (registered_tools_found ascii_lower example_schema Hdesc
              (fun s _ => eq_refl))
    as (table & Htable & Hfound & _).
  exists table. split; [exact Htable|].
  exact (proj2 (proj2 (Hfound (WordClass MorphemeTypeResponse)))).
Defined.

(* ===================================================================== *)
(** * The trace of a walk that returns *)
(* ===================================================================== *)

(** X19. A walk that returns normally has written, right after its word
    line, the answer line of a validated answer of the class of its node,
    one level deeper; a word line that no answer line follows is a walk
    that failed at its own question. *)
Theorem walk_ok_writes_answer (World : Type)
    (markup_error : str -> bool)
    (Generation_call :
       World -> list ChatCompletionMessageParam -> model_class ->
       GenerationResponse * World)
    (json_loads : str -> option json)
    (t : response_type) (children : list (option Node)) (word : str)
    (indent : nat) (st st' : State World) :
  parse_word markup_error Generation_call json_loads (mkNode t children) word indent st
  = (Ok tt, st') ->
  exists res chunks,
    class_of res = t /\
    file st'
    = file st ++ word_line indent word :: answer_line indent res :: chunks.
Proof.
  intros H. rewrite parse_word_eq in H.
  unfold bind at 1 2 3 in H. cbn [file_write on_queue] in H.
  match type of H with
  | context [request markup_error Generation_call ?tool ?s] =>
      pose proof (request_keeps_file markup_error Generation_call tool s) as Hfile;
      destruct (request markup_error Generation_call tool s) as [[response|e] st2]
  end; [|discriminate].
  cbn [snd file] in Hfile.
  unfold bind at 1, try_except, lift in H.
  destruct (model_validate_json json_loads t response) as [res|e] eqn:Hval.
  - unfold bind at 1 in H. cbn [file_write] in H.
    match type of H with
    | for_children ?rec ?r ?w ?cs ?i ?s = _ =>
        assert (Hext : Extends (fun _ => True) (for_children rec r w cs i));
        [|destruct (Hext s) as (_ & (chunks & Hchunks & _) & _)]
    end.
    { apply Extends_for_children. intros c part _.
      eapply Extends_weaken; [|apply Extends_parse_word]. intros; exact I. }
    rewrite H in Hchunks. cbn [snd file] in Hchunks.
    exists res, chunks. split.
    + unfold model_validate_json in Hval.
      destruct (json_loads response) as [v|]; [|discriminate].
      exact (model_validate_class _ _ Hval).
    + rewrite Hchunks, Hfile, <- !app_assoc. reflexivity.
  - unfold bind, print, raise in H.
    destruct (markup_error response); [discriminate|].
    destruct (markup_error invalid_json); discriminate.
Qed.

(** The first question of the priming run. *)
Lemma walk_ok_writes_answer_witness :
  exists res chunks,
    class_of res = MorphemeTypeResponse /\
    file (snd (parse_word script_markup_error script_call script_json_loads
                 (mkNode MorphemeTypeResponse []) [mim] 4
                 (start [tool_answer (object1 "morpheme_type"
                                        (quoted (lit "performative")))])))
    = [] ++ word_line 4 [mim] :: answer_line 4 res :: chunks.
Proof.
  apply (walk_ok_writes_answer script_markup_error script_call script_json_loads
           MorphemeTypeResponse [] [mim] 4
           (start [tool_answer (object1 "morpheme_type"
                                  (quoted (lit "performative")))])).
  vm_compute. reflexivity.
Defined.

(* ===================================================================== *)
(** * Further instances *)
(* ===================================================================== *)

(** A suffix one character longer than the word. *)
Lemma pronoun_stem_exact_witness :
  get_part (mkSuffixedPronoun (Some (lit "abcd"))) (lit "abc") 0
  = Ok (lit "ab").
Proof.
  exact (proj1 (pronoun_stem_exact (Some (lit "abcd")) (lit "abc"))).
Defined.

Lemma get_question_injective_witness :
  get_question (class_of (mkCompleteForm [])) ([mim] ++ [shin])
  = get_question CompleteFormResponse [mim; shin] /\
  class_of (mkCompleteForm []) = CompleteFormResponse /\
  [mim] ++ [shin] = [mim; shin].
Proof.
  split; [reflexivity|].
  apply (get_question_injective (class_of (mkCompleteForm []))
           CompleteFormResponse ([mim] ++ [shin]) [mim; shin]).
  reflexivity.
Defined.

(** Two conversation objects with the same entries and different
    payloads. *)
Lemma get_messages_injective_witness :
  get_messages (register_user_message new_queue [mim])
  = get_messages
      (mkMessageQueue (messages (register_user_message new_queue [mim]))
         (lit "x")) /\
  messages (register_user_message new_queue [mim])
  = messages
      (mkMessageQueue (messages (register_user_message new_queue [mim]))
         (lit "x")).
Proof.
  split; [reflexivity|].
  apply (get_messages_injective
           (register_user_message new_queue [mim])
           (mkMessageQueue (messages (register_user_message new_queue [mim]))
              (lit "x"))).
  reflexivity.
Defined.

(** The node with three child slots, on the word of the example: after
    its answer the walk is the walk of the prefix, then of the middle,
    then of the suffix; it makes four calls of the service. *)
Lemma walker_terminates_within_height_witness :
  (well_shaped morpheme_node = true /\
   model_validate_json script_json_loads PrefixedSuffixedMorphemeResponse
     (object2 "prefix" (quoted [mim]) "suffix" (quoted [yudh; nun]))
   = Ok (mkPrefixedSuffixedMorpheme (Some [mim]) (Some [yudh; nun])) /\
   parse_word script_markup_error script_call script_json_loads morpheme_node
     word_mshkhyn 3 (start script_morphemes)
   = in_sequence
       (fun c p => parse_word script_markup_error script_call script_json_loads
                     c p (3 + 1))
       [ (mkNode MorphemeTypeResponse [], [mim]);
         (mkNode MorphemeTypeResponse [], [shin; kaph; heth]);
         (mkNode MorphemeTypeResponse [], [yudh; nun]) ]
       (mkState
          (mkMessageQueue
             [ mkMessage USER
                 (user_frame
                    (get_question PrefixedSuffixedMorphemeResponse word_mshkhyn))
                 None;
               mkMessage ASSISTANT []
                 (Some [mkToolCall (lit "call_0") (lit "response")
                          (object2 "prefix" (quoted [mim])
                             "suffix" (quoted [yudh; nun]))]);
               mkToolMessage TOOL [] None (lit "call_0") (lit "response") ]
             (object2 "prefix" (quoted [mim]) "suffix" (quoted [yudh; nun])))
          ([word_line 3 word_mshkhyn]
           ++ [answer_line 3
                 (mkPrefixedSuffixedMorpheme (Some [mim]) (Some [yudh; nun]))])
          []
          (tl script_morphemes))) /\
  calls_made
    (snd (parse_word script_markup_error (metered script_call)
            script_json_loads morpheme_node word_mshkhyn 3
            (mkState new_queue [] [] (0, script_morphemes))))
  <= 0 + size morpheme_node.
Proof.
  destruct (walker_terminates_within_height script_markup_error script_call
              script_json_loads)
    as (_ & _ & _ & Hcalls & _ & _ & Horder).
  split.
  - split; [reflexivity|]. split; [reflexivity|].
    exact (proj2
             (Horder PrefixedSuffixedMorphemeResponse
                (node_children morpheme_node) word_mshkhyn 3
                (start script_morphemes)
                (mkState
                   (mkMessageQueue
                      [ mkMessage USER
                          (user_frame
                             (get_question PrefixedSuffixedMorphemeResponse
                                word_mshkhyn))
                          None;
                        mkMessage ASSISTANT []
                          (Some [mkToolCall (lit "call_0") (lit "response")
                                   (object2 "prefix" (quoted [mim])
                                      "suffix" (quoted [yudh; nun]))]);
                        mkToolMessage TOOL [] None (lit "call_0")
                          (lit "response") ]
                      (object2 "prefix" (quoted [mim])
                         "suffix" (quoted [yudh; nun])))
                   [word_line 3 word_mshkhyn] [] (tl script_morphemes))
                (tool_answer
                   (object2 "prefix" (quoted [mim]) "suffix" (quoted [yudh; nun])))
                (tl script_morphemes)
                (mkPrefixedSuffixedMorpheme (Some [mim]) (Some [yudh; nun]))
                eq_refl eq_refl eq_refl)
             eq_refl).
  - exact (proj2 (proj1 (Hcalls morpheme_node word_mshkhyn 3
                           (mkState new_queue [] [] (0, script_morphemes))))).
Defined.
